(** * Regex_to_NFA: a shallow embedding of [regext_to_nfa.py]

    The Python module turns a simplified regular expression into an NFA in
    two passes: [infix_to_postfix] (explicit concatenation, then an
    operator-precedence conversion) and [postfix_to_nfa] (Thompson's
    construction over a stack of fragments).

    Python strings are sequences of Unicode code points; a character is
    modelled by its code point.  The transition table of an [NFA] object is
    a dict of dicts of sets, all three mutable and reachable through
    references, so the construction is modelled over an explicit object
    store in which inner dicts and destination sets live at addresses. *)

From Stdlib Require Import NArith String Ascii Lia.
From stdpp Require Import base numbers option list.

Set Default Proof Using "Type".

(** ** Characters and strings *)

Definition char := N.

Definition chr (a : ascii) : char := N_of_ascii a.

(** The code points of an ASCII-only Python string literal. *)
Definition str (s : string) : list char := chr <$> list_ascii_of_string s.

Definition STAR : char := Eval vm_compute in chr "*".
Definition PLUS : char := Eval vm_compute in chr "+".
Definition OPT : char := Eval vm_compute in chr "?".
Definition DOT : char := Eval vm_compute in chr ".".
Definition ALT : char := Eval vm_compute in chr "|".
Definition LPAREN : char := Eval vm_compute in chr "(".
Definition RPAREN : char := Eval vm_compute in chr ")".

(** ['ε'] is U+03B5 GREEK SMALL LETTER EPSILON, a one-character string that
    the code uses, in band, as the label of epsilon transitions. *)
Definition EPSILON : char := 949%N.

(** The list [['*', '+', '?', '.', '|']] of lines 123 and 170. *)
Definition operators : list char := [STAR; PLUS; OPT; DOT; ALT].

(** ** Exceptions *)

Inductive message :=
  | UnexpectedSymbol (c : char)   (* "Unexpected symbol '{char}' in postfix expression." *)
  | InvalidPostfix.               (* "Invalid postfix expression: stack does not contain exactly one NFA at the end." *)

Inductive exn :=
  | IndexError                    (* list.pop() on an empty list *)
  | KeyError                      (* dict[k] on a missing key *)
  | ValueError (msg : message).

Inductive result (A : Type) :=
  | Ok (a : A)
  | Raise (e : exn).
Arguments Ok {A} a.
Arguments Raise {A} e.

#[global] Instance result_ret : MRet result := @Ok.
#[global] Instance result_bind : MBind result := fun A B f m =>
  match m with
  | Ok a => f a
  | Raise e => Raise e
  end.

Definition of_option {A} (e : exn) (o : option A) : result A :=
  match o with
  | Some a => Ok a
  | None => Raise e
  end.

(** ** Python dicts as insertion-ordered association lists *)

Section dict.
Context {K V : Type} `{EqDecision K}.

(** [d.get(k)]; [k in d] is [is_Some (dict_get k d)]. *)
Fixpoint dict_get (k : K) (d : list (K * V)) : option V :=
  match d with
  | [] => None
  | (k', v) :: d' => if decide (k = k') then Some v else dict_get k d'
  end.

(** [d[k] = v]: a present key keeps its position, a new one goes last. *)
Fixpoint dict_set (k : K) (v : V) (d : list (K * V)) : list (K * V) :=
  match d with
  | [] => [(k, v)]
  | (k', v') :: d' =>
      if decide (k = k') then (k, v) :: d' else (k', v') :: dict_set k v d'
  end.
End dict.

(** ** [infix_to_postfix] *)

(** Step 1 (lines 80-98): the list [explicit], the expression with ['.']
    appended after [c] whenever [c] has a successor [nxt], [c] is not in
    [['(', '|']] and [nxt] is not in [[')', '|', '*', '+', '?']]. *)
Fixpoint explicit (regex : list char) : list char :=
  match regex with
  | [] => []
  | c :: rest =>
      c :: (match rest with
            | [] => []
            | nxt :: _ =>
                if decide ((c ∉ [LPAREN; ALT]) ∧ (nxt ∉ [RPAREN; ALT; STAR; PLUS; OPT]))
                then [DOT] else []
            end ++ explicit rest)
  end.

(** The dict [precedence] of lines 105-112. *)
Definition precedence : list (char * nat) :=
  [(STAR, 3); (PLUS, 3); (OPT, 3); (DOT, 2); (ALT, 1); (LPAREN, 0)].

(** Lines 119-122: [top = stack.pop()], then pop and emit until [top] is
    ['(']. The operator stack is a list whose head is the top. *)
Fixpoint pop_to_paren (output stack : list char) : result (list char * list char) :=
  match stack with
  | [] => Raise IndexError
  | top :: stack' =>
      if decide (top = LPAREN) then Ok (output, stack')
      else pop_to_paren (output ++ [top]) stack'
  end.

(** Lines 126-127: while the stack is not empty and its top has a
    precedence at least that of [c], pop it to the output. *)
Fixpoint pop_higher (c : char) (output stack : list char) : result (list char * list char) :=
  match stack with
  | [] => Ok (output, [])
  | top :: stack' =>
      p_top ← of_option KeyError (dict_get top precedence);
      p_c ← of_option KeyError (dict_get c precedence);
      if decide (p_c ≤ p_top) then pop_higher c (output ++ [top]) stack'
      else Ok (output, stack)
  end.

(** One iteration of the loop of lines 114-131. *)
Definition shunt (c : char) (output stack : list char) : result (list char * list char) :=
  if decide (c = LPAREN) then Ok (output, c :: stack)
  else if decide (c = RPAREN) then pop_to_paren output stack
  else if decide (c ∈ operators) then
    '(output, stack) ← pop_higher c output stack;
    Ok (output, c :: stack)
  else Ok (output ++ [c], stack).

Fixpoint shunting_yard (regex : list char) (output stack : list char) : result (list char * list char) :=
  match regex with
  | [] => Ok (output, stack)
  | c :: regex' =>
      '(output, stack) ← shunt c output stack;
      shunting_yard regex' output stack
  end.

(** Lines 134-137: what is left on the stack is emitted from the top. *)
Definition infix_to_postfix (regex : list char) : result (list char) :=
  '(output, stack) ← shunting_yard (explicit regex) [] [];
  Ok (output ++ stack).

(** ** The object store

    A transition table is [transitions[state][symbol] = set_of_next_states]:
    an outer dict from states to inner dicts, each inner dict from symbols
    to sets. Inner dicts and sets are objects of the store and are named by
    their addresses, so that two tables can hold the same inner dict. A
    fresh object takes the next free address. The outer dict of an [NFA]
    object is held by value in the record: every [NFA] is built over an
    outer dict of its own (a new [{}], or the new dict made by [dict(...)])
    to which nothing else keeps a reference. *)

Record store := Store {
  dicts : list (list (char * nat));   (* inner dicts: symbol -> address of a set *)
  sets : list (list nat)              (* sets of states, without duplicates *)
}.

Definition empty_store : store := Store [] [].

Record NFA := Build_NFA {
  start_state : nat;
  accept_state : nat;
  transitions : list (nat * nat)      (* outer dict: state -> address of an inner dict *)
}.

(** [s.add(x)] and [s.update(other)] on the elements of a set. *)
Definition set_add (x : nat) (s : list nat) : list nat :=
  if decide (x ∈ s) then s else s ++ [x].

Definition set_update (s other : list nat) : list nat :=
  foldl (fun s x => set_add x s) s other.

(** [if state not in transitions: transitions[state] = {}], giving the
    inner dict that [transitions[state]] denotes afterwards. *)
Definition ensure_state (σ : store) (tr : list (nat * nat)) (state : nat)
    : store * list (nat * nat) * nat :=
  match dict_get state tr with
  | Some a => (σ, tr, a)
  | None =>
      let a := length (dicts σ) in
      (Store (dicts σ ++ [[]]) (sets σ), dict_set state a tr, a)
  end.

(** [if symbol not in inner: inner[symbol] = set()] for the inner dict at
    address [a], giving the set that [inner[symbol]] denotes afterwards. *)
Definition ensure_symbol (σ : store) (a : nat) (symbol : char) : store * nat :=
  match dict_get symbol (dicts σ !!! a) with
  | Some b => (σ, b)
  | None =>
      let b := length (sets σ) in
      (Store (<[a := dict_set symbol b (dicts σ !!! a)]> (dicts σ)) (sets σ ++ [[]]), b)
  end.

(** [NFA.add_transition] (lines 44-57). *)
Definition add_transition (σ : store) (nfa : NFA) (from_state : nat) (symbol : char)
    (to_state : nat) : store * NFA :=
  let '(σ, tr, a) := ensure_state σ (transitions nfa) from_state in
  let '(σ, b) := ensure_symbol σ a symbol in
  (Store (dicts σ) (<[b := set_add to_state (sets σ !!! b)]> (sets σ)),
   Build_NFA (start_state nfa) (accept_state nfa) tr).

(** The merge loops of lines 245-251 and 268-274. The body, for one
    [symbol, destinations] item of [nfa2.transitions[state]]: *)
Definition merge_item (state : nat) (acc : store * list (nat * nat)) (item : char * nat)
    : store * list (nat * nat) :=
  let '(symbol, destinations) := item in
  let '(σ, tr, a) := ensure_state acc.1 acc.2 state in
  let '(σ, b) := ensure_symbol σ a symbol in
  (Store (dicts σ) (<[b := set_update (sets σ !!! b) (sets σ !!! destinations)]> (sets σ)), tr).

(** The inner loop, over the items of the inner dict at address [a2]. *)
Definition merge_state (acc : store * list (nat * nat)) (entry : nat * nat)
    : store * list (nat * nat) :=
  let '(state, a2) := entry in
  foldl (merge_item state) acc (dicts acc.1 !!! a2).

(** The outer loop, over [nfa2.transitions]. *)
Definition merge (σ : store) (nfa nfa2 : NFA) : store * NFA :=
  let '(σ, tr) := foldl merge_state (σ, transitions nfa) (transitions nfa2) in
  (σ, Build_NFA (start_state nfa) (accept_state nfa) tr).

(** A run of [add_transition] calls on the same object, in order. *)
Definition add_transitions (p : store * NFA) (l : list (nat * char * nat)) : store * NFA :=
  foldl (fun p '(f, s, t) => add_transition p.1 p.2 f s t) p l.

(** ** [postfix_to_nfa] *)

(** The local variables of [postfix_to_nfa] that live across iterations,
    with the store. The head of [stack] is its top. *)
Record state := State {
  heap : store;
  next_state_id : nat;
  stack : list NFA
}.

Definition pop (stack : list NFA) : result (NFA * list NFA) :=
  match stack with
  | [] => Raise IndexError
  | nfa :: stack' => Ok (nfa, stack')
  end.

(** One iteration of the loop of lines 169-285. [new_state()] returns the
    counter and increments it, so two calls give [n] and [n + 1]. *)
Definition step (st : state) (c : char) : result state :=
  let '(State σ n stack) := st in
  if decide (c ∉ operators) then
    let start := n in
    let accept := n + 1 in
    let '(σ, nfa) := add_transition σ (Build_NFA start accept []) start c accept in
    Ok (State σ (n + 2) (nfa :: stack))
  else if decide (c = STAR) then
    '(nfa1, stack) ← pop stack;
    let start := n in
    let accept := n + 1 in
    let '(σ, nfa) :=
      add_transitions (σ, Build_NFA start accept (transitions nfa1))
        [(start, EPSILON, start_state nfa1);
         (accept_state nfa1, EPSILON, start_state nfa1);
         (start, EPSILON, accept);
         (accept_state nfa1, EPSILON, accept)] in
    Ok (State σ (n + 2) (nfa :: stack))
  else if decide (c = PLUS) then
    '(nfa1, stack) ← pop stack;
    let start := n in
    let accept := n + 1 in
    let '(σ, nfa) :=
      add_transitions (σ, Build_NFA start accept (transitions nfa1))
        [(start, EPSILON, start_state nfa1);
         (accept_state nfa1, EPSILON, start_state nfa1);
         (accept_state nfa1, EPSILON, accept)] in
    Ok (State σ (n + 2) (nfa :: stack))
  else if decide (c = OPT) then
    '(nfa1, stack) ← pop stack;
    let start := n in
    let accept := n + 1 in
    let '(σ, nfa) :=
      add_transitions (σ, Build_NFA start accept (transitions nfa1))
        [(start, EPSILON, start_state nfa1);
         (accept_state nfa1, EPSILON, accept);
         (start, EPSILON, accept)] in
    Ok (State σ (n + 2) (nfa :: stack))
  else if decide (c = DOT) then
    '(nfa2, stack) ← pop stack;
    '(nfa1, stack) ← pop stack;
    let nfa := Build_NFA (start_state nfa1) (accept_state nfa2) (transitions nfa1) in
    let '(σ, nfa) :=
      add_transitions (merge σ nfa nfa2)
        [(accept_state nfa1, EPSILON, start_state nfa2)] in
    Ok (State σ n (nfa :: stack))
  else if decide (c = ALT) then
    '(nfa2, stack) ← pop stack;
    '(nfa1, stack) ← pop stack;
    let start := n in
    let accept := n + 1 in
    let nfa := Build_NFA start accept (transitions nfa1) in
    let '(σ, nfa) :=
      add_transitions (merge σ nfa nfa2)
        [(start, EPSILON, start_state nfa1);
         (start, EPSILON, start_state nfa2);
         (accept_state nfa1, EPSILON, accept);
         (accept_state nfa2, EPSILON, accept)] in
    Ok (State σ (n + 2) (nfa :: stack))
  else Raise (ValueError (UnexpectedSymbol c)).

Fixpoint eval (postfix : list char) (st : state) : result state :=
  match postfix with
  | [] => Ok st
  | c :: postfix' => st ← step st c; eval postfix' st
  end.

Definition initial : state := State empty_store 0 [].

(** The NFA object returned, with the store its table lives in. *)
Definition postfix_to_nfa (postfix : list char) : result (store * NFA) :=
  st ← eval postfix initial;
  if decide (length (stack st) ≠ 1) then Raise (ValueError InvalidPostfix)
  else '(nfa, _) ← pop (stack st); Ok (heap st, nfa).

(** ** [regex_to_nfa] *)

Definition regex_to_nfa (regex : list char) : result (store * NFA) :=
  postfix ← infix_to_postfix regex;
  postfix_to_nfa postfix.

(** ** Reading a table

    The value of [transitions[state][symbol]] for every state and symbol of
    a table, in the order of the dicts. *)
Definition table : Type := list (nat * list (char * list nat)).

Definition read_dict (σ : store) (a : nat) : list (char * list nat) :=
  prod_map id (fun b => sets σ !!! b) <$> (dicts σ !!! a).

Definition read_table (σ : store) (tr : list (nat * nat)) : table :=
  prod_map id (read_dict σ) <$> tr.

Definition table_of (σ : store) (nfa : NFA) : table :=
  read_table σ (transitions nfa).

(** The destination states of [state] on [symbol], and the transitions
    of a table as [(state, label, destination)] triples. *)
Definition dests (t : table) (state : nat) (symbol : char) : list nat :=
  default [] (inner ← dict_get state t; dict_get symbol inner).

Definition triples (t : table) : list (nat * char * nat) :=
  '(s, inner) ← t; '(l, ds) ← inner; d ← ds; [(s, l, d)].

Definition count_non_epsilon (t : table) : nat :=
  length (filter (fun x => x.1.2 ≠ EPSILON) (triples t)).

(** The states of an automaton: its start and accept states and every state
    that occurs in a transition, each once. *)
Definition states_of (start accept : nat) (t : table) : list nat :=
  remove_dups (start :: accept :: ('(s, _, d) ← triples t; [s; d])).

(** ** Acceptance

    The standard acceptance of an NFA with epsilon moves, on a table read
    from the store: a transition labelled ['ε'] is taken without input, any
    other consumes its label. *)
Section acceptance.
Context (t : table) (accept : nat).

Inductive eps_reach : nat → nat → Prop :=
  | eps_refl s : eps_reach s s
  | eps_step s s' s'' :
      s' ∈ dests t s EPSILON → eps_reach s' s'' → eps_reach s s''.

Inductive accepts_from : nat → list char → Prop :=
  | accepts_nil s : eps_reach s accept → accepts_from s []
  | accepts_cons s s1 s2 c w :
      eps_reach s s1 → c ≠ EPSILON → s2 ∈ dests t s1 c →
      accepts_from s2 w → accepts_from s (c :: w).

(** A simulator on sets of states. The closure is iterated [fuel] times
    and then checked to be closed; [None] means [fuel] was too small. *)
Definition eps_succ (S : list nat) : list nat := s ← S; dests t s EPSILON.

Fixpoint closure (fuel : nat) (S : list nat) : list nat :=
  match fuel with
  | 0 => S
  | S fuel' => closure fuel' (list_union S (eps_succ S))
  end.

Definition move (S : list nat) (c : char) : list nat :=
  if decide (c = EPSILON) then [] else s ← S; dests t s c.

Fixpoint simulate (fuel : nat) (S : list nat) (w : list char) : option bool :=
  let C := closure fuel S in
  if decide (Forall (fun d => d ∈ C) (eps_succ C)) then
    match w with
    | [] => Some (bool_decide (accept ∈ C))
    | c :: w' => simulate fuel (move C c) w'
    end
  else None.
End acceptance.

Definition accepts (r : store * NFA) (w : list char) : Prop :=
  accepts_from (table_of r.1 r.2) (accept_state r.2) (start_state r.2) w.

Definition accepts_check (fuel : nat) (r : store * NFA) (w : list char) : option bool :=
  simulate (table_of r.1 r.2) (accept_state r.2) fuel [start_state r.2] w.

(** ** Vocabulary of the claims *)

(** The symbols with a meaning in an expression: the five operators and the
    two group markers. Every other character is a literal. *)
Definition symbols : list char := operators ++ [LPAREN; RPAREN].

Definition count_literals (regex : list char) : nat :=
  length (filter (fun c => c ∉ symbols) regex).

(** The three error kinds that the specification names. The code raises
    built-in exceptions only: the two [ValueError]s of [postfix_to_nfa] fall
    under the kinds whose descriptions they match, and the [IndexError] of a
    pop from an empty list and the [KeyError] of a dict access are of no
    kind. *)
Inductive error_kind :=
  | MalformedExpressionError
  | UnexpectedSymbolError
  | InvalidPostfixError.

Definition kind_of (e : exn) : option error_kind :=
  match e with
  | ValueError (UnexpectedSymbol _) => Some UnexpectedSymbolError
  | ValueError InvalidPostfix => Some InvalidPostfixError
  | IndexError | KeyError => None
  end.

(** A closing group marker without a matching opening marker before it:
    scanning from the left with [depth] markers open, some [')'] is met at
    depth zero. *)
Fixpoint close_unmatched (depth : nat) (regex : list char) : bool :=
  match regex with
  | [] => false
  | c :: rest =>
      if decide (c = LPAREN) then close_unmatched (S depth) rest
      else if decide (c = RPAREN) then
        match depth with
        | 0 => true
        | S depth' => close_unmatched depth' rest
        end
      else close_unmatched depth rest
  end.

(** ** Well-formed expressions

    The grammar of the expressions that the module documents: literals,
    groups, the postfix operators, juxtaposition and alternation, with the
    usual binding strengths. [parses k regex postfix] reads [regex] as an
    expression of level [k] (1: alternation, 2: concatenation, 3:
    repetition, 4: literal or group) whose postfix form is [postfix]. The
    levels of the operators are their precedences. *)
Inductive parses : nat → list char → list char → Prop :=
  | parses_literal c :
      c ∉ symbols → parses 4 [c] [c]
  | parses_group regex postfix :
      parses 1 regex postfix → parses 4 (LPAREN :: regex ++ [RPAREN]) postfix
  | parses_atom regex postfix :
      parses 4 regex postfix → parses 3 regex postfix
  | parses_repeat op regex postfix :
      op ∈ [STAR; PLUS; OPT] →
      parses 3 regex postfix → parses 3 (regex ++ [op]) (postfix ++ [op])
  | parses_factor regex postfix :
      parses 3 regex postfix → parses 2 regex postfix
  | parses_concat regex1 postfix1 regex2 postfix2 :
      parses 2 regex1 postfix1 → parses 3 regex2 postfix2 →
      parses 2 (regex1 ++ regex2) (postfix1 ++ postfix2 ++ [DOT])
  | parses_term regex postfix :
      parses 2 regex postfix → parses 1 regex postfix
  | parses_alt regex1 postfix1 regex2 postfix2 :
      parses 1 regex1 postfix1 → parses 2 regex2 postfix2 →
      parses 1 (regex1 ++ ALT :: regex2) (postfix1 ++ postfix2 ++ [ALT]).

Definition well_formed (regex : list char) : Prop := ∃ postfix, parses 1 regex postfix.

(** ** The operator stack *)

(** What the stack of [infix_to_postfix] holds: operators and ['(']. *)
Definition stack_symbol (c : char) : Prop := c ∈ operators ∨ c = LPAREN.

Definition prec (c : char) : nat := default 0 (dict_get c precedence).

(** The tokens at the top of the stack whose precedence is at least [k],
    and the stack below them. *)
Fixpoint emit (k : nat) (stack : list char) : list char :=
  match stack with
  | [] => []
  | top :: stack' => if decide (k ≤ prec top) then top :: emit k stack' else []
  end.

Fixpoint keep (k : nat) (stack : list char) : list char :=
  match stack with
  | [] => []
  | top :: stack' => if decide (k ≤ prec top) then keep k stack' else stack
  end.

(** The number of opening markers on the stack. *)
Definition opens (stack : list char) : nat :=
  length (filter (fun c => c = LPAREN) stack).

(** The ['.'] that [explicit] puts between [c] and its successor [nxt]. *)
Definition glue (c nxt : char) : list char :=
  if decide ((c ∉ [LPAREN; ALT]) ∧ (nxt ∉ [RPAREN; ALT; STAR; PLUS; OPT]))
  then [DOT] else [].

(** ** Ownership in the store *)

(** The inner dicts that a list of outer-dict entries refers to are
    [entries.*2]; the sets that the inner dict at [a] refers to are
    [(dicts σ !!! a).*2]. [owned σ entries] says that these references are
    to allocated objects and that none is held twice: no two entries hold
    the same inner dict, and no set is held twice by one inner dict or by
    two of them. *)
Record owned (σ : store) (entries : list (nat * nat)) : Prop := Owned {
  owned_dicts_nodup : NoDup entries.*2;
  owned_dicts_alloc : ∀ a, a ∈ entries.*2 → a < length (dicts σ);
  owned_sets_nodup : ∀ a, a ∈ entries.*2 → NoDup (dicts σ !!! a).*2;
  owned_sets_sep : ∀ a1 a2 b,
    a1 ∈ entries.*2 → a2 ∈ entries.*2 →
    b ∈ (dicts σ !!! a1).*2 → b ∈ (dicts σ !!! a2).*2 → a1 = a2;
  owned_sets_alloc : ∀ a b,
    a ∈ entries.*2 → b ∈ (dicts σ !!! a).*2 → b < length (sets σ)
}.

(** The objects that [entries] reach are the same in [σ'] as in [σ]. *)
Definition preserved (entries : list (nat * nat)) (σ σ' : store) : Prop :=
  ∀ a, a ∈ entries.*2 →
    dicts σ' !!! a = dicts σ !!! a ∧
    ∀ b, b ∈ (dicts σ !!! a).*2 → sets σ' !!! b = sets σ !!! b.

(** The stack of the evaluator owns what its fragments reach. *)
Definition separated (st : state) : Prop :=
  owned (heap st) (stack st ≫= transitions).

(** The addresses of the inner dicts and of the sets of a fragment. *)
Definition dict_addrs (nfa : NFA) : list nat := (transitions nfa).*2.

Definition set_addrs (σ : store) (nfa : NFA) : list nat :=
  a ← dict_addrs nfa; (dicts σ !!! a).*2.

(** The statements [if state not in T: ...; if symbol not in T[state]: ...;
    T[state][symbol] = g(T[state][symbol])] that [add_transition] and the
    merge loops have in common. *)
Definition modify (g : list nat → list nat) (σ : store) (tr : list (nat * nat))
    (state : nat) (symbol : char) : store * list (nat * nat) :=
  let '(σ, tr, a) := ensure_state σ tr state in
  let '(σ, b) := ensure_symbol σ a symbol in
  (Store (dicts σ) (<[b := g (sets σ !!! b)]> (sets σ)), tr).

(** ** Tables as values

    The same operations on the value of a table. They are what the
    operations on the store compute as long as the tables at hand own what
    they reach. *)
Definition table_modify (g : list nat → list nat) (t : table) (state : nat)
    (symbol : char) : table :=
  dict_set state
    (dict_set symbol (g (dests t state symbol)) (default [] (dict_get state t))) t.

Definition table_add (t : table) (tr : nat * char * nat) : table :=
  table_modify (set_add tr.2) t tr.1.1 tr.1.2.

Definition table_merge_state (t : table) (entry : nat * list (char * list nat)) : table :=
  foldl (fun t item => table_modify (fun s => set_update s item.2) t entry.1 item.1)
    t entry.2.

Definition table_merge (t t2 : table) : table := foldl table_merge_state t t2.

Record fragment := Fragment {
  frag_start : nat;
  frag_accept : nat;
  frag_table : table
}.

Definition fragment_of (σ : store) (nfa : NFA) : fragment :=
  Fragment (start_state nfa) (accept_state nfa) (table_of σ nfa).

Definition pop_fragment (stack : list fragment) : result (fragment * list fragment) :=
  match stack with
  | [] => Raise IndexError
  | f :: stack' => Ok (f, stack')
  end.

(** The evaluator on fragments held by value. *)
Definition value_step (vs : nat * list fragment) (c : char) : result (nat * list fragment) :=
  let '(n, stack) := vs in
  if decide (c ∉ operators) then
    Ok (n + 2, Fragment n (n + 1) (table_add [] (n, c, n + 1)) :: stack)
  else if decide (c = STAR) then
    '(f1, stack) ← pop_fragment stack;
    Ok (n + 2,
        Fragment n (n + 1)
          (foldl table_add (frag_table f1)
             [(n, EPSILON, frag_start f1);
              (frag_accept f1, EPSILON, frag_start f1);
              (n, EPSILON, n + 1);
              (frag_accept f1, EPSILON, n + 1)]) :: stack)
  else if decide (c = PLUS) then
    '(f1, stack) ← pop_fragment stack;
    Ok (n + 2,
        Fragment n (n + 1)
          (foldl table_add (frag_table f1)
             [(n, EPSILON, frag_start f1);
              (frag_accept f1, EPSILON, frag_start f1);
              (frag_accept f1, EPSILON, n + 1)]) :: stack)
  else if decide (c = OPT) then
    '(f1, stack) ← pop_fragment stack;
    Ok (n + 2,
        Fragment n (n + 1)
          (foldl table_add (frag_table f1)
             [(n, EPSILON, frag_start f1);
              (frag_accept f1, EPSILON, n + 1);
              (n, EPSILON, n + 1)]) :: stack)
  else if decide (c = DOT) then
    '(f2, stack) ← pop_fragment stack;
    '(f1, stack) ← pop_fragment stack;
    Ok (n,
        Fragment (frag_start f1) (frag_accept f2)
          (foldl table_add (table_merge (frag_table f1) (frag_table f2))
             [(frag_accept f1, EPSILON, frag_start f2)]) :: stack)
  else if decide (c = ALT) then
    '(f2, stack) ← pop_fragment stack;
    '(f1, stack) ← pop_fragment stack;
    Ok (n + 2,
        Fragment n (n + 1)
          (foldl table_add (table_merge (frag_table f1) (frag_table f2))
             [(n, EPSILON, frag_start f1);
              (n, EPSILON, frag_start f2);
              (frag_accept f1, EPSILON, n + 1);
              (frag_accept f2, EPSILON, n + 1)]) :: stack)
  else Raise (ValueError (UnexpectedSymbol c)).

Fixpoint value_eval (postfix : list char) (vs : nat * list fragment)
    : result (nat * list fragment) :=
  match postfix with
  | [] => Ok vs
  | c :: postfix' => vs ← value_step vs c; value_eval postfix' vs
  end.

(** The counter and the fragments of a state of the evaluator. *)
Definition values_of (st : state) : nat * list fragment :=
  (next_state_id st, fragment_of (heap st) <$> stack st).

(** ** The states of the fragments on the stack

    A fragment is made of states allocated in a row: [fragment_ok lo hi f]
    says that every state of [f] (start, accept, sources and destinations)
    lies in [lo, hi), and that the dicts and sets of its table are well
    formed: keys and elements are not repeated and no inner dict is empty.
    The fragments of a stack occupy consecutive ranges, the top one ending
    below the counter. *)
Definition in_range (lo hi : nat) (s : nat) : Prop := lo ≤ s < hi.

Definition set_ok (lo hi : nat) (ds : list nat) : Prop :=
  NoDup ds ∧ Forall (in_range lo hi) ds.

Definition inner_ok (lo hi : nat) (inner : list (char * list nat)) : Prop :=
  inner ≠ [] ∧ NoDup inner.*1 ∧ Forall (set_ok lo hi) inner.*2.

Definition table_ok (lo hi : nat) (t : table) : Prop :=
  NoDup t.*1 ∧ Forall (in_range lo hi) t.*1 ∧ Forall (inner_ok lo hi) t.*2.

Definition fragment_ok (lo hi : nat) (f : fragment) : Prop :=
  in_range lo hi (frag_start f) ∧ in_range lo hi (frag_accept f) ∧
  table_ok lo hi (frag_table f).

Inductive stack_ok : nat → list fragment → Prop :=
  | stack_ok_nil n : stack_ok n []
  | stack_ok_cons lo hi f stack :
      fragment_ok lo hi f → stack_ok lo stack → stack_ok hi (f :: stack).

(** The transitions with a label other than ['ε'] in all the fragments of a
    stack, and the tokens of a postfix string that put one there. *)
Definition total_non_epsilon (stack : list fragment) : nat :=
  sum_list (count_non_epsilon ∘ frag_table <$> stack).

Definition count_labels (postfix : list char) : nat :=
  length (filter (fun c => (c ∉ operators) ∧ c ≠ EPSILON) postfix).

(** ** The height of the fragment stack

    What the tokens of a postfix string do to the number of fragments on
    the stack: a literal pushes one, a repetition operator pops one and
    pushes one, and ['.'] and ['|'] pop two and push one. [None] when some
    operator finds too few fragments. *)
Fixpoint stack_height (postfix : list char) (h : nat) : option nat :=
  match postfix with
  | [] => Some h
  | c :: postfix' =>
      if decide (c ∉ operators) then stack_height postfix' (S h)
      else if decide (c ∈ [STAR; PLUS; OPT]) then
        if decide (1 ≤ h) then stack_height postfix' h else None
      else
        if decide (2 ≤ h) then stack_height postfix' (h - 1) else None
  end.

(** The accept state of a fragment has no transition of its own and is not
    the start state. *)
Definition accept_free (f : fragment) : Prop :=
  dict_get (frag_accept f) (frag_table f) = None ∧ frag_start f ≠ frag_accept f.

(** The first character of an expression is followed by no inserted dot on
    its left, the last by none on its right, when they are such: *)
Definition first_ok (regex : list char) : Prop :=
  ∃ n rest, regex = n :: rest ∧ n ∉ [RPAREN; ALT; STAR; PLUS; OPT].

Definition last_ok (regex : list char) : Prop :=
  ∃ init c, regex = init ++ [c] ∧ c ∉ [LPAREN; ALT].

(** What the conversion does on the tokens of an expression of level [k],
    from a stack whose top binds less than [k]: once the operators still
    pending at level [k] are emitted, the output has grown by the postfix
    form and the stack is as it was. *)
Definition converts (k : nat) (regex postfix : list char) : Prop :=
  ∀ output stack,
    Forall stack_symbol stack → emit k stack = [] →
    ∃ output' stack',
      shunting_yard (explicit regex) output stack = Ok (output', stack') ∧
      Forall stack_symbol stack' ∧
      output' ++ emit k stack' = output ++ postfix ∧
      keep k stack' = stack.

(** ** Expressions and their languages

    The syntax trees that the grammar gives to well-formed expressions,
    their postfix forms and the words they match. [reads k regex e] reads
    [regex] as the tree [e], at level [k] as for [parses]. *)
Inductive re :=
  | Lit (c : char)
  | Star (e : re)
  | Plus (e : re)
  | Opt (e : re)
  | Cat (e1 e2 : re)
  | Alt (e1 e2 : re).

Fixpoint post (e : re) : list char :=
  match e with
  | Lit c => [c]
  | Star e => post e ++ [STAR]
  | Plus e => post e ++ [PLUS]
  | Opt e => post e ++ [OPT]
  | Cat e1 e2 => post e1 ++ post e2 ++ [DOT]
  | Alt e1 e2 => post e1 ++ post e2 ++ [ALT]
  end.

Fixpoint literals (e : re) : list char :=
  match e with
  | Lit c => [c]
  | Star e | Plus e | Opt e => literals e
  | Cat e1 e2 | Alt e1 e2 => literals e1 ++ literals e2
  end.

Definition repeat_of (op : char) (e : re) : re :=
  if decide (op = STAR) then Star e else if decide (op = PLUS) then Plus e else Opt e.

Inductive reads : nat → list char → re → Prop :=
  | reads_literal c :
      c ∉ symbols → reads 4 [c] (Lit c)
  | reads_group regex e :
      reads 1 regex e → reads 4 (LPAREN :: regex ++ [RPAREN]) e
  | reads_atom regex e :
      reads 4 regex e → reads 3 regex e
  | reads_repeat op regex e :
      op ∈ [STAR; PLUS; OPT] →
      reads 3 regex e → reads 3 (regex ++ [op]) (repeat_of op e)
  | reads_factor regex e :
      reads 3 regex e → reads 2 regex e
  | reads_concat regex1 e1 regex2 e2 :
      reads 2 regex1 e1 → reads 3 regex2 e2 → reads 2 (regex1 ++ regex2) (Cat e1 e2)
  | reads_term regex e :
      reads 2 regex e → reads 1 regex e
  | reads_alt regex1 e1 regex2 e2 :
      reads 1 regex1 e1 → reads 2 regex2 e2 → reads 1 (regex1 ++ ALT :: regex2) (Alt e1 e2).

Inductive matches : re → list char → Prop :=
  | matches_lit c : matches (Lit c) [c]
  | matches_star_nil e : matches (Star e) []
  | matches_star_cons e w1 w2 :
      matches e w1 → matches (Star e) w2 → matches (Star e) (w1 ++ w2)
  | matches_plus e w1 w2 :
      matches e w1 → matches (Star e) w2 → matches (Plus e) (w1 ++ w2)
  | matches_opt_nil e : matches (Opt e) []
  | matches_opt e w : matches e w → matches (Opt e) w
  | matches_cat e1 e2 w1 w2 :
      matches e1 w1 → matches e2 w2 → matches (Cat e1 e2) (w1 ++ w2)
  | matches_alt_l e1 e2 w : matches e1 w → matches (Alt e1 e2) w
  | matches_alt_r e1 e2 w : matches e2 w → matches (Alt e1 e2) w.

(** The words that lead from one state of a table to another. *)
Inductive run (t : table) : nat → list char → nat → Prop :=
  | run_refl s : run t s [] s
  | run_eps s s' w s'' :
      s' ∈ dests t s EPSILON → run t s' w s'' → run t s w s''
  | run_sym s c s' w s'' :
      c ≠ EPSILON → s' ∈ dests t s c → run t s' w s'' → run t s (c :: w) s''.

(** A fragment recognises the language of an expression. *)
Definition denotes (f : fragment) (e : re) : Prop :=
  ∀ w, run (frag_table f) (frag_start f) w (frag_accept f) ↔ matches e w.

(** The opening markers that are still to be closed after [regex], when
    [depth] were open before it. *)
Fixpoint open_depth (depth : nat) (regex : list char) : nat :=
  match regex with
  | [] => depth
  | c :: rest =>
      if decide (c = LPAREN) then open_depth (S depth) rest
      else if decide (c = RPAREN) then open_depth (pred depth) rest
      else open_depth depth rest
  end.

(** The transitions of all the fragments of a stack. *)
Definition total_transitions (stack : list fragment) : nat :=
  sum_list (length ∘ triples ∘ frag_table <$> stack).

(** * Properties *)

(** ** The simulator decides acceptance *)

Section acceptance_facts.
Context (t : table) (accept : nat).

Lemma eps_reach_trans s1 s2 s3 :
  eps_reach t s1 s2 → eps_reach t s2 s3 → eps_reach t s1 s3.
Proof. induction 1; eauto using eps_reach. Qed.

Lemma elem_of_eps_succ S x :
  x ∈ eps_succ t S ↔ ∃ s, s ∈ S ∧ x ∈ dests t s EPSILON.
Proof. unfold eps_succ. rewrite list_elem_of_bind. split; intros (s & ? & ?); eauto. Qed.

Lemma closure_incl fuel S x : x ∈ S → x ∈ closure t fuel S.
Proof.
  revert S. induction fuel as [|fuel IH]; intros S Hx; simpl; [done|].
  apply IH, list_elem_of_union. by left.
Qed.

Lemma closure_sound fuel S x :
  x ∈ closure t fuel S → ∃ s, s ∈ S ∧ eps_reach t s x.
Proof.
  revert S. induction fuel as [|fuel IH]; intros S Hx; simpl in Hx.
  { exists x. split; [done | constructor]. }
  destruct (IH _ Hx) as (s & Hs & Hr).
  apply list_elem_of_union in Hs as [Hs | Hs]; [by eauto|].
  apply elem_of_eps_succ in Hs as (s0 & Hs0 & Hd).
  exists s0. split; [done|]. by eapply eps_step.
Qed.

Lemma closed_reach C s x :
  Forall (fun d => d ∈ C) (eps_succ t C) → s ∈ C → eps_reach t s x → x ∈ C.
Proof.
  intros Hc Hs Hr. induction Hr as [|s s' s'' Hd _ IH]; [done|].
  apply IH. rewrite Forall_forall in Hc. apply Hc, elem_of_eps_succ. eauto.
Qed.

Lemma simulate_correct fuel w : ∀ S b,
  simulate t accept fuel S w = Some b →
  (b = true ↔ ∃ s, s ∈ S ∧ accepts_from t accept s w).
Proof.
  induction w as [|c w IH]; intros S b; simpl; case_decide as Hc; try done.
  - intros [= <-]. rewrite bool_decide_eq_true. split.
    + intros Ha. destruct (closure_sound _ _ _ Ha) as (s & Hs & Hr).
      exists s. split; [done | by constructor].
    + intros (s & Hs & Ha). inversion Ha; subst.
      eapply closed_reach; [done | by apply closure_incl | done].
  - intros Hsim. rewrite (IH _ _ Hsim). unfold move. split.
    + intros (s2 & Hs2 & Ha). case_decide as Hne; [by apply elem_of_nil in Hs2|].
      apply list_elem_of_bind in Hs2 as (s1 & Hd & Hs1).
      destruct (closure_sound _ _ _ Hs1) as (s & Hs & Hr).
      exists s. split; [done|]. by eapply accepts_cons.
    + intros (s & Hs & Ha). inversion Ha as [|? s1 s2 ? ? Hr Hne Hd Ha']; subst.
      exists s2. split; [|done]. rewrite decide_False by done.
      apply list_elem_of_bind. exists s1. split; [done|].
      eapply closed_reach; [done | by apply closure_incl | done].
Qed.
End acceptance_facts.

Lemma accepts_check_true fuel r w : accepts_check fuel r w = Some true → accepts r w.
Proof.
  intros H. apply simulate_correct in H. destruct H as [H _].
  destruct (H eq_refl) as (s & Hs & Ha). by apply list_elem_of_singleton in Hs as ->.
Qed.

Lemma accepts_check_false fuel r w : accepts_check fuel r w = Some false → ¬ accepts r w.
Proof.
  intros H Ha. apply simulate_correct in H. destruct H as [_ H].
  discriminate H. exists (start_state r.2). split; [apply list_elem_of_singleton; done | done].
Qed.

(** ** The example of the module: ["(a|b)?a"] *)

Example explicit_example : explicit (str "(a|b)?a") = str "(a|b)?.a".
Proof. reflexivity. Qed.

(** C5: [infix_to_postfix] turns ["(a|b)?a"] into the postfix string
    ["ab|?a."], that is the tokens a b | ? a . in this order. *)
Theorem infix_to_postfix_example :
  infix_to_postfix (str "(a|b)?a") = Ok (str "ab|?a.").
Proof. reflexivity. Qed.

(** C1: the automaton that [regex_to_nfa] returns for ["(a|b)?a"] accepts
    ["a"], ["aa"] and ["ba"], and rejects [""], ["b"] and ["bb"]. *)
Theorem regex_to_nfa_example_language :
  ∃ r, regex_to_nfa (str "(a|b)?a") = Ok r ∧
    accepts r (str "a") ∧ accepts r (str "aa") ∧ accepts r (str "ba") ∧
    ¬ accepts r (str "") ∧ ¬ accepts r (str "b") ∧ ¬ accepts r (str "bb").
Proof.
  eexists. split; [vm_compute; reflexivity|].
  repeat split;
    first [ by apply (accepts_check_true 10); vm_compute
          | by apply (accepts_check_false 10); vm_compute ].
Qed.

(** C10: on the empty string [infix_to_postfix] gives the empty postfix
    string, the evaluator ends with an empty stack, and [regex_to_nfa]
    raises the [ValueError] of the final stack-size check. *)
Theorem regex_to_nfa_empty :
  infix_to_postfix [] = Ok [] ∧
  (∃ st, eval [] initial = Ok st ∧ stack st = []) ∧
  regex_to_nfa [] = Raise (ValueError InvalidPostfix).
Proof. split; [done|]. split; [by eexists|done]. Qed.

(** ** Characters *)

Lemma elem_of_operators c :
  c ∈ operators ↔ c = STAR ∨ c = PLUS ∨ c = OPT ∨ c = DOT ∨ c = ALT.
Proof. unfold operators. rewrite !elem_of_cons, elem_of_nil. tauto. Qed.

Lemma elem_of_symbols c : c ∈ symbols ↔ c ∈ operators ∨ c = LPAREN ∨ c = RPAREN.
Proof. unfold symbols. rewrite elem_of_app, !elem_of_cons, elem_of_nil. tauto. Qed.

Lemma precedence_operator c : c ∈ operators → ∃ p, dict_get c precedence = Some p ∧ 1 ≤ p.
Proof.
  rewrite elem_of_operators. intros [->|[->|[->|[->| ->]]]]; eexists; (split; [reflexivity|lia]).
Qed.

(** ** Lists as stores *)

Lemma insert_snoc {A} (l : list A) x y : <[length l := x]> (l ++ [y]) = l ++ [x].
Proof. rewrite insert_app_r_alt by lia. by rewrite Nat.sub_diag. Qed.

(** Allocating an empty object changes the contents of no address. *)
Lemma lookup_total_snoc_nil {A} (l : list (list A)) i : (l ++ [[]]) !!! i = l !!! i.
Proof.
  rewrite !list_lookup_total_alt.
  destruct (decide (i < length l)) as [Hi|Hi].
  { by rewrite lookup_app_l. }
  rewrite (lookup_ge_None_2 l i) by lia.
  rewrite lookup_app_r by lia.
  by destruct (i - length l) as [|[|?]].
Qed.

Lemma lookup_total_insert_lt {A} `{!Inhabited A} (l : list A) i j x :
  i < length l → <[i:=x]> l !!! j = if decide (j = i) then x else l !!! j.
Proof.
  intros Hi. case_decide as Hj.
  - subst j. by apply list_lookup_total_insert_eq.
  - by apply list_lookup_total_insert_ne.
Qed.

Lemma foldl_ext_in {A B} (f g : A → B → A) (l : list B) : ∀ a,
  (∀ a b, b ∈ l → f a b = g a b) → foldl f a l = foldl g a l.
Proof.
  induction l as [|b l IH]; intros a Hfg; simpl; [done|].
  rewrite Hfg by left. apply IH. intros. apply Hfg. by right.
Qed.

Lemma lookup_total_ge_nil {A} (l : list (list A)) i : length l ≤ i → l !!! i = [].
Proof. intros. by rewrite list_lookup_total_alt, lookup_ge_None_2. Qed.

(** ** A literal token *)

Arguments step : simpl never.
Arguments add_transition : simpl never.
Arguments add_transitions : simpl never.
Arguments merge : simpl never.

Lemma add_transition_fresh σ start accept from_state symbol to_state :
  ∃ σ' nfa,
    add_transition σ (Build_NFA start accept []) from_state symbol to_state = (σ', nfa) ∧
    start_state nfa = start ∧ accept_state nfa = accept ∧
    transitions nfa = [(from_state, length (dicts σ))] ∧
    dicts σ' = dicts σ ++ [[(symbol, length (sets σ))]] ∧
    sets σ' = sets σ ++ [[to_state]].
Proof.
  unfold add_transition, ensure_state, ensure_symbol. simpl.
  rewrite !lookup_total_snoc_nil.
  rewrite (list_lookup_total_alt (dicts σ)), (lookup_ge_None_2 (dicts σ)) by lia.
  simpl. rewrite !lookup_total_snoc_nil.
  rewrite (list_lookup_total_alt (sets σ)), (lookup_ge_None_2 (sets σ)) by lia.
  simpl. do 2 eexists. repeat split; rewrite ?insert_snoc; done.
Qed.

Lemma step_literal σ n stk c :
  c ∉ operators →
  ∃ σ' nfa,
    step (State σ n stk) c = Ok (State σ' (n + 2) (nfa :: stk)) ∧
    start_state nfa = n ∧ accept_state nfa = n + 1 ∧
    transitions nfa = [(n, length (dicts σ))] ∧
    dicts σ' = dicts σ ++ [[(c, length (sets σ))]] ∧
    sets σ' = sets σ ++ [[n + 1]].
Proof.
  intros Hc. unfold step. rewrite decide_True by done.
  destruct (add_transition_fresh σ n (n + 1) n c (n + 1))
    as (σ' & nfa & -> & ? & ? & ? & ? & ?).
  by exists σ', nfa.
Qed.

Lemma table_of_literal σ σ' nfa (n : nat) c (m : nat) :
  transitions nfa = [(n, length (dicts σ))] →
  dicts σ' = dicts σ ++ [[(c, length (sets σ))]] →
  sets σ' = sets σ ++ [[m]] →
  table_of σ' nfa = [(n, [(c, [m])])].
Proof.
  intros Ht Hd Hs. unfold table_of, read_table, read_dict. rewrite Ht, Hd, Hs. simpl.
  rewrite list_lookup_total_middle by done. simpl.
  by rewrite list_lookup_total_middle.
Qed.

(** C3: for a character [c] that is none of the symbols * + ? . | ( ), the
    automaton of the one-character expression [c] has the two states 0
    (start) and 1 (accept) and the single transition from start to accept
    on [c]. *)
Theorem regex_to_nfa_literal c :
  c ∉ symbols →
  ∃ r, regex_to_nfa [c] = Ok r ∧
    length (states_of (start_state r.2) (accept_state r.2) (table_of r.1 r.2)) = 2 ∧
    triples (table_of r.1 r.2) = [(start_state r.2, c, accept_state r.2)].
Proof.
  intros Hc. rewrite elem_of_symbols in Hc.
  assert ((c ∉ operators) ∧ c ≠ LPAREN ∧ c ≠ RPAREN) as (Hop & Hl & Hr) by tauto.
  unfold regex_to_nfa, infix_to_postfix. simpl. unfold shunt.
  rewrite !decide_False by done. simpl.
  unfold postfix_to_nfa. simpl.
  destruct (step_literal empty_store 0 [] c Hop)
    as (σ' & nfa & Hstep & Hs & Ha & Ht & Hd & Hss).
  unfold initial. rewrite Hstep. simpl. eexists. split; [done|]. simpl.
  rewrite (table_of_literal _ _ _ _ _ _ Ht Hd Hss), Hs, Ha. by split.
Qed.

Lemma regex_to_nfa_literal_witness :
  (chr "a" ∉ symbols) ∧
  ∃ r, regex_to_nfa [chr "a"] = Ok r ∧
    length (states_of (start_state r.2) (accept_state r.2) (table_of r.1 r.2)) = 2 ∧
    triples (table_of r.1 r.2) = [(start_state r.2, chr "a", accept_state r.2)].
Proof.
  assert (chr "a" ∉ symbols) as H by (apply (bool_decide_unpack _); exact I).
  split; [exact H | exact (regex_to_nfa_literal (chr "a") H)].
Defined.

(** ** The exceptions of the evaluator *)

Lemma step_raise st c e : step st c = Raise e → e = IndexError.
Proof.
  unfold step. destruct st as [σ n stk].
  repeat case_decide;
    repeat match goal with
    | |- context [pop ?s] => destruct s; simpl
    | |- context [let '(_, _) := ?p in _] => destruct p
    end; try congruence.
  intros _. exfalso.
  assert (c ∈ operators) as Hc by (first [assumption | by apply dec_stable]).
  apply elem_of_operators in Hc. tauto.
Qed.

Lemma eval_raise postfix : ∀ st e, eval postfix st = Raise e → e = IndexError.
Proof.
  induction postfix as [|c postfix IH]; intros st e; simpl; [done|].
  destruct (step st c) as [st'|e'] eqn:Hstep; simpl; [by apply IH|].
  intros [= <-]. by eapply step_raise.
Qed.

Lemma postfix_to_nfa_raise postfix e :
  postfix_to_nfa postfix = Raise e → e = IndexError ∨ e = ValueError InvalidPostfix.
Proof.
  unfold postfix_to_nfa.
  destruct (eval postfix initial) as [st|e'] eqn:Heval; simpl.
  - case_decide; [intros [= <-]; by right|]. by destruct (stack st).
  - intros [= <-]. left. by eapply eval_raise.
Qed.

(** C8, as the claim has it, does not hold: no postfix input makes the
    evaluator raise the unexpected-symbol error. *)
Lemma unexpected_symbol_never_raised :
  ¬ ∃ postfix c, postfix_to_nfa postfix = Raise (ValueError (UnexpectedSymbol c)).
Proof. intros (postfix & c & H). by apply postfix_to_nfa_raise in H as [?|?]. Qed.

(** C8 (amended): a token that is not one of * + ? . | is evaluated as a
    literal, whatever it is, and the only exceptions of [postfix_to_nfa]
    are the [IndexError] of a pop from an empty stack and the [ValueError]
    of the final stack-size check. *)
Theorem postfix_to_nfa_exceptions postfix c st :
  match postfix_to_nfa postfix with
  | Ok _ => True
  | Raise e => e = IndexError ∨ e = ValueError InvalidPostfix
  end ∧
  (if decide (c ∈ operators) then True
   else ∃ σ' nfa,
     step st c = Ok (State σ' (next_state_id st + 2) (nfa :: stack st)) ∧
     start_state nfa = next_state_id st ∧
     accept_state nfa = next_state_id st + 1 ∧
     table_of σ' nfa = [(next_state_id st, [(c, [next_state_id st + 1])])]).
Proof.
  split.
  - destruct (postfix_to_nfa postfix) eqn:H; [done|]. by apply (postfix_to_nfa_raise postfix).
  - case_decide as Hc; [done|]. destruct st as [σ n stk].
    destruct (step_literal σ n stk c Hc) as (σ' & nfa & Hstep & Hs & Ha & Ht & Hd & Hss).
    exists σ', nfa. repeat split; try done. by eapply table_of_literal.
Qed.

(** ** Unbalanced group markers *)

(** C2, as the claim has it, does not hold: the exception raised for ["(a"]
    is the [ValueError] of the stack-size check of [postfix_to_nfa], which
    is not of the malformed-expression kind. *)
Lemma regex_to_nfa_open_not_malformed :
  ¬ ∃ e, regex_to_nfa (str "(a") = Raise e ∧ kind_of e = Some MalformedExpressionError.
Proof. intros (e & [= <-] & ?). done. Qed.

(** C2 (amended): on ["(a"] [infix_to_postfix] raises nothing and emits the
    unmatched ['('] as a token, giving ["a("]; [postfix_to_nfa] takes both
    tokens as literals and raises the [ValueError] of its stack-size check,
    so that [regex_to_nfa] returns no automaton. *)
Theorem regex_to_nfa_open_unmatched :
  infix_to_postfix (str "(a") = Ok (str "a(") ∧
  regex_to_nfa (str "(a") = Raise (ValueError InvalidPostfix).
Proof. done. Qed.

(** ** The operator stack of [infix_to_postfix] *)

Lemma stack_symbol_prec c : stack_symbol c → dict_get c precedence = Some (prec c).
Proof.
  unfold stack_symbol. rewrite elem_of_operators.
  intros [[->|[->|[->|[->| ->]]]]| ->]; reflexivity.
Qed.

Lemma stack_symbol_prec_0 c : stack_symbol c → ¬ 1 ≤ prec c → c = LPAREN.
Proof.
  unfold stack_symbol. rewrite elem_of_operators.
  intros [[->|[->|[->|[->| ->]]]]| ->]; try done; intros []; vm_compute; lia.
Qed.

Lemma prec_le_3 c : prec c ≤ 3.
Proof.
  unfold prec, precedence. simpl.
  repeat case_decide; simpl; lia.
Qed.

Lemma emit_keep k stack : emit k stack ++ keep k stack = stack.
Proof. induction stack as [|top stack IH]; simpl; [done|]. case_decide; simpl; by f_equal. Qed.

Lemma keep_stack_symbol k stack : Forall stack_symbol stack → Forall stack_symbol (keep k stack).
Proof.
  induction 1 as [|top stack Htop Hstack IH]; simpl; [done|].
  case_decide; [done | by constructor].
Qed.

Lemma emit_le j k stack : j ≤ k → emit j stack = emit k stack ++ emit j (keep k stack).
Proof.
  intros Hjk. induction stack as [|top stack IH]; simpl; [done|].
  destruct (decide (k ≤ prec top)).
  - rewrite decide_True by lia. simpl. by f_equal.
  - simpl. done.
Qed.

Lemma keep_le j k stack : j ≤ k → keep j stack = keep j (keep k stack).
Proof.
  intros Hjk. induction stack as [|top stack IH]; simpl; [done|].
  destruct (decide (k ≤ prec top)).
  - by rewrite decide_True by lia.
  - done.
Qed.

Lemma emit_nil_keep k stack : emit k stack = [] → keep k stack = stack.
Proof. destruct stack as [|top stack]; simpl; [done|]. by case_decide. Qed.

Lemma emit_above stack : emit 4 stack = [].
Proof.
  destruct stack as [|top stack]; simpl; [done|].
  rewrite decide_False; [done|]. pose proof (prec_le_3 top). lia.
Qed.

Lemma opens_keep k stack : 1 ≤ k → opens (keep k stack) = opens stack.
Proof.
  intros Hk. unfold opens. induction stack as [|top stack IH]; simpl; [done|].
  case_decide as Hp; [|done]. rewrite IH.
  rewrite filter_cons_False; [done|]. intros ->. vm_compute in Hp. lia.
Qed.

Lemma pop_higher_emit c output stack :
  c ∈ operators → Forall stack_symbol stack →
  pop_higher c output stack = Ok (output ++ emit (prec c) stack, keep (prec c) stack).
Proof.
  intros Hc Hstack. revert output.
  assert (dict_get c precedence = Some (prec c)) as Hpc.
  { apply stack_symbol_prec. by left. }
  induction Hstack as [|top stack Htop Hstack IH]; intros output;
    cbn [pop_higher emit keep].
  { by rewrite app_nil_r. }
  rewrite (stack_symbol_prec top), Hpc by done. cbn [of_option mbind result_bind].
  case_decide; [|by rewrite app_nil_r].
  rewrite IH. by rewrite <- app_assoc.
Qed.

Lemma pop_to_paren_emit output stack :
  Forall stack_symbol stack →
  pop_to_paren output stack =
    match keep 1 stack with
    | [] => Raise IndexError
    | _ :: stack' => Ok (output ++ emit 1 stack, stack')
    end.
Proof.
  intros Hstack. revert output.
  induction Hstack as [|top stack Htop Hstack IH]; intros output; simpl; [done|].
  destruct (decide (1 ≤ prec top)) as [Hp|Hp].
  - rewrite decide_False; [|intros ->; vm_compute in Hp; lia].
    rewrite IH. destruct (keep 1 stack); [done|]. by rewrite <- app_assoc.
  - rewrite decide_True by (by apply stack_symbol_prec_0).
    by rewrite app_nil_r.
Qed.

Lemma shunt_stack_symbol c output stack output' stack' :
  Forall stack_symbol stack → shunt c output stack = Ok (output', stack') →
  Forall stack_symbol stack'.
Proof.
  intros Hstack. unfold shunt. repeat case_decide.
  - intros [= <- <-]. constructor; [by right | done].
  - rewrite pop_to_paren_emit by done.
    destruct (keep 1 stack) as [|top rest] eqn:Hk; [done|]. intros [= <- <-].
    pose proof (keep_stack_symbol 1 _ Hstack) as Hks. rewrite Hk in Hks.
    by inversion Hks.
  - rewrite pop_higher_emit by done. simpl. intros [= <- <-].
    constructor; [by left | by apply keep_stack_symbol].
  - by intros [= <- <-].
Qed.

Lemma shunting_yard_app regex1 regex2 output stack :
  shunting_yard (regex1 ++ regex2) output stack =
    '(output, stack) ← shunting_yard regex1 output stack;
    shunting_yard regex2 output stack.
Proof.
  revert output stack. induction regex1 as [|c regex1 IH]; intros output stack; simpl; [done|].
  destruct (shunt c output stack) as [[output' stack']|e]; simpl; [apply IH | done].
Qed.

(** ** A closing marker without an opening marker *)

Lemma shunting_yard_close_unmatched regex : ∀ output stack,
  Forall stack_symbol stack →
  close_unmatched (opens stack) regex = true →
  shunting_yard regex output stack = Raise IndexError.
Proof.
  induction regex as [|c regex IH]; intros output stack Hstack; simpl; [done|].
  pose proof (shunt_stack_symbol c output stack) as Hsym.
  unfold shunt in *. repeat case_decide; subst.
  - simpl. intros Hu. apply IH; [by eapply Hsym|].
    unfold opens. by rewrite filter_cons_True.
  - rewrite pop_to_paren_emit in * by done.
    pose proof (opens_keep 1 stack (le_n 1)) as Hopens.
    destruct (keep 1 stack) as [|top rest] eqn:Hk.
    { unfold opens in Hopens at 1. simpl in Hopens. by rewrite <- Hopens. }
    simpl. assert (top = LPAREN) as ->.
    { pose proof (keep_stack_symbol 1 _ Hstack) as Hks. rewrite Hk in Hks.
      inversion Hks; subst. apply stack_symbol_prec_0; [done|].
      intros Hp. destruct stack as [|t stack]; [done|]. revert Hk. clear -Hp. revert t.
      induction stack as [|t' stack IHs]; intros t; simpl; case_decide; try done.
      - congruence.
      - apply IHs.
      - congruence. }
    unfold opens in Hopens at 1. rewrite filter_cons_True in Hopens by done.
    simpl in Hopens. rewrite <- Hopens. intros Hu. apply IH; [by eapply Hsym | done].
  - rewrite pop_higher_emit in * by done. simpl. intros Hu.
    apply IH; [by eapply Hsym|].
    unfold opens. rewrite filter_cons_False by done.
    fold (opens (keep (prec c) stack)). rewrite opens_keep; [done|].
    destruct (precedence_operator c) as (p & Hp & ?); [done|].
    unfold prec. rewrite Hp. done.
  - simpl. intros Hu. by apply IH.
Qed.

Lemma explicit_cons c rest :
  explicit (c :: rest) =
    c :: match rest with [] => [] | nxt :: _ => glue c nxt end ++ explicit rest.
Proof. done. Qed.

Lemma close_unmatched_glue c nxt depth regex :
  close_unmatched depth (glue c nxt ++ regex) = close_unmatched depth regex.
Proof. unfold glue. by case_decide. Qed.

Lemma close_unmatched_explicit regex : ∀ depth,
  close_unmatched depth (explicit regex) = close_unmatched depth regex.
Proof.
  induction regex as [|c rest IH]; intros depth; [done|].
  rewrite explicit_cons.
  assert (∀ d, close_unmatched d
            (match rest with [] => [] | nxt :: _ => glue c nxt end ++ explicit rest) =
          close_unmatched d rest) as Hrest.
  { intros d. destruct rest as [|nxt rest']; [done|].
    by rewrite close_unmatched_glue, IH. }
  simpl. repeat case_decide; try destruct depth; by rewrite ?Hrest.
Qed.

(** C7, as the claim has it, does not hold: for [")"] the exception is the
    [IndexError] of the pop from the empty operator stack, which is of no
    kind. *)
Lemma regex_to_nfa_close_not_malformed :
  close_unmatched 0 (str ")") = true ∧
  ¬ ∃ e, regex_to_nfa (str ")") = Raise e ∧ kind_of e = Some MalformedExpressionError.
Proof. split; [done|]. intros (e & [= <-] & ?). done. Qed.

(** C7 (amended): for every input with a closing group marker that no
    opening marker matches, the pop of the closing-marker scan is made on
    the empty operator stack: [infix_to_postfix], and with it
    [regex_to_nfa], raises [IndexError], and no automaton is returned. *)
Theorem regex_to_nfa_close_unmatched regex :
  close_unmatched 0 regex = true →
  infix_to_postfix regex = Raise IndexError ∧ regex_to_nfa regex = Raise IndexError.
Proof.
  intros Hu. assert (infix_to_postfix regex = Raise IndexError) as Hp.
  { unfold infix_to_postfix.
    rewrite shunting_yard_close_unmatched; [done | done |].
    by rewrite close_unmatched_explicit. }
  split; [done|]. unfold regex_to_nfa. by rewrite Hp.
Qed.

Lemma regex_to_nfa_close_unmatched_witness :
  close_unmatched 0 (str "a)b") = true ∧
  infix_to_postfix (str "a)b") = Raise IndexError ∧
  regex_to_nfa (str "a)b") = Raise IndexError.
Proof.
  split; [reflexivity|]. apply (regex_to_nfa_close_unmatched (str "a)b")). reflexivity.
Defined.

(** ** Dicts *)

Section dict_facts.
Context {K V : Type} `{EqDecision K}.
Implicit Types (k : K) (v : V) (d : list (K * V)).

Lemma dict_get_elem_of k v d : dict_get k d = Some v → (k, v) ∈ d.
Proof.
  induction d as [|[k' v'] d IH]; simpl; [done|].
  case_decide; [intros [= ->]; subst; left | right; auto].
Qed.

Lemma dict_get_None k d : dict_get k d = None ↔ k ∉ d.*1.
Proof.
  induction d as [|[k' v'] d IH]; simpl.
  - split; [intros _; apply not_elem_of_nil | done].
  - rewrite not_elem_of_cons. case_decide; [|tauto].
    split; [done | intros [? _]; congruence].
Qed.

Lemma dict_get_app k d1 d2 :
  dict_get k (d1 ++ d2) =
    match dict_get k d1 with Some v => Some v | None => dict_get k d2 end.
Proof. induction d1 as [|[k' v'] d1 IH]; simpl; [done|]. by case_decide. Qed.

Lemma dict_set_same k v d : dict_get k d = Some v → dict_set k v d = d.
Proof.
  induction d as [|[k' v'] d IH]; simpl; [done|].
  case_decide; [intros [= ->]; by subst | intros; f_equal; auto].
Qed.

Lemma dict_set_absent k v d : dict_get k d = None → dict_set k v d = d ++ [(k, v)].
Proof.
  induction d as [|[k' v'] d IH]; simpl; [done|].
  case_decide; [done | intros; f_equal; auto].
Qed.

Lemma dict_get_set k k' v d :
  dict_get k' (dict_set k v d) = if decide (k' = k) then Some v else dict_get k' d.
Proof.
  induction d as [|[k1 v1] d IH]; simpl.
  - by repeat case_decide.
  - repeat (case_decide; simpl; subst); try done.
Qed.

Lemma dict_get_Some_keys k v d : dict_get k d = Some v → k ∈ d.*1.
Proof.
  intros H. apply dict_get_elem_of in H.
  apply list_elem_of_fmap. by exists (k, v).
Qed.

Lemma dict_get_Some_values k v d : dict_get k d = Some v → v ∈ d.*2.
Proof.
  intros H. apply dict_get_elem_of in H.
  apply list_elem_of_fmap. by exists (k, v).
Qed.
End dict_facts.

Section dict_fmap.
Context {K A B : Type} `{EqDecision K}.
Implicit Types (k : K) (d : list (K * A)) (h : A → B).

Lemma dict_get_fmap h k d : dict_get k (prod_map id h <$> d) = h <$> dict_get k d.
Proof. induction d as [|[k' x] d IH]; simpl; [done|]. by case_decide. Qed.

Lemma fmap_agree h h' d :
  (∀ x, x ∈ d.*2 → h' x = h x) → prod_map id h' <$> d = prod_map id h <$> d.
Proof.
  induction d as [|[k x] d IH]; intros Hh; [done|].
  rewrite !fmap_cons. cbn [prod_map fst snd id]. rewrite fmap_cons in Hh. f_equal.
  - f_equal. apply Hh. by left.
  - apply IH. intros. apply Hh. by right.
Qed.

(** Reading through [h'] after an assignment of [v], when [h'] reads as [h]
    everywhere but at [v], and [v] is held by no other entry. *)
Lemma fmap_dict_set h h' k v d :
  (∀ x, x ∈ d.*2 → x ≠ v → h' x = h x) →
  NoDup d.*2 →
  dict_get k d = Some v ∨ v ∉ d.*2 →
  prod_map id h' <$> dict_set k v d = dict_set k (h' v) (prod_map id h <$> d).
Proof.
  induction d as [|[k' x] d IH]; intros Hh Hnd Hv; [done|].
  rewrite fmap_cons in Hnd, Hh. apply NoDup_cons in Hnd as [Hx Hnd].
  cbn [dict_set fmap list_fmap prod_map fst snd id]. simpl in Hx, Hh.
  case_decide as Hk.
  - subst k'. rewrite fmap_cons. cbn [prod_map fst snd id]. f_equal.
    assert (v ∉ d.*2) as Hvd.
    { destruct Hv as [Hv|Hv]; [|by apply not_elem_of_cons in Hv as [_ ?]].
      simpl in Hv. rewrite decide_True in Hv by done. by injection Hv as ->. }
    apply fmap_agree. intros x1 Hx1. apply Hh; [by right | by intros ->].
  - rewrite fmap_cons. cbn [prod_map fst snd id]. f_equal.
    + f_equal. apply Hh; [by left|]. intros ->.
      destruct Hv as [Hv|Hv]; [|apply Hv; by left].
      simpl in Hv. rewrite decide_False in Hv by done.
      by apply dict_get_Some_values in Hv.
    + apply IH; [intros; apply Hh; [by right | done] | done |].
      destruct Hv as [Hv|Hv]; [left|right].
      * simpl in Hv. by rewrite decide_False in Hv.
      * by apply not_elem_of_cons in Hv as [_ ?].
Qed.
End dict_fmap.

(** ** The effect of [modify] on the store *)

Lemma modify_effect g σ tr state symbol σ' tr' :
  (∀ a, dict_get state tr = Some a → a < length (dicts σ)) →
  (∀ a b, dict_get state tr = Some a →
     dict_get symbol (dicts σ !!! a) = Some b → b < length (sets σ)) →
  modify g σ tr state symbol = (σ', tr') →
  ∃ a b,
    (dict_get state tr = Some a ∨ dict_get state tr = None ∧ a = length (dicts σ)) ∧
    (dict_get symbol (dicts σ !!! a) = Some b ∨
     dict_get symbol (dicts σ !!! a) = None ∧ b = length (sets σ)) ∧
    tr' = dict_set state a tr ∧
    (∀ x, dicts σ' !!! x =
       if decide (x = a) then dict_set symbol b (dicts σ !!! a) else dicts σ !!! x) ∧
    (∀ y, sets σ' !!! y = if decide (y = b) then g (sets σ !!! b) else sets σ !!! y) ∧
    length (dicts σ) ≤ length (dicts σ') ≤ S (length (dicts σ)) ∧ a < length (dicts σ') ∧
    length (sets σ) ≤ length (sets σ') ≤ S (length (sets σ)) ∧ b < length (sets σ').
Proof.
  intros Ha Hb. unfold modify, ensure_state, ensure_symbol.
  destruct (dict_get state tr) as [a|] eqn:Hstate.
  - specialize (Ha a eq_refl). specialize (Hb a).
    destruct (dict_get symbol (dicts σ !!! a)) as [b|] eqn:Hsymbol.
    + specialize (Hb b eq_refl eq_refl). intros [= <- <-]. exists a, b. simpl.
      repeat split; rewrite ?length_insert; auto with lia.
      * by rewrite dict_set_same.
      * intros x. case_decide; [subst; by rewrite dict_set_same | done].
      * intros y. by apply lookup_total_insert_lt.
    + intros [= <- <-]. exists a, (length (sets σ)). simpl.
      repeat split; rewrite ?length_insert, ?length_app; simpl; auto with lia.
      * by rewrite dict_set_same.
      * intros x. by apply lookup_total_insert_lt.
      * intros y. rewrite lookup_total_insert_lt by (rewrite length_app; simpl; lia).
        by rewrite !lookup_total_snoc_nil.
  - cbn beta zeta iota delta [dicts sets].
    rewrite lookup_total_snoc_nil, (lookup_total_ge_nil (dicts σ)) by lia.
    simpl. intros [= <- <-]. exists (length (dicts σ)), (length (sets σ)). simpl.
    repeat split; rewrite ?length_insert, ?length_app; simpl; auto with lia.
    + right. by rewrite lookup_total_ge_nil.
    + intros x. rewrite lookup_total_insert_lt by (rewrite length_app; simpl; lia).
      by rewrite !lookup_total_snoc_nil, (lookup_total_ge_nil (dicts σ) (length _)) by lia.
    + intros y. rewrite lookup_total_insert_lt by (rewrite length_app; simpl; lia).
      by rewrite !lookup_total_snoc_nil.
Qed.

(** ** [modify] on tables that own what they reach *)

Lemma dict_set_values_elem_of {K} `{EqDecision K} (k : K) (v : nat) (d : list (K * nat)) x :
  dict_get k d = Some v ∨ dict_get k d = None →
  x ∈ (dict_set k v d).*2 ↔ x ∈ d.*2 ∨ x = v.
Proof.
  intros [Hk|Hk].
  - rewrite dict_set_same by done. apply dict_get_Some_values in Hk.
    split; [by left | by intros [?| ->]].
  - rewrite dict_set_absent, fmap_snoc, elem_of_app, list_elem_of_singleton by done. done.
Qed.

Lemma modify_spec g σ tr rest state symbol σ' tr' :
  owned σ (tr ++ rest) →
  modify g σ tr state symbol = (σ', tr') →
  owned σ' (tr' ++ rest) ∧
  read_table σ' tr' = table_modify g (read_table σ tr) state symbol ∧
  preserved rest σ σ' ∧
  length (dicts σ) ≤ length (dicts σ') ∧ length (sets σ) ≤ length (sets σ').
Proof.
  intros [Hnd Hda Hsnd Hsep Hsa] Hmod.
  assert (∀ x, x ∈ tr.*2 → x ∈ (tr ++ rest).*2) as Hin_tr.
  { intros x Hx. rewrite fmap_app. apply elem_of_app. by left. }
  assert (∀ x, x ∈ rest.*2 → x ∈ (tr ++ rest).*2) as Hin_rest.
  { intros x Hx. rewrite fmap_app. apply elem_of_app. by right. }
  apply modify_effect in Hmod as (a & b & Fa & Fb & -> & Hd' & Hs' & Hld & Hla & Hls & Hlb).
  2:{ intros a Ha. by apply Hda, Hin_tr, (dict_get_Some_values state). }
  2:{ intros a b Ha Hb. apply (Hsa a); [by apply Hin_tr, (dict_get_Some_values state)|].
      by apply (dict_get_Some_values symbol). }
  set (d := dicts σ !!! a) in *.
  (* where [a] and [b] come from *)
  assert (a ∈ tr.*2 ∨ a = length (dicts σ) ∧ d = []) as E3.
  { destruct Fa as [Fa|[_ ->]]; [left; by apply (dict_get_Some_values state)|].
    right. split; [done|]. by apply lookup_total_ge_nil. }
  assert (b ∈ d.*2 ∧ a ∈ tr.*2 ∨ b = length (sets σ)) as E4.
  { destruct Fb as [Fb|[_ ->]]; [left|by right].
    split; [by apply (dict_get_Some_values symbol)|].
    destruct E3 as [?|[_ Hd]]; [done|]. by rewrite Hd in Fb. }
  assert (∀ x, x ∈ (tr ++ rest).*2 → x = a → a ∈ tr.*2) as Ea.
  { intros x Hx ->. destruct E3 as [?|[-> _]]; [done|]. apply Hda in Hx. lia. }
  assert (a ∉ rest.*2) as K1.
  { intros Ha. pose proof (Ea a (Hin_rest _ Ha) eq_refl) as Ha'.
    rewrite fmap_app in Hnd. apply NoDup_app in Hnd as (_ & Hnd & _). by apply (Hnd a). }
  assert (∀ x, x ∈ (tr ++ rest).*2 → x ≠ a → b ∉ (dicts σ !!! x).*2) as K2.
  { intros x Hx Hxa Hb. destruct E4 as [[Hbd Ha]| ->].
    - apply Hxa. by apply (Hsep x a b); [| apply Hin_tr | |].
    - apply (Hsa x) in Hb; [lia | done]. }
  assert (NoDup d.*2) as Hdnd.
  { destruct E3 as [Ha|[_ ->]]; [by apply Hsnd, Hin_tr | constructor]. }
  assert (∀ y, y ∈ d.*2 → y < length (sets σ)) as Hdalloc.
  { intros y Hy. destruct E3 as [Ha|[_ Hd]]; [by apply (Hsa a), Hy; apply Hin_tr|].
    rewrite Hd in Hy. by apply elem_of_nil in Hy. }
  assert (∀ x, x ∈ (dict_set state a tr ++ rest).*2 ↔ x ∈ (tr ++ rest).*2 ∨ x = a) as E1.
  { intros x. rewrite !fmap_app, !elem_of_app, dict_set_values_elem_of by tauto.
    tauto. }
  assert (∀ x y, y ∈ (dicts σ' !!! x).*2 ↔ y ∈ (dicts σ !!! x).*2 ∨ x = a ∧ y = b) as E2.
  { intros x y. rewrite Hd'. case_decide as Hx.
    - subst x. fold d. rewrite dict_set_values_elem_of by tauto. tauto.
    - tauto. }
  assert (∀ x, x ∉ (tr ++ rest).*2 → x = a → d = []) as Efresh.
  { intros x Hx ->. destruct E3 as [Ha|[_ ?]]; [|done]. by destruct Hx; apply Hin_tr. }
  assert (∀ x, x ∈ (tr ++ rest).*2 → x ≠ a → read_dict σ' x = read_dict σ x) as Hread.
  { intros x Hx Hxa. unfold read_dict. rewrite Hd', decide_False by done.
    apply fmap_agree. intros y Hy. rewrite Hs', decide_False; [done|].
    intros ->. by apply (K2 x). }
  assert (∀ x y, x ∈ (dict_set state a tr ++ rest).*2 →
            y ∈ (dicts σ !!! x).*2 → x ∈ (tr ++ rest).*2) as Hold.
  { intros x y [Hx| ->]%E1 Hy; [done|].
    destruct E3 as [Ha|[_ Hd]]; [by apply Hin_tr|].
    fold d in Hy. rewrite Hd in Hy. by apply elem_of_nil in Hy. }
  split; [split|split; [|split]].
  - (* no inner dict is held twice *)
    destruct Fa as [Fa|[Fa ->]]; [by rewrite dict_set_same|].
    rewrite dict_set_absent by done. rewrite fmap_app in Hnd.
    rewrite !fmap_app. simpl. apply NoDup_app in Hnd as (Hnd1 & Hnd2 & Hnd3).
    apply NoDup_app. split; [|split; [|done]].
    + apply NoDup_app. split; [done|]. split; [|apply NoDup_singleton].
      intros x Hx ->%list_elem_of_singleton. apply Hin_tr, Hda in Hx. lia.
    + intros x [Hx| ->%list_elem_of_singleton]%elem_of_app; [by apply Hnd2|].
      intros Hx. apply Hin_rest, Hda in Hx. lia.
  - intros x [Hx| ->]%E1; [apply Hda in Hx; lia | done].
  - (* no set is held twice by one inner dict *)
    intros x Hx. rewrite Hd'. case_decide as Hxa.
    + fold d. destruct Fb as [Fb|[Fb ->]]; [by rewrite dict_set_same|].
      rewrite dict_set_absent, fmap_app by done. simpl.
      apply NoDup_app. split; [done|]. split; [|apply NoDup_singleton].
      intros y Hy ->%list_elem_of_singleton. apply Hdalloc in Hy. lia.
    + apply Hsnd. apply E1 in Hx as [?|?]; done.
  - (* nor by two *)
    intros x1 x2 y Hx1 Hx2 [Hy1|[-> ->]]%E2 [Hy2|[-> Hyb]]%E2; try done.
    + by apply (Hsep x1 x2 y); [eapply Hold | eapply Hold | |].
    + subst y. destruct (decide (x1 = a)) as [|Hne]; [done|].
      destruct (K2 x1); [by eapply Hold | done | done].
    + destruct (decide (a = x2)) as [|Hne]; [done|].
      destruct (K2 x2); [by eapply Hold | done | done].
  - intros x y Hx [Hy| [-> ->]]%E2; [|done].
    apply (Hsa x) in Hy; [lia | by eapply Hold].
  - (* the value of the table *)
    unfold read_table, table_modify.
    rewrite (fmap_dict_set (read_dict σ) (read_dict σ')); first last.
    { destruct Fa as [Fa|[Fa ->]]; [by left|right].
      intros Ha. apply Hin_tr, Hda in Ha. lia. }
    { rewrite fmap_app in Hnd. by apply NoDup_app in Hnd as (? & _). }
    { intros x Hx Hxa. apply Hread; [by apply Hin_tr | done]. }
    f_equal. unfold read_dict at 1. rewrite Hd', decide_True by done. fold d.
    rewrite (fmap_dict_set (fun y => sets σ !!! y) (fun y => sets σ' !!! y)); first last.
    { destruct Fb as [Fb|[Fb ->]]; [by left|right].
      intros Hb. apply Hdalloc in Hb. lia. }
    { done. }
    { intros y Hy Hyb. by rewrite Hs', decide_False. }
    rewrite Hs', decide_True by done.
    assert (default [] (dict_get state (prod_map id (read_dict σ) <$> tr)) = read_dict σ a)
      as Hinner.
    { rewrite dict_get_fmap. destruct Fa as [->|[-> ->]]; [done|].
      unfold read_dict. by rewrite lookup_total_ge_nil. }
    assert (dests (prod_map id (read_dict σ) <$> tr) state symbol = sets σ !!! b) as Hdests.
    { unfold dests. rewrite dict_get_fmap.
      assert (dict_get symbol (read_dict σ a) = (fun y => sets σ !!! y) <$> dict_get symbol d)
        as Hget by apply dict_get_fmap.
      destruct Fa as [->|[-> ->]]; simpl.
      - rewrite Hget. destruct Fb as [->|[-> ->]]; simpl; [done|].
        by rewrite lookup_total_ge_nil.
      - destruct E3 as [Ha|[_ Hd]]; [apply Hin_tr, Hda in Ha; lia|].
        destruct Fb as [Fb|[_ ->]]; [by rewrite Hd in Fb|].
        by rewrite lookup_total_ge_nil. }
    by rewrite Hinner, Hdests.
  - (* what the rest reaches is untouched *)
    intros x Hx. assert (x ≠ a) as Hxa by (by intros ->). split.
    + by rewrite Hd', decide_False.
    + intros y Hy. rewrite Hs', decide_False; [done|]. intros ->.
      by apply (K2 x); [apply Hin_rest | |].
  - lia.
Qed.

(** ** Ownership and preservation *)

Lemma NoDup_submseteq_inv {A} (l k : list A) : l ⊆+ k → NoDup k → NoDup l.
Proof.
  intros [k' Hk]%submseteq_Permutation Hnd. rewrite Hk in Hnd.
  by apply NoDup_app in Hnd as (? & _).
Qed.

Lemma owned_submseteq σ entries entries' :
  entries' ⊆+ entries → owned σ entries → owned σ entries'.
Proof.
  intros Hsub [Hnd Hda Hsnd Hsep Hsa].
  assert (entries'.*2 ⊆+ entries.*2) as Hsub2 by (by apply fmap_submseteq).
  assert (∀ a, a ∈ entries'.*2 → a ∈ entries.*2) as Hin.
  { intros a Ha. by eapply elem_of_submseteq. }
  split; eauto using NoDup_submseteq_inv.
Qed.

Lemma owned_empty : owned empty_store [].
Proof.
  split; [constructor | ..]; intros; simpl in *;
    match goal with H : _ ∈ [] |- _ => by apply elem_of_nil in H end.
Qed.

Lemma preserved_refl entries σ : preserved entries σ σ.
Proof. by intros a Ha. Qed.

Lemma preserved_trans entries σ1 σ2 σ3 :
  preserved entries σ1 σ2 → preserved entries σ2 σ3 → preserved entries σ1 σ3.
Proof.
  intros H12 H23 a Ha. destruct (H12 a Ha) as [Hd12 Hs12], (H23 a Ha) as [Hd23 Hs23].
  split; [congruence|]. intros b Hb. rewrite Hs23, Hs12; [done | done |].
  by rewrite Hd12.
Qed.

Lemma preserved_subseteq entries entries' σ σ' :
  (∀ e, e ∈ entries' → e ∈ entries) → preserved entries σ σ' → preserved entries' σ σ'.
Proof.
  intros Hsub Hp a ([s a'] & -> & Ha)%list_elem_of_fmap. apply Hp.
  apply list_elem_of_fmap. exists (s, a'). split; [done | by apply Hsub].
Qed.

Lemma read_dict_preserved entries σ σ' a :
  preserved entries σ σ' → a ∈ entries.*2 → read_dict σ' a = read_dict σ a.
Proof.
  intros Hp Ha. destruct (Hp a Ha) as [Hd Hs]. unfold read_dict. rewrite Hd.
  by apply fmap_agree.
Qed.

Lemma read_table_preserved entries σ σ' :
  preserved entries σ σ' → read_table σ' entries = read_table σ entries.
Proof. intros Hp. apply fmap_agree. intros a Ha. by eapply read_dict_preserved. Qed.

(** ** [add_transition] and the merge loops on tables that own what they reach *)

Lemma add_transition_modify σ nfa from_state symbol to_state :
  add_transition σ nfa from_state symbol to_state =
    (let r := modify (set_add to_state) σ (transitions nfa) from_state symbol in
     (r.1, Build_NFA (start_state nfa) (accept_state nfa) r.2)).
Proof.
  unfold add_transition, modify.
  destruct (ensure_state _ _ _) as [[σ1 tr1] a].
  by destruct (ensure_symbol _ _ _) as [σ2 b].
Qed.

Lemma merge_item_modify state σ tr symbol destinations :
  merge_item state (σ, tr) (symbol, destinations) =
    modify (fun s => set_update s (sets σ !!! destinations)) σ tr state symbol.
Proof.
  unfold merge_item, modify, ensure_state, ensure_symbol. simpl.
  destruct (dict_get state tr) as [a|].
  - destruct (dict_get symbol _) as [b|]; simpl; [done|].
    by rewrite !lookup_total_snoc_nil.
  - destruct (dict_get symbol _) as [b|]; simpl; [done|].
    by rewrite !lookup_total_snoc_nil.
Qed.

Lemma add_transition_spec σ nfa rest tr σ' nfa' :
  owned σ (transitions nfa ++ rest) →
  add_transition σ nfa tr.1.1 tr.1.2 tr.2 = (σ', nfa') →
  owned σ' (transitions nfa' ++ rest) ∧
  table_of σ' nfa' = table_add (table_of σ nfa) tr ∧
  start_state nfa' = start_state nfa ∧ accept_state nfa' = accept_state nfa ∧
  preserved rest σ σ'.
Proof.
  intros Ho. rewrite add_transition_modify.
  destruct (modify _ _ _ _ _) as [σ1 tr1] eqn:Hmod. simpl. intros [= <- <-]. simpl.
  destruct (modify_spec _ _ _ _ _ _ _ _ Ho Hmod) as (? & ? & ? & _). done.
Qed.

Lemma add_transitions_spec rest l : ∀ σ nfa σ' nfa',
  owned σ (transitions nfa ++ rest) →
  add_transitions (σ, nfa) l = (σ', nfa') →
  owned σ' (transitions nfa' ++ rest) ∧
  table_of σ' nfa' = foldl table_add (table_of σ nfa) l ∧
  start_state nfa' = start_state nfa ∧ accept_state nfa' = accept_state nfa ∧
  preserved rest σ σ'.
Proof.
  unfold add_transitions.
  induction l as [|[[f s] t] l IH]; intros σ nfa σ' nfa' Ho; simpl.
  { intros [= <- <-]. eauto using preserved_refl. }
  destruct (add_transition σ nfa f s t) as [σ1 nfa1] eqn:Hadd. simpl. intros Hfold.
  destruct (add_transition_spec σ nfa rest (f, s, t) σ1 nfa1 Ho Hadd)
    as (Ho1 & Ht1 & Hs1 & Ha1 & Hp1).
  destruct (IH _ _ _ _ Ho1 Hfold) as (Ho' & Ht' & Hs' & Ha' & Hp').
  split; [done|]. split; [by rewrite Ht', Ht1|].
  split; [congruence|]. split; [congruence|].
  by eapply preserved_trans.
Qed.

Lemma merge_items_spec state frame items : ∀ σ tr σ' tr',
  owned σ (tr ++ frame) →
  (∀ item, item ∈ items → ∃ a, a ∈ frame.*2 ∧ item.2 ∈ (dicts σ !!! a).*2) →
  foldl (merge_item state) (σ, tr) items = (σ', tr') →
  owned σ' (tr' ++ frame) ∧
  read_table σ' tr' =
    foldl (fun t item => table_modify (fun s => set_update s (sets σ !!! item.2))
                           t state item.1) (read_table σ tr) items ∧
  preserved frame σ σ'.
Proof.
  induction items as [|[symbol dst] items IH]; intros σ tr σ' tr' Ho Hitems; cbn [foldl].
  { intros [= <- <-]. eauto using preserved_refl. }
  rewrite merge_item_modify.
  destruct (modify _ σ tr state symbol) as [σ1 tr1] eqn:Hmod. intros Hfold.
  destruct (modify_spec _ _ _ _ _ _ _ _ Ho Hmod) as (Ho1 & Ht1 & Hp1 & _).
  apply IH in Hfold as (Ho' & Ht' & Hp'); [|done|]; last first.
  { intros item Hitem. destruct (Hitems item) as (a & Ha & Hb); [by right|].
    exists a. split; [done|]. by rewrite (proj1 (Hp1 a Ha)). }
  split; [done|]. split; [|by eapply preserved_trans].
  rewrite Ht', Ht1. simpl. apply foldl_ext_in. intros t [symbol' dst'] Hin. simpl.
  destruct (Hitems (symbol', dst')) as (a & Ha & Hb); [by right|].
  by rewrite (proj2 (Hp1 a Ha) dst' Hb).
Qed.

Lemma merge_states_spec frame l2 : ∀ σ tr σ' tr',
  owned σ (tr ++ frame) →
  (∀ e, e ∈ l2 → e ∈ frame) →
  foldl merge_state (σ, tr) l2 = (σ', tr') →
  owned σ' (tr' ++ frame) ∧
  read_table σ' tr' = table_merge (read_table σ tr) (read_table σ l2) ∧
  preserved frame σ σ'.
Proof.
  induction l2 as [|[state a2] l2 IH]; intros σ tr σ' tr' Ho Hsub; cbn [foldl].
  { intros [= <- <-]. eauto using preserved_refl. }
  change (merge_state (σ, tr) (state, a2))
    with (foldl (merge_item state) (σ, tr) (dicts σ !!! a2)).
  destruct (foldl (merge_item state) _ _) as [σ1 tr1] eqn:Hitems. intros Hfold.
  apply merge_items_spec with (frame := frame) in Hitems as (Ho1 & Ht1 & Hp1); [|done|].
  2:{ intros item Hitem. exists a2. split.
      - apply list_elem_of_fmap. exists (state, a2). split; [done|]. apply Hsub. by left.
      - by apply list_elem_of_fmap_2. }
  apply IH in Hfold as (Ho' & Ht' & Hp'); [|done|intros; apply Hsub; by right].
  split; [done|]. split; [|by eapply preserved_trans].
  rewrite Ht', Ht1.
  rewrite (read_table_preserved l2 σ σ1).
  2:{ eapply preserved_subseteq; [|done]. intros; apply Hsub; by right. }
  unfold table_merge. simpl. f_equal.
  unfold table_merge_state, read_dict. simpl. by rewrite foldl_fmap.
Qed.

Lemma merge_spec σ nfa nfa2 rest σ' nfa' :
  owned σ (transitions nfa ++ transitions nfa2 ++ rest) →
  merge σ nfa nfa2 = (σ', nfa') →
  owned σ' (transitions nfa' ++ transitions nfa2 ++ rest) ∧
  table_of σ' nfa' = table_merge (table_of σ nfa) (table_of σ nfa2) ∧
  start_state nfa' = start_state nfa ∧ accept_state nfa' = accept_state nfa ∧
  preserved (transitions nfa2 ++ rest) σ σ'.
Proof.
  intros Ho. unfold merge.
  destruct (foldl merge_state _ _) as [σ1 tr1] eqn:Hfold. intros [= <- <-]. simpl.
  apply merge_states_spec with (frame := transitions nfa2 ++ rest) in Hfold
    as (? & ? & ?); [done | done |].
  intros e He. apply elem_of_app. by left.
Qed.

(** ** The evaluator computes on values *)

Lemma fragments_preserved stk σ σ' :
  preserved (stk ≫= transitions) σ σ' → fragment_of σ' <$> stk = fragment_of σ <$> stk.
Proof.
  induction stk as [|nfa stk IH]; intros Hp; [done|].
  rewrite bind_cons in Hp. rewrite !fmap_cons. f_equal.
  - unfold fragment_of, table_of. f_equal. apply read_table_preserved.
    eapply preserved_subseteq; [|done]. intros e He. apply elem_of_app. by left.
  - apply IH. eapply preserved_subseteq; [|done]. intros e He. apply elem_of_app. by right.
Qed.

Lemma unary_spec σ start accept nfa1 stk l σ' nfa :
  owned σ ((nfa1 :: stk) ≫= transitions) →
  add_transitions (σ, Build_NFA start accept (transitions nfa1)) l = (σ', nfa) →
  owned σ' ((nfa :: stk) ≫= transitions) ∧
  fragment_of σ' nfa = Fragment start accept (foldl table_add (table_of σ nfa1) l) ∧
  fragment_of σ' <$> stk = fragment_of σ <$> stk.
Proof.
  rewrite !bind_cons. intros Ho Hadd.
  apply add_transitions_spec with (rest := stk ≫= transitions) in Hadd
    as (Ho' & Ht' & Hs' & Ha' & Hp'); [|done].
  split; [done|]. split; [|by apply fragments_preserved].
  unfold fragment_of. by rewrite Ht', Hs', Ha'.
Qed.

Lemma binary_spec σ start accept nfa1 nfa2 stk l σ1 nfa_m σ' nfa :
  owned σ ((nfa2 :: nfa1 :: stk) ≫= transitions) →
  merge σ (Build_NFA start accept (transitions nfa1)) nfa2 = (σ1, nfa_m) →
  add_transitions (σ1, nfa_m) l = (σ', nfa) →
  owned σ' ((nfa :: stk) ≫= transitions) ∧
  fragment_of σ' nfa =
    Fragment start accept
      (foldl table_add (table_merge (table_of σ nfa1) (table_of σ nfa2)) l) ∧
  fragment_of σ' <$> stk = fragment_of σ <$> stk.
Proof.
  rewrite !bind_cons. intros Ho Hmerge Hadd.
  set (rest := stk ≫= transitions) in *.
  assert (owned σ (transitions nfa1 ++ transitions nfa2 ++ rest)) as Ho1.
  { eapply owned_submseteq; [|done]. apply Permutation_submseteq.
    rewrite !app_assoc. f_equiv. apply Permutation_app_comm. }
  apply merge_spec with (rest := rest) in Hmerge as (Hom & Htm & Hsm & Ham & Hpm); [|done].
  apply add_transitions_spec with (rest := transitions nfa2 ++ rest) in Hadd
    as (Ho' & Ht' & Hs' & Ha' & Hp'); [|done].
  split; [|split].
  - eapply owned_submseteq; [|done]. apply submseteq_skips_l, submseteq_inserts_l. done.
  - unfold fragment_of. rewrite Ht', Hs', Ha', Htm, Hsm, Ham. done.
  - apply fragments_preserved. eapply preserved_subseteq.
    2:{ eapply preserved_trans; done. }
    intros e He. apply elem_of_app. by right.
Qed.

Ltac step_unary Ho :=
  match goal with
  | |- context [pop ?s] => destruct s as [|? ?]; [done|]
  end;
  rewrite fmap_cons; cbn [pop pop_fragment mbind result_bind];
  match goal with
  | |- context [let '(_, _) := ?p in _] =>
      let Hrun := fresh "Hrun" in
      destruct p as [? ?] eqn:Hrun;
      eapply unary_spec in Hrun as (? & ? & ?); [|exact Ho]
  end;
  cbn [heap next_state_id stack]; split; [assumption|];
  rewrite fmap_cons;
  match goal with
  | H0 : fragment_of _ _ = _, H1 : fragment_of _ <$> _ = _ |- _ => by rewrite H0, H1
  end.

Ltac step_binary Ho :=
  match goal with
  | |- context [pop ?s] => destruct s as [|? [|? ?]]; [done..|]
  end;
  rewrite !fmap_cons; cbn [pop pop_fragment mbind result_bind];
  match goal with
  | |- context [merge ?σ ?nfa ?nfa2] =>
      let Hmerge := fresh "Hmerge" in
      destruct (merge σ nfa nfa2) as [? ?] eqn:Hmerge;
      match goal with
      | |- context [let '(_, _) := ?p in _] =>
          let Hrun := fresh "Hrun" in
          destruct p as [? ?] eqn:Hrun;
          eapply binary_spec in Hrun as (? & ? & ?); [|exact Ho|exact Hmerge]
      end
  end;
  cbn [heap next_state_id stack]; split; [assumption|];
  rewrite fmap_cons;
  match goal with
  | H0 : fragment_of _ _ = _, H1 : fragment_of _ <$> _ = _ |- _ => by rewrite H0, H1
  end.

Lemma step_simulation st c :
  separated st →
  match step st c with
  | Ok st' => separated st' ∧ value_step (values_of st) c = Ok (values_of st')
  | Raise e => value_step (values_of st) c = Raise e
  end.
Proof.
  destruct st as [σ n stk]. unfold separated, values_of, step, value_step.
  cbn [heap next_state_id stack]. intros Ho.
  destruct (decide (c ∉ operators)) as [Hc|Hc].
  { destruct (add_transition σ _ n c (n + 1)) as [σ' nfa] eqn:Hrun.
    apply (add_transition_spec σ _ (stk ≫= transitions) (n, c, n + 1)) in Hrun
      as (Ho' & Ht' & Hs' & Ha' & Hp'); [|done].
    cbn [heap next_state_id stack]. split; [done|].
    rewrite fmap_cons. f_equal. f_equal. f_equal.
    - unfold fragment_of. by rewrite Ht', Hs', Ha'.
    - symmetry. by apply fragments_preserved. }
  destruct (decide (c = STAR)); [step_unary Ho|].
  destruct (decide (c = PLUS)); [step_unary Ho|].
  destruct (decide (c = OPT)); [step_unary Ho|].
  destruct (decide (c = DOT)); [step_binary Ho|].
  destruct (decide (c = ALT)); [step_binary Ho|].
  done.
Qed.

Lemma eval_simulation postfix : ∀ st,
  separated st →
  match eval postfix st with
  | Ok st' => separated st' ∧ value_eval postfix (values_of st) = Ok (values_of st')
  | Raise e => value_eval postfix (values_of st) = Raise e
  end.
Proof.
  induction postfix as [|c postfix IH]; intros st Hsep; cbn [eval value_eval]; [done|].
  pose proof (step_simulation st c Hsep) as Hstep.
  destruct (step st c) as [st1|e]; cbn [mbind result_bind].
  - destruct Hstep as [Hsep1 ->]. cbn [mbind result_bind]. by apply IH.
  - by rewrite Hstep.
Qed.

Lemma separated_initial : separated initial.
Proof. apply owned_empty. Qed.

Lemma eval_separated postfix st : eval postfix initial = Ok st → separated st.
Proof.
  intros Heval. pose proof (eval_simulation postfix initial separated_initial) as H.
  rewrite Heval in H. by destruct H.
Qed.

Lemma eval_values postfix st :
  eval postfix initial = Ok st → value_eval postfix (0, []) = Ok (values_of st).
Proof.
  intros Heval. pose proof (eval_simulation postfix initial separated_initial) as H.
  rewrite Heval in H. by destruct H.
Qed.

(** ** Sharing between fragments *)

Lemma lookup_two_Permutation {A} (l : list A) i j x y :
  i ≠ j → l !! i = Some x → l !! j = Some y → ∃ k, l ≡ₚ x :: y :: k.
Proof.
  intros Hij Hi Hj. exists (delete (if decide (j < i) then j else j - 1) (delete i l)).
  etrans; [apply (delete_Permutation l i x Hi)|]. apply Permutation_skip.
  apply delete_Permutation. case_decide.
  - by rewrite list_lookup_delete_lt.
  - rewrite list_lookup_delete_ge by lia. by replace (S (j - 1)) with j by lia.
Qed.

(** The fragment that an operator makes is not separated from its operand:
    after ["a"] and then ['*'], the table of the new fragment holds the
    inner dict (and with it the set) of the popped fragment, and an
    [add_transition] on the new one changes the table of the popped one. *)
Lemma star_shares_with_operand :
  ∃ st1 nfa1 st2 nfa,
    eval (str "a") initial = Ok st1 ∧ stack st1 = [nfa1] ∧
    step st1 STAR = Ok st2 ∧ stack st2 = [nfa] ∧
    (∃ a, a ∈ dict_addrs nfa1 ∧ a ∈ dict_addrs nfa) ∧
    (∃ b, b ∈ set_addrs (heap st2) nfa1 ∧ b ∈ set_addrs (heap st2) nfa) ∧
    table_of (add_transition (heap st2) nfa 0 (chr "b") 7).1 nfa1 ≠
      table_of (heap st2) nfa1.
Proof.
  do 4 eexists. split; [vm_compute; reflexivity|]. split; [reflexivity|].
  split; [vm_compute; reflexivity|]. split; [reflexivity|].
  split; [exists 0; split; apply (bool_decide_unpack _); exact I|].
  split; [exists 0; split; apply (bool_decide_unpack _); exact I|].
  vm_compute. discriminate.
Qed.

(** At every point of the construction, two distinct fragments on the
    stack of the evaluator hold no inner dict and no destination set in
    common, and an [add_transition] on one of them leaves the table of the
    other as it is: the shallow copies of lines 185, 206, 226, 242 and 265
    share inner dicts with popped fragments only. *)
Theorem stack_fragments_separated postfix st i j nfa_i nfa_j :
  eval postfix initial = Ok st →
  stack st !! i = Some nfa_i → stack st !! j = Some nfa_j → i ≠ j →
  (∀ a, a ∈ dict_addrs nfa_i → a ∉ dict_addrs nfa_j) ∧
  (∀ b, b ∈ set_addrs (heap st) nfa_i → b ∉ set_addrs (heap st) nfa_j) ∧
  (∀ from_state symbol to_state,
     table_of (add_transition (heap st) nfa_i from_state symbol to_state).1 nfa_j =
       table_of (heap st) nfa_j).
Proof.
  intros Heval Hi Hj Hij. apply eval_separated in Heval. unfold separated in Heval.
  destruct (lookup_two_Permutation _ i j _ _ Hij Hi Hj) as [stk Hperm].
  set (rest := stk ≫= transitions).
  assert (owned (heap st) (transitions nfa_i ++ transitions nfa_j ++ rest)) as Ho.
  { eapply owned_submseteq; [|done]. apply Permutation_submseteq.
    by rewrite Hperm, !bind_cons. }
  clear Heval. destruct Ho as [Hnd Hda Hsnd Hsep Hsa] eqn:Ho'. clear Ho'.
  unfold dict_addrs, set_addrs.
  rewrite !fmap_app in Hnd. apply NoDup_app in Hnd as (_ & Hdisj & _).
  assert (∀ a, a ∈ (transitions nfa_i).*2 → a ∉ (transitions nfa_j).*2) as Hdicts.
  { intros a Ha Ha'. apply (Hdisj a Ha), elem_of_app. by left. }
  split; [done|]. split.
  - intros b (a1 & Hb1 & Ha1)%list_elem_of_bind (a2 & Hb2 & Ha2)%list_elem_of_bind.
    apply (Hdicts a1 Ha1). replace a1 with a2; [done|].
    apply (Hsep a2 a1 b); rewrite ?fmap_app, ?elem_of_app; auto.
  - intros f s t.
    destruct (add_transition _ nfa_i f s t) as [σ' nfa'] eqn:Hadd.
    apply (add_transition_spec _ _ (transitions nfa_j ++ rest) (f, s, t)) in Hadd
      as (_ & _ & _ & _ & Hp); [|done].
    simpl. unfold table_of. apply read_table_preserved.
    eapply preserved_subseteq; [|done]. intros e He. apply elem_of_app. by left.
Qed.

Lemma stack_fragments_separated_witness :
  ∃ st nfa_i nfa_j,
    eval (str "ab") initial = Ok st ∧
    stack st !! 0 = Some nfa_i ∧ stack st !! 1 = Some nfa_j ∧
    (∀ a, a ∈ dict_addrs nfa_i → a ∉ dict_addrs nfa_j) ∧
    (∀ b, b ∈ set_addrs (heap st) nfa_i → b ∉ set_addrs (heap st) nfa_j) ∧
    (∀ from_state symbol to_state,
       table_of (add_transition (heap st) nfa_i from_state symbol to_state).1 nfa_j =
         table_of (heap st) nfa_j).
Proof.
  do 3 eexists. split; [vm_compute; reflexivity|]. split; [reflexivity|].
  split; [reflexivity|].
  eapply (stack_fragments_separated (str "ab") _ 0 1);
    [vm_compute; reflexivity | reflexivity | reflexivity | lia].
Defined.

(** ** Transitions of a table after [table_add] *)

Lemma elem_of_set_add x y s : y ∈ set_add x s ↔ y ∈ s ∨ y = x.
Proof.
  unfold set_add. case_decide.
  - split; [by left | by intros [?| ->]].
  - by rewrite elem_of_app, list_elem_of_singleton.
Qed.

Lemma dests_table_modify g t state symbol state' symbol' :
  dests (table_modify g t state symbol) state' symbol' =
    if decide (state' = state ∧ symbol' = symbol) then g (dests t state symbol)
    else dests t state' symbol'.
Proof.
  unfold dests, table_modify. rewrite dict_get_set.
  destruct (decide (state' = state)) as [->|Hs]; simpl.
  - rewrite dict_get_set. destruct (decide (symbol' = symbol)) as [->|Hl]; simpl.
    + by rewrite decide_True.
    + rewrite decide_False by tauto. by destruct (dict_get state t).
  - by rewrite decide_False by tauto.
Qed.

Lemma elem_of_dests_table_add t tr s l d :
  d ∈ dests (table_add t tr) s l ↔ d ∈ dests t s l ∨ (s, l, d) = tr.
Proof.
  destruct tr as [[f sym] x]. unfold table_add. simpl. rewrite dests_table_modify.
  case_decide as Heq.
  - destruct Heq as [-> ->]. rewrite elem_of_set_add.
    split; (intros [?|?]; [by left | right; congruence]).
  - split; [by left|]. intros [?|[= -> -> ->]]; [done | tauto].
Qed.

Lemma elem_of_dests_table_adds l : ∀ t s lbl d,
  d ∈ dests (foldl table_add t l) s lbl ↔ d ∈ dests t s lbl ∨ (s, lbl, d) ∈ l.
Proof.
  induction l as [|tr l IH]; intros t s lbl d; simpl.
  - rewrite elem_of_nil. tauto.
  - rewrite IH, elem_of_dests_table_add, elem_of_cons. tauto.
Qed.

(** ** Well-formed tables *)

Section dict_set_facts.
Context {K V : Type} `{EqDecision K}.
Implicit Types (k : K) (v : V) (d : list (K * V)).

Lemma dict_set_keys k v d :
  (dict_set k v d).*1 = match dict_get k d with Some _ => d.*1 | None => d.*1 ++ [k] end.
Proof.
  induction d as [|[k1 v1] d IH]; [done|].
  cbn [dict_set dict_get]. case_decide; [by subst|].
  rewrite !fmap_cons, IH. by destruct (dict_get k d).
Qed.

Lemma dict_set_keys_NoDup k v d : NoDup d.*1 → NoDup (dict_set k v d).*1.
Proof.
  intros Hnd. rewrite dict_set_keys. destruct (dict_get k d) eqn:Hk; [done|].
  apply NoDup_app. split; [done|]. split; [|apply NoDup_singleton].
  intros x Hx ->%list_elem_of_singleton. by apply dict_get_None in Hk.
Qed.

Lemma dict_set_keys_Forall (Q : K → Prop) k v d :
  Forall Q d.*1 → Q k → Forall Q (dict_set k v d).*1.
Proof.
  intros Hd Hk. rewrite dict_set_keys. destruct (dict_get k d); [done|].
  apply Forall_app. split; [done | by constructor].
Qed.

Lemma dict_set_values_Forall (P : V → Prop) k v d :
  Forall P d.*2 → P v → Forall P (dict_set k v d).*2.
Proof.
  intros Hd Hv. induction d as [|[k1 v1] d IH]; [by constructor|].
  rewrite fmap_cons in Hd. apply Forall_cons in Hd as [H1 Hd].
  cbn [dict_set]. case_decide; rewrite fmap_cons; constructor; auto.
Qed.

Lemma dict_get_Forall (P : V → Prop) k v d : dict_get k d = Some v → Forall P d.*2 → P v.
Proof.
  intros Hk%dict_get_Some_values Hd. rewrite Forall_forall in Hd. by apply Hd.
Qed.

Lemma dict_set_not_nil k v d : dict_set k v d ≠ [].
Proof. destruct d as [|[k1 v1] d]; [done|]. cbn [dict_set]. by case_decide. Qed.

Lemma dict_set_app_absent k v d1 d2 :
  dict_get k d1 = None → dict_set k v (d1 ++ d2) = d1 ++ dict_set k v d2.
Proof.
  induction d1 as [|[k1 v1] d1 IH]; [done|]. cbn [dict_get]. case_decide; [done|].
  intros Hk. rewrite <- !app_comm_cons. cbn [dict_set]. rewrite decide_False by done.
  by rewrite IH.
Qed.
End dict_set_facts.

Lemma set_add_NoDup x s : NoDup s → NoDup (set_add x s).
Proof.
  intros Hs. unfold set_add. case_decide; [done|].
  apply NoDup_app. split; [done|]. split; [|apply NoDup_singleton].
  by intros y Hy ->%list_elem_of_singleton.
Qed.

Lemma set_add_ok lo hi x s : set_ok lo hi s → in_range lo hi x → set_ok lo hi (set_add x s).
Proof.
  intros [Hnd Hr] Hx. split; [by apply set_add_NoDup|].
  unfold set_add. case_decide; [done|]. apply Forall_app. split; [done | by constructor].
Qed.

Lemma set_update_app s other : NoDup (s ++ other) → set_update s other = s ++ other.
Proof.
  unfold set_update. revert s.
  induction other as [|x other IH]; intros s Hnd; simpl; [by rewrite app_nil_r|].
  assert (set_add x s = s ++ [x]) as ->.
  { unfold set_add. rewrite decide_False; [done|].
    apply NoDup_app in Hnd as (_ & Hnd & _). intros Hx. apply (Hnd x Hx). by left. }
  rewrite IH; rewrite <- app_assoc; done.
Qed.

Lemma table_ok_weaken lo hi lo' hi' t :
  lo' ≤ lo → hi ≤ hi' → table_ok lo hi t → table_ok lo' hi' t.
Proof.
  intros Hlo Hhi (Hnd & Hkeys & Hinner).
  assert (∀ s, in_range lo hi s → in_range lo' hi' s) as Hr.
  { unfold in_range. lia. }
  split; [done|]. split; [by eapply Forall_impl|].
  eapply Forall_impl; [done|]. intros inner (Hne & Hnd' & Hsets).
  split; [done|]. split; [done|]. eapply Forall_impl; [done|].
  intros ds [Hds Hrange]. split; [done|]. by eapply Forall_impl.
Qed.

Lemma fragment_ok_weaken lo hi lo' hi' f :
  lo' ≤ lo → hi ≤ hi' → fragment_ok lo hi f → fragment_ok lo' hi' f.
Proof.
  intros Hlo Hhi (Hs & Ha & Ht). unfold in_range in *.
  split; [unfold in_range; lia|]. split; [unfold in_range; lia|].
  by eapply table_ok_weaken.
Qed.

Lemma stack_ok_weaken n n' stk : n ≤ n' → stack_ok n stk → stack_ok n' stk.
Proof.
  intros Hn Hstk. destruct Hstk as [|lo hi f stk Hf Hstk]; [constructor|].
  apply (stack_ok_cons lo); [|done]. by eapply fragment_ok_weaken.
Qed.

Lemma fragment_ok_le lo hi f : fragment_ok lo hi f → lo < hi.
Proof. intros (Hs & _). unfold in_range in Hs. lia. Qed.

Lemma table_modify_ok g lo hi t state symbol :
  table_ok lo hi t → in_range lo hi state →
  (∀ s, set_ok lo hi s → set_ok lo hi (g s)) →
  table_ok lo hi (table_modify g t state symbol).
Proof.
  intros (Hnd & Hkeys & Hinner) Hstate Hg. unfold table_modify.
  set (inner := default [] (dict_get state t)).
  assert (NoDup inner.*1 ∧ Forall (set_ok lo hi) inner.*2) as [Hind Hins].
  { unfold inner. destruct (dict_get state t) as [i|] eqn:Hget; simpl.
    - by destruct (dict_get_Forall _ _ _ _ Hget Hinner) as (_ & ? & ?).
    - split; constructor. }
  assert (set_ok lo hi (dests t state symbol)) as Hdests.
  { unfold dests. fold inner.
    assert ((inner ← dict_get state t; dict_get symbol inner) = dict_get symbol inner) as ->.
    { unfold inner. by destruct (dict_get state t). }
    destruct (dict_get symbol inner) as [ds|] eqn:Hget; simpl.
    - by eapply dict_get_Forall.
    - split; constructor. }
  split; [by apply dict_set_keys_NoDup|]. split; [by apply dict_set_keys_Forall|].
  apply dict_set_values_Forall; [done|].
  split; [apply dict_set_not_nil|]. split; [by apply dict_set_keys_NoDup|].
  apply dict_set_values_Forall; auto.
Qed.

Lemma table_add_ok lo hi t tr :
  table_ok lo hi t → in_range lo hi tr.1.1 → in_range lo hi tr.2 →
  table_ok lo hi (table_add t tr).
Proof.
  intros Ht Hf Hx. apply table_modify_ok; [done | done |].
  intros s Hs. by apply set_add_ok.
Qed.

Lemma table_adds_ok lo hi l : ∀ t,
  table_ok lo hi t → Forall (fun tr => in_range lo hi tr.1.1 ∧ in_range lo hi tr.2) l →
  table_ok lo hi (foldl table_add t l).
Proof.
  induction l as [|tr l IH]; intros t Ht Hl; simpl; [done|].
  apply Forall_cons in Hl as [[Hf Hx] Hl]. apply IH; [|done]. by apply table_add_ok.
Qed.

Lemma table_ok_nil lo hi : table_ok lo hi [].
Proof. repeat split; constructor. Qed.

(** ** Merging a table with disjoint states appends it *)

Lemma table_merge_items_app t state : ∀ items pre,
  dict_get state t = None →
  NoDup (pre ++ items).*1 → Forall (NoDup (A:=nat)) items.*2 →
  foldl (fun t item => table_modify (fun s => set_update s item.2) t state item.1)
    (t ++ [(state, pre)]) items = t ++ [(state, pre ++ items)].
Proof.
  induction items as [|[symbol ds] items IH]; intros pre Hstate Hnd Hsets; simpl.
  { by rewrite app_nil_r. }
  rewrite fmap_cons in Hsets. apply Forall_cons in Hsets as [Hds Hsets].
  assert (dict_get symbol pre = None) as Hsymbol.
  { apply dict_get_None. rewrite fmap_app in Hnd.
    apply NoDup_app in Hnd as (_ & Hnd & _). intros Hin. apply (Hnd _ Hin). by left. }
  assert (table_modify (fun s => set_update s ds) (t ++ [(state, pre)]) state symbol =
          t ++ [(state, pre ++ [(symbol, ds)])]) as ->.
  { unfold table_modify, dests. rewrite dict_get_app, Hstate. simpl.
    rewrite decide_True by done. simpl. rewrite Hsymbol. simpl.
    rewrite dict_set_app_absent by done. simpl. rewrite decide_True by done.
    rewrite dict_set_absent by done. by rewrite set_update_app. }
  rewrite IH; [by rewrite <- app_assoc | done | by rewrite <- app_assoc | done].
Qed.

Lemma table_merge_state_app t state inner :
  dict_get state t = None → inner ≠ [] → NoDup inner.*1 → Forall (NoDup (A:=nat)) inner.*2 →
  table_merge_state t (state, inner) = t ++ [(state, inner)].
Proof.
  intros Hstate Hne Hnd Hsets. destruct inner as [|[symbol ds] items]; [done|].
  unfold table_merge_state. simpl.
  rewrite fmap_cons in Hsets. apply Forall_cons in Hsets as [Hds Hsets].
  assert (table_modify (fun s => set_update s ds) t state symbol =
          t ++ [(state, [(symbol, ds)])]) as ->.
  { unfold table_modify, dests. rewrite Hstate. simpl.
    rewrite dict_set_absent by done. by rewrite set_update_app. }
  by apply (table_merge_items_app t state items [(symbol, ds)]).
Qed.

Lemma table_merge_app t2 : ∀ t,
  NoDup t2.*1 → (∀ s, s ∈ t2.*1 → s ∉ t.*1) →
  Forall (fun inner => inner ≠ [] ∧ NoDup inner.*1 ∧ Forall (NoDup (A:=nat)) inner.*2) t2.*2 →
  table_merge t t2 = t ++ t2.
Proof.
  induction t2 as [|[state inner] t2 IH]; intros t Hnd Hdisj Hinner.
  { by rewrite app_nil_r. }
  rewrite fmap_cons in Hnd. rewrite fmap_cons in Hinner.
  apply NoDup_cons in Hnd as [Hstate Hnd].
  apply Forall_cons in Hinner as [(Hne & Hind & Hsets) Hinner].
  unfold table_merge. cbn [foldl]. fold (table_merge (table_merge_state t (state, inner)) t2).
  rewrite table_merge_state_app; [| |done..].
  2:{ apply dict_get_None, Hdisj. rewrite fmap_cons. by left. }
  rewrite IH; [by rewrite <- app_assoc | done | | done].
  intros s Hs. rewrite fmap_app. simpl. rewrite not_elem_of_app. split.
  - apply Hdisj. rewrite fmap_cons. by right.
  - intros ->%list_elem_of_singleton. done.
Qed.

Lemma table_merge_ok lo mid hi t1 t2 :
  lo ≤ mid → mid ≤ hi →
  table_ok lo mid t1 → table_ok mid hi t2 →
  table_merge t1 t2 = t1 ++ t2 ∧ table_ok lo hi (t1 ++ t2).
Proof.
  intros Hlo Hhi Ht1 Ht2.
  assert (∀ s, s ∈ t2.*1 → s ∉ t1.*1) as Hdisj.
  { destruct Ht1 as (_ & Hk1 & _), Ht2 as (_ & Hk2 & _).
    intros s Hs2 Hs1. rewrite Forall_forall in Hk1, Hk2.
    apply Hk1 in Hs1. apply Hk2 in Hs2. unfold in_range in *. lia. }
  split.
  - destruct Ht2 as (Hnd2 & Hk2 & Hi2).
    apply table_merge_app; [done | done |].
    eapply Forall_impl; [done|]. intros inner (? & ? & Hsets).
    split; [done|]. split; [done|]. eapply Forall_impl; [done|]. by intros ds [? _].
  - apply (table_ok_weaken lo mid lo hi) in Ht1; [|lia..].
    apply (table_ok_weaken mid hi lo hi) in Ht2; [|lia..].
    destruct Ht1 as (Hnd1 & Hk1 & Hi1), Ht2 as (Hnd2 & Hk2 & Hi2).
    unfold table_ok. rewrite !fmap_app. split; [|split; by apply Forall_app].
    apply NoDup_app. split; [done|]. split; [|done].
    intros s Hs1 Hs2. by apply (Hdisj s).
Qed.

(** ** Counting the transitions that are not epsilon moves *)

Lemma triples_app t1 t2 : triples (t1 ++ t2) = triples t1 ++ triples t2.
Proof. unfold triples. by rewrite bind_app. Qed.

Lemma count_non_epsilon_app t1 t2 :
  count_non_epsilon (t1 ++ t2) = count_non_epsilon t1 + count_non_epsilon t2.
Proof.
  unfold count_non_epsilon. by rewrite triples_app, filter_app, length_app.
Qed.

Lemma filter_epsilon_set s (ds : list nat) :
  filter (fun x : nat * char * nat => x.1.2 ≠ EPSILON) (d ← ds; [(s, EPSILON, d)]) = [].
Proof.
  induction ds as [|d ds IH]; [done|]. rewrite bind_cons, filter_app, IH.
  by rewrite filter_cons_False by (simpl; tauto).
Qed.

Lemma filter_dict_set_epsilon s v (inner : list (char * list nat)) :
  filter (fun x : nat * char * nat => x.1.2 ≠ EPSILON)
    ('(l, ds) ← dict_set EPSILON v inner; d ← ds; [(s, l, d)]) =
  filter (fun x : nat * char * nat => x.1.2 ≠ EPSILON)
    ('(l, ds) ← inner; d ← ds; [(s, l, d)]).
Proof.
  induction inner as [|[l ds] inner IH].
  - simpl. rewrite app_nil_r. apply filter_epsilon_set.
  - cbn [dict_set]. case_decide as Hl.
    + subst l. rewrite !bind_cons, !filter_app, !filter_epsilon_set. done.
    + rewrite !bind_cons, !filter_app, IH. done.
Qed.

Lemma filter_triples_dict_set state inner' (t : table) :
  filter (fun x : nat * char * nat => x.1.2 ≠ EPSILON)
    ('(l, ds) ← inner'; d ← ds; [(state, l, d)]) =
  filter (fun x : nat * char * nat => x.1.2 ≠ EPSILON)
    ('(l, ds) ← default [] (dict_get state t); d ← ds; [(state, l, d)]) →
  filter (fun x : nat * char * nat => x.1.2 ≠ EPSILON) (triples (dict_set state inner' t)) =
  filter (fun x : nat * char * nat => x.1.2 ≠ EPSILON) (triples t).
Proof.
  intros Hinner. unfold triples. induction t as [|[s inner] t IH].
  - simpl in *. by rewrite app_nil_r, Hinner.
  - cbn [dict_set dict_get] in *. case_decide as Hs.
    + subst s. simpl in Hinner. rewrite !bind_cons, !filter_app. by rewrite Hinner.
    + rewrite !bind_cons, !filter_app, IH; done.
Qed.

Lemma count_non_epsilon_modify g t state :
  count_non_epsilon (table_modify g t state EPSILON) = count_non_epsilon t.
Proof.
  unfold count_non_epsilon, table_modify. f_equal.
  apply filter_triples_dict_set, filter_dict_set_epsilon.
Qed.

Lemma count_non_epsilon_adds l : ∀ t,
  Forall (fun tr : nat * char * nat => tr.1.2 = EPSILON) l →
  count_non_epsilon (foldl table_add t l) = count_non_epsilon t.
Proof.
  induction l as [|[[f s] x] l IH]; intros t Hl; simpl; [done|].
  apply Forall_cons in Hl as [Hs Hl]. simpl in Hs. subst s.
  rewrite IH by done. apply count_non_epsilon_modify.
Qed.

Lemma table_add_nil tr : table_add [] tr = [(tr.1.1, [(tr.1.2, [tr.2])])].
Proof. done. Qed.

Lemma count_non_epsilon_literal (n : nat) c (m : nat) :
  count_non_epsilon [(n, [(c, [m])])] = if decide (c = EPSILON) then 0 else 1.
Proof.
  unfold count_non_epsilon, triples. simpl.
  case_decide.
  - by rewrite filter_cons_False by (simpl; tauto).
  - by rewrite filter_cons_True.
Qed.

(** ** The invariant of the evaluator on values *)

Ltac range := unfold in_range in *; simpl in *; lia.

Lemma total_non_epsilon_cons f stk :
  total_non_epsilon (f :: stk) = count_non_epsilon (frag_table f) + total_non_epsilon stk.
Proof. done. Qed.

Lemma unary_ok lo n f1 l :
  fragment_ok lo n f1 →
  Forall (fun tr : nat * char * nat =>
            in_range lo (n + 2) tr.1.1 ∧ in_range lo (n + 2) tr.2 ∧ tr.1.2 = EPSILON) l →
  fragment_ok lo (n + 2) (Fragment n (n + 1) (foldl table_add (frag_table f1) l)) ∧
  count_non_epsilon (foldl table_add (frag_table f1) l) = count_non_epsilon (frag_table f1).
Proof.
  intros Hf1 Hl. pose proof (fragment_ok_le _ _ _ Hf1) as Hlt.
  destruct Hf1 as (Hs & Ha & Ht). split.
  - split; [range|]. split; [range|]. simpl. apply table_adds_ok.
    + eapply table_ok_weaken; [| |done]; lia.
    + eapply Forall_impl; [done|]. simpl. tauto.
  - apply count_non_epsilon_adds. eapply Forall_impl; [done|]. simpl. tauto.
Qed.

Lemma binary_ok lo mid n n' start accept f1 f2 l :
  n ≤ n' →
  fragment_ok lo mid f1 → fragment_ok mid n f2 →
  in_range lo n' start → in_range lo n' accept →
  Forall (fun tr : nat * char * nat =>
            in_range lo n' tr.1.1 ∧ in_range lo n' tr.2 ∧ tr.1.2 = EPSILON) l →
  fragment_ok lo n'
    (Fragment start accept (foldl table_add (table_merge (frag_table f1) (frag_table f2)) l)) ∧
  count_non_epsilon (foldl table_add (table_merge (frag_table f1) (frag_table f2)) l) =
    count_non_epsilon (frag_table f1) + count_non_epsilon (frag_table f2).
Proof.
  intros Hn Hf1 Hf2 Hstart Haccept Hl.
  pose proof (fragment_ok_le _ _ _ Hf1) as Hlt1.
  pose proof (fragment_ok_le _ _ _ Hf2) as Hlt2.
  destruct Hf1 as (Hs1 & Ha1 & Ht1), Hf2 as (Hs2 & Ha2 & Ht2).
  destruct (table_merge_ok lo mid n _ _ ltac:(lia) ltac:(lia) Ht1 Ht2) as [-> Hok].
  split.
  - split; [done|]. split; [done|]. simpl. apply table_adds_ok.
    + eapply table_ok_weaken; [| |done]; lia.
    + eapply Forall_impl; [done|]. simpl. tauto.
  - rewrite count_non_epsilon_adds, count_non_epsilon_app; [done|].
    eapply Forall_impl; [done|]. simpl. tauto.
Qed.

Lemma unary_stack_ok n f1 stk l :
  stack_ok n (f1 :: stk) →
  Forall (fun tr : nat * char * nat =>
            tr.1.2 = EPSILON ∧
            tr.1.1 ∈ [n; n + 1; frag_start f1; frag_accept f1] ∧
            tr.2 ∈ [n; n + 1; frag_start f1; frag_accept f1]) l →
  stack_ok (n + 2) (Fragment n (n + 1) (foldl table_add (frag_table f1) l) :: stk) ∧
  total_non_epsilon (Fragment n (n + 1) (foldl table_add (frag_table f1) l) :: stk) =
    total_non_epsilon (f1 :: stk).
Proof.
  intros Hstk Hl. inversion Hstk as [|lo ? ? ? Hf1 Hstk0]; subst.
  pose proof (fragment_ok_le _ _ _ Hf1) as Hlt.
  assert (∀ s, s ∈ [n; n + 1; frag_start f1; frag_accept f1] → in_range lo (n + 2) s) as Hin.
  { destruct Hf1 as (Hs & Ha & _). intros s. rewrite !elem_of_cons, elem_of_nil.
    intros [->|[->|[->|[->|[]]]]]; range. }
  destruct (unary_ok lo n f1 l Hf1) as [Hf Hcount].
  { eapply Forall_impl; [done|]. intros tr (? & ? & ?). auto. }
  split; [by eapply stack_ok_cons|].
  rewrite !total_non_epsilon_cons. cbn [frag_table]. by rewrite Hcount.
Qed.

Lemma binary_stack_ok n n' start accept f1 f2 stk l :
  n ≤ n' →
  stack_ok n (f2 :: f1 :: stk) →
  start ∈ [n; frag_start f1] → accept ∈ [n + 1; frag_accept f2] →
  (start = n → n' = n + 2) →
  (accept = n + 1 → n' = n + 2) →
  Forall (fun tr : nat * char * nat =>
            tr.1.2 = EPSILON ∧
            tr.1.1 ∈ [start; accept; frag_start f1; frag_accept f1; frag_start f2; frag_accept f2] ∧
            tr.2 ∈ [start; accept; frag_start f1; frag_accept f1; frag_start f2; frag_accept f2]) l →
  stack_ok n'
    (Fragment start accept
       (foldl table_add (table_merge (frag_table f1) (frag_table f2)) l) :: stk) ∧
  total_non_epsilon
    (Fragment start accept
       (foldl table_add (table_merge (frag_table f1) (frag_table f2)) l) :: stk) =
    total_non_epsilon (f2 :: f1 :: stk).
Proof.
  intros Hn Hstk Hstart Haccept Hn1 Hn2 Hl.
  inversion Hstk as [|mid ? ? ? Hf2 Hstk1]; subst.
  inversion Hstk1 as [|lo ? ? ? Hf1 Hstk0]; subst.
  pose proof (fragment_ok_le _ _ _ Hf1) as Hlt1.
  pose proof (fragment_ok_le _ _ _ Hf2) as Hlt2.
  assert (in_range lo n' start) as Hs.
  { destruct Hf1 as (? & _). revert Hstart Hn1. rewrite !elem_of_cons, elem_of_nil.
    intros [->|[->|[]]] Hn1; [specialize (Hn1 eq_refl)|]; range. }
  assert (in_range lo n' accept) as Ha.
  { destruct Hf2 as (_ & ? & _). revert Haccept Hn2. rewrite !elem_of_cons, elem_of_nil.
    intros [->|[->|[]]] Hn2; [specialize (Hn2 eq_refl)|]; range. }
  assert (∀ s, s ∈ [start; accept; frag_start f1; frag_accept f1;
                    frag_start f2; frag_accept f2] → in_range lo n' s) as Hin.
  { destruct Hf1 as (? & ? & _), Hf2 as (? & ? & _).
    intros s. rewrite !elem_of_cons, elem_of_nil.
    intros [->|[->|[->|[->|[->|[->|[]]]]]]]; try done; range. }
  destruct (binary_ok lo mid n n' start accept f1 f2 l Hn Hf1 Hf2 Hs Ha) as [Hf Hcount].
  { eapply Forall_impl; [done|]. intros tr (? & ? & ?). auto. }
  split; [by eapply stack_ok_cons|].
  rewrite !total_non_epsilon_cons. cbn [frag_table]. rewrite Hcount. lia.
Qed.

Ltac inject_step :=
  match goal with
  | |- context [foldl table_add ?t ?l] =>
      let tbl := fresh "tbl" in
      remember (foldl table_add t l) as tbl;
      intros [= <- <-]; subst tbl
  end.

Ltac transitions_ok :=
  repeat (apply Forall_cons; split; [split; [reflexivity|split; cbn [fst snd]; repeat constructor]|]);
  apply Forall_nil_2.

Lemma value_step_ok n stk c n' stk' :
  stack_ok n stk →
  value_step (n, stk) c = Ok (n', stk') →
  stack_ok n' stk' ∧
  total_non_epsilon stk' =
    total_non_epsilon stk + (if decide ((c ∉ operators) ∧ c ≠ EPSILON) then 1 else 0).
Proof.
  intros Hstk. unfold value_step.
  destruct (decide (c ∉ operators)) as [Hc|Hc].
  { intros [= <- <-].
    rewrite total_non_epsilon_cons, table_add_nil. cbn [frag_table fst snd].
    rewrite count_non_epsilon_literal. split.
    - apply (stack_ok_cons n); [|done]. split; [range|]. split; [range|]. cbn [frag_table].
      apply (table_add_ok n (n + 2) [] (n, c, n + 1)); [apply table_ok_nil | range..].
    - repeat case_decide; try tauto; lia. }
  rewrite (decide_False (P := (c ∉ operators) ∧ c ≠ EPSILON)) by tauto.
  rewrite Nat.add_0_r.
  destruct (decide (c = STAR)).
  { destruct stk as [|f1 stk]; [done|]. cbn [pop_fragment mbind result_bind].
    inject_step. apply unary_stack_ok; [done|]. transitions_ok. }
  destruct (decide (c = PLUS)).
  { destruct stk as [|f1 stk]; [done|]. cbn [pop_fragment mbind result_bind].
    inject_step. apply unary_stack_ok; [done|]. transitions_ok. }
  destruct (decide (c = OPT)).
  { destruct stk as [|f1 stk]; [done|]. cbn [pop_fragment mbind result_bind].
    inject_step. apply unary_stack_ok; [done|]. transitions_ok. }
  destruct (decide (c = DOT)).
  { destruct stk as [|f2 [|f1 stk]]; [done..|]. cbn [pop_fragment mbind result_bind].
    inject_step.
    apply (binary_stack_ok n n); [lia | done | repeat constructor | repeat constructor | | |].
    - intros Heq. inversion Hstk as [|mid ? ? ? Hf2 Hstk1]; subst.
      inversion Hstk1 as [|lo ? ? ? Hf1 Hstk0]; subst.
      pose proof (fragment_ok_le _ _ _ Hf2). destruct Hf1 as (? & _). range.
    - intros Heq. inversion Hstk as [|mid ? ? ? Hf2 Hstk1]; subst.
      destruct Hf2 as (_ & ? & _). range.
    - transitions_ok. }
  destruct (decide (c = ALT)).
  { destruct stk as [|f2 [|f1 stk]]; [done..|]. cbn [pop_fragment mbind result_bind].
    inject_step.
    apply (binary_stack_ok n (n + 2)); [lia | done | repeat constructor | repeat constructor | done | done |].
    transitions_ok. }
  done.
Qed.

(** ** When the evaluator returns *)

Lemma step_push st c :
  c ∉ operators →
  ∃ st', step st c = Ok st' ∧ length (stack st') = S (length (stack st)).
Proof.
  intros Hc. destruct st as [σ n stk].
  destruct (step_literal σ n stk c Hc) as (σ' & nfa & -> & _). by eexists.
Qed.

Lemma step_unary st c :
  c ∈ [STAR; PLUS; OPT] →
  match stack st with
  | [] => step st c = Raise IndexError
  | _ :: _ => ∃ st', step st c = Ok st' ∧ length (stack st') = length (stack st)
  end.
Proof.
  intros Hc. destruct st as [σ n stk]. unfold step.
  rewrite decide_False.
  2:{ intros Hn. apply Hn. apply elem_of_operators.
      revert Hc. rewrite !elem_of_cons, elem_of_nil. tauto. }
  revert Hc. rewrite !elem_of_cons, elem_of_nil. intros [->|[->|[->|[]]]];
    repeat (rewrite decide_False by done); rewrite decide_True by done;
    (destruct stk as [|nfa1 stk]; [done|]); cbn [pop mbind result_bind stack];
    match goal with
    | |- context [let '(_, _) := ?p in _] => destruct p
    end; by eexists.
Qed.

Lemma step_binary st c :
  c ∈ [DOT; ALT] →
  match stack st with
  | _ :: _ :: stk =>
      ∃ st', step st c = Ok st' ∧ length (stack st') = S (length stk)
  | _ => step st c = Raise IndexError
  end.
Proof.
  intros Hc. destruct st as [σ n stk]. unfold step.
  rewrite decide_False.
  2:{ intros Hn. apply Hn. apply elem_of_operators.
      revert Hc. rewrite !elem_of_cons, elem_of_nil. tauto. }
  revert Hc. rewrite !elem_of_cons, elem_of_nil. intros [->|[->|[]]];
    repeat (rewrite decide_False by done); rewrite decide_True by done;
    (destruct stk as [|nfa2 [|nfa1 stk]]; [done..|]); cbn [pop mbind result_bind stack];
    match goal with
    | |- context [let '(_, _) := ?p in _] => destruct p
    end; by eexists.
Qed.

Lemma eval_stack_height postfix : ∀ st,
  match stack_height postfix (length (stack st)) with
  | Some h => ∃ st', eval postfix st = Ok st' ∧ length (stack st') = h
  | None => eval postfix st = Raise IndexError
  end.
Proof.
  induction postfix as [|c postfix IH]; intros st; cbn [stack_height eval].
  { by exists st. }
  destruct (decide (c ∉ operators)) as [Hc|Hc].
  { destruct (step_push st c Hc) as (st' & -> & Hlen). cbn [mbind result_bind].
    rewrite <- Hlen. apply IH. }
  assert (c ∈ operators) as Hop by (by apply dec_stable).
  destruct (decide (c ∈ [STAR; PLUS; OPT])) as [Hu|Hu].
  - pose proof (step_unary st c Hu) as Hstep.
    destruct (stack st) as [|nfa1 stk] eqn:Hstk; cbn [length] in *.
    + rewrite decide_False by lia. by rewrite Hstep.
    + rewrite decide_True by lia. destruct Hstep as (st' & -> & Hlen).
      cbn [mbind result_bind]. rewrite <- Hlen. apply IH.
  - assert (c ∈ [DOT; ALT]) as Hb.
    { apply elem_of_operators in Hop. revert Hu. rewrite !elem_of_cons, !elem_of_nil. tauto. }
    pose proof (step_binary st c Hb) as Hstep.
    destruct (stack st) as [|nfa2 [|nfa1 stk]] eqn:Hstk; cbn [length] in *.
    + rewrite decide_False by lia. by rewrite Hstep.
    + rewrite decide_False by lia. by rewrite Hstep.
    + rewrite decide_True by lia. destruct Hstep as (st' & -> & Hlen).
      cbn [mbind result_bind]. replace (S (S (length stk)) - 1) with (S (length stk)) by lia.
      rewrite <- Hlen. apply IH.
Qed.

(** [postfix_to_nfa] returns an automaton exactly when the tokens leave one
    fragment on the stack; it raises [IndexError] when an operator finds
    too few fragments, and the [ValueError] of the stack-size check when
    the tokens leave no fragment or more than one. *)
Theorem postfix_to_nfa_outcome postfix :
  match stack_height postfix 0 with
  | Some 1 => ∃ r, postfix_to_nfa postfix = Ok r
  | Some _ => postfix_to_nfa postfix = Raise (ValueError InvalidPostfix)
  | None => postfix_to_nfa postfix = Raise IndexError
  end.
Proof.
  pose proof (eval_stack_height postfix initial) as H. cbn [initial stack length] in H.
  unfold postfix_to_nfa.
  destruct (stack_height postfix 0) as [h|].
  - destruct H as (st & -> & Hlen). cbn [mbind result_bind].
    destruct h as [|[|h]].
    + rewrite decide_True by lia. done.
    + rewrite decide_False by lia. destruct (stack st) as [|nfa stk]; [done|].
      by eexists.
    + rewrite decide_True by lia. done.
  - by rewrite H.
Qed.

(** ** What [explicit] inserts *)

Lemma filter_glue (P : char → Prop) `{!∀ c, Decision (P c)} c nxt :
  ¬ P DOT → filter P (glue c nxt) = [].
Proof.
  intros HP. unfold glue. case_decide; [|done]. by rewrite filter_cons_False.
Qed.

Lemma filter_explicit (P : char → Prop) `{!∀ c, Decision (P c)} regex :
  ¬ P DOT → filter P (explicit regex) = filter P regex.
Proof.
  intros HP. induction regex as [|c rest IH]; [done|].
  rewrite explicit_cons, !filter_cons, filter_app, IH.
  destruct rest as [|nxt rest']; [done|]. by rewrite filter_glue.
Qed.



(** ** What [infix_to_postfix] returns *)

Lemma shunt_cases c output stack :
  Forall stack_symbol stack →
  shunt c output stack =
    if decide (c = LPAREN) then Ok (output, c :: stack)
    else if decide (c = RPAREN) then
      match keep 1 stack with
      | [] => Raise IndexError
      | _ :: stack' => Ok (output ++ emit 1 stack, stack')
      end
    else if decide (c ∈ operators) then
      Ok (output ++ emit (prec c) stack, c :: keep (prec c) stack)
    else Ok (output ++ [c], stack).
Proof.
  intros Hstack. unfold shunt. repeat case_decide; try done.
  - by apply pop_to_paren_emit.
  - by rewrite pop_higher_emit.
Qed.

Lemma keep_head k stack top rest : keep k stack = top :: rest → ¬ k ≤ prec top.
Proof.
  induction stack as [|t stack IH]; simpl; [done|].
  case_decide; [done|]. by intros [= -> ->].
Qed.

Lemma emit_stack_symbol k stack : Forall stack_symbol stack → Forall stack_symbol (emit k stack).
Proof.
  induction 1 as [|top stack Htop Hstack IH]; simpl; [done|].
  case_decide; [by constructor | constructor].
Qed.

Lemma stack_symbol_symbols c : stack_symbol c → c ∈ symbols ∧ c ≠ RPAREN.
Proof.
  intros [Hc| ->]; rewrite elem_of_symbols; [|by auto].
  split; [by left|]. intros ->. by apply elem_of_operators in Hc as [?|[?|[?|[?|?]]]].
Qed.

Lemma filter_stack_symbols l :
  Forall stack_symbol l → filter (fun c => c ∉ symbols) l = [].
Proof.
  induction 1 as [|c l Hc Hl IH]; [done|].
  rewrite filter_cons_False; [done|]. intros Hn. by apply Hn, stack_symbol_symbols.
Qed.

Lemma stack_symbols_no_close l : Forall stack_symbol l → Forall (fun c => c ≠ RPAREN) l.
Proof.
  intros Hl. eapply Forall_impl; [done|]. intros c Hc. by apply stack_symbol_symbols.
Qed.

Lemma shunting_yard_spec regex : ∀ output stack,
  Forall stack_symbol stack →
  if close_unmatched (opens stack) regex then
    shunting_yard regex output stack = Raise IndexError
  else
    ∃ output' stack',
      shunting_yard regex output stack = Ok (output', stack') ∧
      Forall stack_symbol stack' ∧
      filter (fun c => c ∉ symbols) output' =
        filter (fun c => c ∉ symbols) output ++ filter (fun c => c ∉ symbols) regex ∧
      (Forall (fun c => c ≠ RPAREN) output → Forall (fun c => c ≠ RPAREN) output').
Proof.
  induction regex as [|c regex IH]; intros output stack Hstack.
  { simpl. exists output, stack. by rewrite app_nil_r. }
  destruct (close_unmatched (opens stack) (c :: regex)) eqn:Hu.
  { by apply shunting_yard_close_unmatched. }
  cbn [shunting_yard]. rewrite shunt_cases by done.
  cbn [close_unmatched] in Hu. rewrite filter_cons.
  destruct (decide (c = LPAREN)) as [->|Hl].
  { cbn [mbind result_bind].
    assert (Forall stack_symbol (LPAREN :: stack)) as Hst by (constructor; [by right|done]).
    specialize (IH output (LPAREN :: stack) Hst).
    replace (opens (LPAREN :: stack)) with (S (opens stack)) in IH
      by (unfold opens; by rewrite filter_cons_True).
    rewrite Hu in IH. rewrite decide_False; [done|].
    intros Hn. apply Hn. apply elem_of_symbols. auto. }
  destruct (decide (c = RPAREN)) as [->|Hr].
  { pose proof (opens_keep 1 stack (le_n 1)) as Hopens.
    pose proof (keep_stack_symbol 1 _ Hstack) as Hks.
    destruct (keep 1 stack) as [|top rest] eqn:Hk.
    { unfold opens in Hopens at 1. simpl in Hopens.
      by rewrite <- Hopens in Hu. }
    assert (top = LPAREN) as ->.
    { apply Forall_cons in Hks as [Htop _]. apply stack_symbol_prec_0; [done|].
      by eapply keep_head. }
    unfold opens in Hopens at 1. rewrite filter_cons_True in Hopens by done.
    cbn [length] in Hopens. fold (opens rest) in Hopens.
    rewrite <- Hopens in Hu.
    cbn [mbind result_bind]. apply Forall_cons in Hks as [_ Hrest].
    specialize (IH (output ++ emit 1 stack) rest Hrest). rewrite Hu in IH.
    destruct IH as (output' & stack' & -> & Hst' & Hlit & Hclose).
    exists output', stack'. split; [done|]. split; [done|]. split.
    - rewrite Hlit, filter_app, (filter_stack_symbols (emit 1 stack)), app_nil_r
        by (by apply emit_stack_symbol).
      rewrite decide_False; [done|]. intros Hn. apply Hn, elem_of_symbols. auto.
    - intros Hout. apply Hclose, Forall_app. split; [done|].
      by apply stack_symbols_no_close, emit_stack_symbol. }
  destruct (decide (c ∈ operators)) as [Hop|Hop].
  { cbn [mbind result_bind].
    assert (Forall stack_symbol (c :: keep (prec c) stack)) as Hst.
    { constructor; [by left | by apply keep_stack_symbol]. }
    specialize (IH (output ++ emit (prec c) stack) _ Hst).
    replace (opens (c :: keep (prec c) stack)) with (opens stack) in IH.
    2:{ unfold opens. rewrite filter_cons_False by done.
        fold (opens (keep (prec c) stack)). rewrite opens_keep; [done|].
        destruct (precedence_operator c) as (k & Hk & ?); [done|].
        unfold prec. by rewrite Hk. }
    rewrite Hu in IH. destruct IH as (output' & stack' & -> & Hst' & Hlit & Hclose).
    exists output', stack'. split; [done|]. split; [done|]. split.
    - rewrite Hlit, filter_app, (filter_stack_symbols (emit (prec c) stack)), app_nil_r
        by (by apply emit_stack_symbol).
      rewrite decide_False; [done|]. intros Hn. apply Hn, elem_of_symbols. auto.
    - intros Hout. apply Hclose, Forall_app. split; [done|].
      by apply stack_symbols_no_close, emit_stack_symbol. }
  cbn [mbind result_bind]. specialize (IH (output ++ [c]) stack Hstack).
  rewrite Hu in IH. destruct IH as (output' & stack' & -> & Hst' & Hlit & Hclose).
  exists output', stack'. split; [done|]. split; [done|]. split.
  - rewrite Hlit, filter_app, filter_cons, filter_nil.
    rewrite decide_True by (rewrite elem_of_symbols; tauto).
    rewrite <- app_assoc. f_equal. case_decide as Hn; [done|].
    exfalso. assert (c ∉ symbols) as Hc' by (rewrite elem_of_symbols; tauto). tauto.
  - intros Hout. apply Hclose, Forall_app. split; [done|]. by constructor.
Qed.

(** [infix_to_postfix] checks nothing but the closing markers: it returns a
    postfix string for every input in which each [')'] has a ['('] before
    it to match, and raises [IndexError] for every other input. *)
Theorem infix_to_postfix_returns regex :
  if close_unmatched 0 regex then infix_to_postfix regex = Raise IndexError
  else ∃ postfix, infix_to_postfix regex = Ok postfix.
Proof.
  pose proof (shunting_yard_spec (explicit regex) [] [] (Forall_nil_2 _)) as H.
  change (opens []) with 0 in H. rewrite close_unmatched_explicit in H.
  unfold infix_to_postfix. destruct (close_unmatched 0 regex).
  - by rewrite H.
  - destruct H as (output & stack & -> & _). by eexists.
Qed.

(** The postfix string has the literals of the expression, in their order,
    and never a [')']. *)
Theorem infix_to_postfix_literals regex postfix :
  infix_to_postfix regex = Ok postfix →
  filter (fun c => c ∉ symbols) postfix = filter (fun c => c ∉ symbols) regex ∧
  RPAREN ∉ postfix.
Proof.
  pose proof (shunting_yard_spec (explicit regex) [] [] (Forall_nil_2 _)) as H.
  unfold infix_to_postfix. destruct (close_unmatched _ _).
  { by rewrite H. }
  destruct H as (output & stack & -> & Hstack & Hlit & Hclose).
  cbn [mbind result_bind]. intros [= <-]. split.
  - rewrite filter_app, Hlit, (filter_stack_symbols stack), app_nil_r by done.
    simpl. apply filter_explicit. intros Hn. apply Hn, elem_of_symbols. left.
    apply elem_of_operators. tauto.
  - assert (Forall (fun c => c ≠ RPAREN) (output ++ stack)) as Hall.
    { apply Forall_app. split; [by apply Hclose | by apply stack_symbols_no_close]. }
    rewrite Forall_forall in Hall. intros Hin. by apply (Hall _ Hin).
Qed.

Lemma infix_to_postfix_literals_witness :
  infix_to_postfix (str "(a|b)?a") = Ok (str "ab|?a.") ∧
  filter (fun c => c ∉ symbols) (str "ab|?a.") =
    filter (fun c => c ∉ symbols) (str "(a|b)?a") ∧
  RPAREN ∉ str "ab|?a.".
Proof.
  split; [reflexivity|].
  apply (infix_to_postfix_literals (str "(a|b)?a") (str "ab|?a.")). reflexivity.
Defined.

(** ** The fragments of a run *)

Arguments value_step : simpl never.

Lemma count_labels_cons c postfix :
  count_labels (c :: postfix) =
    (if decide ((c ∉ operators) ∧ c ≠ EPSILON) then 1 else 0) + count_labels postfix.
Proof. unfold count_labels. rewrite filter_cons. by case_decide. Qed.

Lemma value_eval_ok postfix : ∀ n stk n' stk',
  stack_ok n stk →
  value_eval postfix (n, stk) = Ok (n', stk') →
  stack_ok n' stk' ∧
  total_non_epsilon stk' = total_non_epsilon stk + count_labels postfix.
Proof.
  induction postfix as [|c postfix IH]; intros n stk n' stk' Hstk; cbn [value_eval].
  { intros [= <- <-]. split; [done|]. unfold count_labels. simpl. lia. }
  destruct (value_step (n, stk) c) as [[n1 stk1]|e] eqn:Hstep; [|done].
  cbn [mbind result_bind]. intros Heval.
  destruct (value_step_ok _ _ _ _ _ Hstk Hstep) as [Hstk1 Htot1].
  destruct (IH _ _ _ _ Hstk1 Heval) as [Hstk' Htot'].
  split; [done|]. rewrite Htot', Htot1, count_labels_cons. lia.
Qed.

Lemma eval_stack_ok postfix st :
  eval postfix initial = Ok st →
  stack_ok (next_state_id st) (fragment_of (heap st) <$> stack st) ∧
  total_non_epsilon (fragment_of (heap st) <$> stack st) = count_labels postfix.
Proof.
  intros Heval%eval_values.
  by destruct (value_eval_ok _ _ _ _ _ (stack_ok_nil 0) Heval).
Qed.

Lemma postfix_to_nfa_Ok postfix r :
  postfix_to_nfa postfix = Ok r →
  ∃ st, eval postfix initial = Ok st ∧ stack st = [r.2] ∧ heap st = r.1.
Proof.
  unfold postfix_to_nfa. destruct (eval postfix initial) as [st|e]; [|done].
  cbn [mbind result_bind]. case_decide as Hlen; [done|].
  destruct (stack st) as [|nfa [|? ?]] eqn:Hstk;
    [simpl in Hlen; lia | | simpl in Hlen; lia].
  cbn [pop mbind result_bind]. intros [= <-]. by exists st.
Qed.

(** The transitions of the automaton that [postfix_to_nfa] returns whose
    label is not ['ε'] are as many as the tokens of the postfix string that
    are neither operators nor ['ε']: each such token gives one, and the
    operators give epsilon transitions only. *)
Theorem postfix_to_nfa_count postfix r :
  postfix_to_nfa postfix = Ok r →
  count_non_epsilon (table_of r.1 r.2) = count_labels postfix.
Proof.
  intros (st & Heval & Hstk & Hheap)%postfix_to_nfa_Ok.
  destruct (eval_stack_ok _ _ Heval) as [_ Htot].
  rewrite Hstk, Hheap, fmap_cons, total_non_epsilon_cons in Htot.
  cbn [fragment_of frag_table] in Htot. rewrite <- Htot.
  unfold total_non_epsilon. simpl. lia.
Qed.

Lemma postfix_to_nfa_count_witness :
  ∃ r, postfix_to_nfa (str "ab|?a.") = Ok r ∧
       count_non_epsilon (table_of r.1 r.2) = count_labels (str "ab|?a.").
Proof.
  eexists. split; [vm_compute; reflexivity|].
  apply (postfix_to_nfa_count (str "ab|?a.")). vm_compute. reflexivity.
Defined.

(** ** The states of the automaton *)

Lemma value_step_counter n stk c n' stk' :
  value_step (n, stk) c = Ok (n', stk') →
  n' = n + (if decide (c = DOT) then 0 else 2).
Proof.
  unfold value_step.
  destruct (decide (c ∉ operators)) as [Hc|Hc].
  { intros [= <- _]. rewrite decide_False; [done|]. intros ->. apply Hc.
    apply elem_of_operators. tauto. }
  destruct (decide (c = STAR)) as [->|?].
  { destruct stk; [done|]. by intros [= <- _]. }
  destruct (decide (c = PLUS)) as [->|?].
  { destruct stk; [done|]. by intros [= <- _]. }
  destruct (decide (c = OPT)) as [->|?].
  { destruct stk; [done|]. by intros [= <- _]. }
  destruct (decide (c = DOT)) as [->|?].
  { destruct stk as [|? [|? ?]]; [done..|]. intros [= <- _]. lia. }
  destruct (decide (c = ALT)) as [->|?]; [|done].
  destruct stk as [|? [|? ?]]; [done..|]. by intros [= <- _].
Qed.

Lemma value_eval_counter postfix : ∀ n stk n' stk',
  value_eval postfix (n, stk) = Ok (n', stk') →
  n' = n + 2 * length (filter (fun c => c ≠ DOT) postfix).
Proof.
  induction postfix as [|c postfix IH]; intros n stk n' stk'; cbn [value_eval].
  { intros [= <- _]. simpl. lia. }
  destruct (value_step (n, stk) c) as [[n1 stk1]|e] eqn:Hstep; [|done].
  cbn [mbind result_bind]. intros Heval%IH. apply value_step_counter in Hstep.
  rewrite filter_cons. revert Hstep. repeat case_decide; try done; simpl; lia.
Qed.

Lemma elem_of_triples t s l d :
  (s, l, d) ∈ triples t ↔ ∃ inner ds, (s, inner) ∈ t ∧ (l, ds) ∈ inner ∧ d ∈ ds.
Proof.
  unfold triples. rewrite list_elem_of_bind. split.
  - intros ([s' inner] & Hin & Ht). apply list_elem_of_bind in Hin as ([l' ds] & Hin & Hi).
    apply list_elem_of_bind in Hin as (d' & Hin & Hd).
    apply list_elem_of_singleton in Hin as [= -> -> ->]. eauto.
  - intros (inner & ds & Ht & Hi & Hd). exists (s, inner). split; [|done].
    apply list_elem_of_bind. exists (l, ds). split; [|done].
    apply list_elem_of_bind. exists d. split; [|done]. by apply list_elem_of_singleton.
Qed.

Lemma table_ok_triples lo hi t s l d :
  table_ok lo hi t → (s, l, d) ∈ triples t → in_range lo hi s ∧ in_range lo hi d.
Proof.
  intros (_ & Hkeys & Hinner) (inner & ds & Ht & Hi & Hd)%elem_of_triples.
  rewrite Forall_forall in Hkeys. rewrite Forall_forall in Hinner. split.
  - apply Hkeys. by apply (list_elem_of_fmap_2 fst) in Ht.
  - destruct (Hinner inner) as (_ & _ & Hsets); [by apply (list_elem_of_fmap_2 snd) in Ht|].
    rewrite Forall_forall in Hsets.
    destruct (Hsets ds) as [_ Hds]; [by apply (list_elem_of_fmap_2 snd) in Hi|].
    rewrite Forall_forall in Hds. by apply Hds.
Qed.

Lemma fragment_ok_states lo hi f s :
  fragment_ok lo hi f →
  s ∈ states_of (frag_start f) (frag_accept f) (frag_table f) → in_range lo hi s.
Proof.
  intros (Hs & Ha & Ht). unfold states_of.
  rewrite elem_of_remove_dups, !elem_of_cons, list_elem_of_bind.
  intros [->|[->|([[s' l] d] & Hin & Htr)]]; [done..|].
  destruct (table_ok_triples _ _ _ _ _ _ Ht Htr).
  apply elem_of_cons in Hin as [->|Hin]; [done|].
  by apply list_elem_of_singleton in Hin as ->.
Qed.

(** The states of the automaton that [postfix_to_nfa] returns are numbers
    below twice the number of tokens other than ['.']: [new_state] is
    called twice for each of those tokens and numbers the states from 0. *)
Theorem postfix_to_nfa_states postfix r s :
  postfix_to_nfa postfix = Ok r →
  s ∈ states_of (start_state r.2) (accept_state r.2) (table_of r.1 r.2) →
  s < 2 * length (filter (fun c => c ≠ DOT) postfix).
Proof.
  intros (st & Heval & Hstk & Hheap)%postfix_to_nfa_Ok Hs.
  destruct (eval_stack_ok _ _ Heval) as [Hok _].
  apply eval_values, value_eval_counter in Heval. cbn [values_of] in Heval.
  rewrite Hstk, Hheap in Hok. inversion Hok as [|lo ? ? ? Hf _]; subst.
  apply (fragment_ok_states _ _ _ s Hf) in Hs. unfold in_range in Hs. lia.
Qed.

Lemma postfix_to_nfa_states_witness :
  ∃ r, postfix_to_nfa (str "ab.") = Ok r ∧
       start_state r.2 ∈ states_of (start_state r.2) (accept_state r.2) (table_of r.1 r.2) ∧
       start_state r.2 < 2 * length (filter (fun c => c ≠ DOT) (str "ab.")).
Proof.
  eexists. split; [vm_compute; reflexivity|].
  assert (0 ∈ states_of 0 3 [(0, [(chr "a", [1])]); (2, [(chr "b", [3])]); (1, [(EPSILON, [2])])])
    as Hin by (apply (bool_decide_unpack _); exact I).
  split; [exact Hin|].
  eapply (postfix_to_nfa_states (str "ab.") _ 0); [vm_compute; reflexivity | exact Hin].
Defined.

(** ** The accept state *)

Lemma dict_get_table_adds_None k l : ∀ t,
  dict_get k t = None → Forall (fun tr : nat * char * nat => tr.1.1 ≠ k) l →
  dict_get k (foldl table_add t l) = None.
Proof.
  induction l as [|[[f s] x] l IH]; intros t Ht Hl; [done|].
  apply Forall_cons in Hl as [Hf Hl]. cbn [foldl]. apply IH; [|done].
  unfold table_add, table_modify. rewrite dict_get_set. simpl in *.
  by rewrite decide_False.
Qed.

Lemma table_ok_dict_get_None lo hi t k :
  table_ok lo hi t → ¬ in_range lo hi k → dict_get k t = None.
Proof.
  intros (_ & Hkeys & _) Hk. apply dict_get_None. intros Hin.
  rewrite Forall_forall in Hkeys. by apply Hk, Hkeys.
Qed.

Lemma unary_accept_free lo n f1 l :
  fragment_ok lo n f1 →
  Forall (fun tr : nat * char * nat => tr.1.1 ≠ n + 1) l →
  accept_free (Fragment n (n + 1) (foldl table_add (frag_table f1) l)).
Proof.
  intros (_ & _ & Ht) Hl. split; [|simpl; lia]. cbn [frag_accept frag_table].
  apply dict_get_table_adds_None; [|done].
  eapply table_ok_dict_get_None; [done|]. unfold in_range. lia.
Qed.

Lemma value_step_accept_free n stk c n' stk' :
  stack_ok n stk → Forall accept_free stk →
  value_step (n, stk) c = Ok (n', stk') → Forall accept_free stk'.
Proof.
  intros Hstk Hfree. unfold value_step.
  destruct (decide (c ∉ operators)) as [Hc|Hc].
  { intros [= <- <-]. constructor; [|done]. split; [|simpl; lia].
    rewrite table_add_nil. simpl. rewrite decide_False by lia. done. }
  destruct (decide (c = STAR)).
  { destruct stk as [|f1 stk]; [done|]. cbn [pop_fragment mbind result_bind].
    inject_step. inversion Hstk as [|lo ? ? ? Hf1 Hstk0]; subst.
    apply Forall_cons in Hfree as [_ Hfree]. destruct (Hf1) as (? & ? & _).
    constructor; [|done]. eapply unary_accept_free; [done|].
    repeat (apply Forall_cons; split; [range|]). apply Forall_nil_2. }
  destruct (decide (c = PLUS)).
  { destruct stk as [|f1 stk]; [done|]. cbn [pop_fragment mbind result_bind].
    inject_step. inversion Hstk as [|lo ? ? ? Hf1 Hstk0]; subst.
    apply Forall_cons in Hfree as [_ Hfree]. destruct (Hf1) as (? & ? & _).
    constructor; [|done]. eapply unary_accept_free; [done|].
    repeat (apply Forall_cons; split; [range|]). apply Forall_nil_2. }
  destruct (decide (c = OPT)).
  { destruct stk as [|f1 stk]; [done|]. cbn [pop_fragment mbind result_bind].
    inject_step. inversion Hstk as [|lo ? ? ? Hf1 Hstk0]; subst.
    apply Forall_cons in Hfree as [_ Hfree]. destruct (Hf1) as (? & ? & _).
    constructor; [|done]. eapply unary_accept_free; [done|].
    repeat (apply Forall_cons; split; [range|]). apply Forall_nil_2. }
  destruct (decide (c = DOT)).
  { destruct stk as [|f2 [|f1 stk]]; [done..|]. cbn [pop_fragment mbind result_bind].
    inject_step. inversion Hstk as [|mid ? ? ? Hf2 Hstk1]; subst.
    inversion Hstk1 as [|lo ? ? ? Hf1 Hstk0]; subst.
    apply Forall_cons in Hfree as [[Hfree2 _] Hfree].
    apply Forall_cons in Hfree as [_ Hfree].
    pose proof (fragment_ok_le _ _ _ Hf1). pose proof (fragment_ok_le _ _ _ Hf2).
    destruct (Hf1) as (? & ? & Ht1), (Hf2) as (? & ? & Ht2).
    destruct (table_merge_ok lo mid n _ _ ltac:(lia) ltac:(lia) Ht1 Ht2) as [-> _].
    constructor; [|done]. split; [|range]. cbn [frag_accept frag_table].
    apply dict_get_table_adds_None.
    - rewrite dict_get_app, (table_ok_dict_get_None lo mid); [done|done|range].
    - repeat (apply Forall_cons; split; [range|]). apply Forall_nil_2. }
  destruct (decide (c = ALT)); [|done].
  destruct stk as [|f2 [|f1 stk]]; [done..|]. cbn [pop_fragment mbind result_bind].
  inject_step. inversion Hstk as [|mid ? ? ? Hf2 Hstk1]; subst.
  inversion Hstk1 as [|lo ? ? ? Hf1 Hstk0]; subst.
  apply Forall_cons in Hfree as [_ Hfree]. apply Forall_cons in Hfree as [_ Hfree].
  pose proof (fragment_ok_le _ _ _ Hf1). pose proof (fragment_ok_le _ _ _ Hf2).
  destruct (Hf1) as (? & ? & Ht1), (Hf2) as (? & ? & Ht2).
  destruct (table_merge_ok lo mid n _ _ ltac:(lia) ltac:(lia) Ht1 Ht2) as [-> Hok].
  constructor; [|done]. split; [|simpl; lia]. cbn [frag_accept frag_table].
  apply dict_get_table_adds_None.
  - eapply table_ok_dict_get_None; [done|]. range.
  - repeat (apply Forall_cons; split; [range|]). apply Forall_nil_2.
Qed.

Lemma value_eval_accept_free postfix : ∀ n stk n' stk',
  stack_ok n stk → Forall accept_free stk →
  value_eval postfix (n, stk) = Ok (n', stk') → Forall accept_free stk'.
Proof.
  induction postfix as [|c postfix IH]; intros n stk n' stk' Hstk Hfree; cbn [value_eval].
  { by intros [= <- <-]. }
  destruct (value_step (n, stk) c) as [[n1 stk1]|e] eqn:Hstep; [|done].
  cbn [mbind result_bind]. apply IH.
  - by destruct (value_step_ok _ _ _ _ _ Hstk Hstep).
  - by eapply value_step_accept_free.
Qed.

(** In the automaton that [postfix_to_nfa] returns, the accept state is not
    the start state and has no outgoing transition, on any symbol. *)
Theorem postfix_to_nfa_accept postfix r :
  postfix_to_nfa postfix = Ok r →
  start_state r.2 ≠ accept_state r.2 ∧
  ∀ symbol, dests (table_of r.1 r.2) (accept_state r.2) symbol = [].
Proof.
  intros (st & Heval & Hstk & Hheap)%postfix_to_nfa_Ok.
  apply eval_values in Heval.
  apply value_eval_accept_free in Heval; [|constructor|constructor].
  cbn [values_of snd] in Heval. rewrite Hstk, Hheap in Heval.
  apply Forall_cons in Heval as [[Hget Hne] _]. split; [done|].
  intros symbol. unfold dests. cbn [fragment_of frag_accept frag_table] in Hget.
  by rewrite Hget.
Qed.

Lemma postfix_to_nfa_accept_witness :
  ∃ r, postfix_to_nfa (str "ab|*") = Ok r ∧
       start_state r.2 ≠ accept_state r.2 ∧
       ∀ symbol, dests (table_of r.1 r.2) (accept_state r.2) symbol = [].
Proof.
  eexists. split; [vm_compute; reflexivity|].
  eapply (postfix_to_nfa_accept (str "ab|*")). vm_compute. reflexivity.
Defined.

(** ** [add_transition] as an insertion *)


(** On a table that holds none of its inner dicts or sets twice,
    [add_transition] adds the transition and nothing else: afterwards
    [transitions[s][l]] has the elements it had, and [to_state] if [s] and
    [l] are [from_state] and [symbol]; the start and accept states are
    unchanged. *)
Theorem add_transition_lookup σ nfa from_state symbol to_state σ' nfa' :
  owned σ (transitions nfa) →
  add_transition σ nfa from_state symbol to_state = (σ', nfa') →
  start_state nfa' = start_state nfa ∧ accept_state nfa' = accept_state nfa ∧
  owned σ' (transitions nfa') ∧
  ∀ s l d,
    d ∈ dests (table_of σ' nfa') s l ↔
    d ∈ dests (table_of σ nfa) s l ∨ (s, l, d) = (from_state, symbol, to_state).
Proof.
  intros Ho Hadd. rewrite <- (app_nil_r (transitions nfa)) in Ho.
  apply (add_transition_spec σ nfa [] (from_state, symbol, to_state)) in Hadd
    as (Ho' & Ht & Hs & Ha & _); [|done].
  rewrite app_nil_r in Ho'. split; [done|]. split; [done|]. split; [done|].
  intros s l d. rewrite Ht. apply elem_of_dests_table_add.
Qed.

Lemma add_transition_lookup_witness :
  owned empty_store [] ∧
  ∃ σ' nfa',
    add_transition empty_store (Build_NFA 0 1 []) 0 (chr "a") 1 = (σ', nfa') ∧
    start_state nfa' = 0 ∧ accept_state nfa' = 1 ∧ owned σ' (transitions nfa') ∧
    ∀ s l d,
      d ∈ dests (table_of σ' nfa') s l ↔
      d ∈ dests (table_of empty_store (Build_NFA 0 1 [])) s l ∨ (s, l, d) = (0, chr "a", 1).
Proof.
  split; [apply owned_empty|]. do 2 eexists. split; [vm_compute; reflexivity|].
  eapply (add_transition_lookup empty_store (Build_NFA 0 1 []) 0 (chr "a") 1);
    [apply owned_empty | vm_compute; reflexivity].
Defined.



(** ** The shallow copy of the first operand *)

Lemma modify_prefix g σ tr state symbol σ' tr' :
  modify g σ tr state symbol = (σ', tr') → tr `prefix_of` tr'.
Proof.
  unfold modify, ensure_state.
  destruct (dict_get state tr) as [a|] eqn:Hstate.
  - destruct (ensure_symbol σ a symbol). by intros [= _ <-].
  - destruct (ensure_symbol _ _ symbol). intros [= _ <-].
    rewrite dict_set_absent by done. by apply prefix_app_r.
Qed.

Lemma add_transition_prefix σ nfa f s x σ' nfa' :
  add_transition σ nfa f s x = (σ', nfa') → transitions nfa `prefix_of` transitions nfa'.
Proof.
  rewrite add_transition_modify. destruct (modify _ _ _ _ _) as [σ1 tr1] eqn:Hmod.
  simpl. intros [= _ <-]. simpl. by eapply modify_prefix.
Qed.

Lemma add_transitions_prefix l : ∀ σ nfa σ' nfa',
  add_transitions (σ, nfa) l = (σ', nfa') → transitions nfa `prefix_of` transitions nfa'.
Proof.
  unfold add_transitions. induction l as [|[[f s] x] l IH]; intros σ nfa σ' nfa'; cbn [foldl].
  { by intros [= _ <-]. }
  cbn [fst snd]. destruct (add_transition σ nfa f s x) as [σ1 nfa1] eqn:Hadd.
  intros Hl%IH. etrans; [by eapply add_transition_prefix | done].
Qed.

Lemma merge_items_prefix state items : ∀ σ tr σ' tr',
  foldl (merge_item state) (σ, tr) items = (σ', tr') → tr `prefix_of` tr'.
Proof.
  induction items as [|[symbol dst] items IH]; intros σ tr σ' tr'; cbn [foldl].
  { by intros [= _ <-]. }
  rewrite merge_item_modify. destruct (modify _ σ tr state symbol) as [σ1 tr1] eqn:Hmod.
  intros Hl%IH. etrans; [by eapply modify_prefix | done].
Qed.

Lemma merge_prefix σ nfa nfa2 σ' nfa' :
  merge σ nfa nfa2 = (σ', nfa') → transitions nfa `prefix_of` transitions nfa'.
Proof.
  unfold merge. generalize (transitions nfa) as tr. generalize (transitions nfa2) as l2.
  intros l2. revert σ. induction l2 as [|[state a2] l2 IH]; intros σ tr; cbn [foldl].
  { by intros [= _ <-]. }
  change (merge_state (σ, tr) (state, a2))
    with (foldl (merge_item state) (σ, tr) (dicts σ !!! a2)).
  destruct (foldl (merge_item state) _ _) as [σ1 tr1] eqn:Hitems.
  intros Hl%IH. etrans; [by eapply merge_items_prefix | done].
Qed.

(** The fragment that an operator makes is built over a shallow copy of the
    table of its operand (of its left operand, for ['.'] and ['|']): the
    new outer dict begins with the entries of the operand's, which hold the
    very same inner dicts. *)
Theorem operator_shares_operand st c st' :
  c ∈ operators → step st c = Ok st' →
  ∃ nfa1 nfa,
    stack st !! (if decide (c ∈ [DOT; ALT]) then 1 else 0) = Some nfa1 ∧
    head (stack st') = Some nfa ∧
    transitions nfa1 `prefix_of` transitions nfa.
Proof.
  intros Hc. destruct st as [σ n stk]. unfold step. rewrite decide_False by tauto.
  apply elem_of_operators in Hc as [->|[->|[->|[->| ->]]]];
    repeat (rewrite decide_False by done); rewrite decide_True by done;
    [destruct stk as [|nfa1 stk]; [done|] ..
    | destruct stk as [|nfa2 [|nfa1 stk]]; [done..|]
    | destruct stk as [|nfa2 [|nfa1 stk]]; [done..|]];
    cbn [pop mbind result_bind stack].
  - destruct (add_transitions _ _) as [σ' nfa] eqn:Hadd. intros [= <-].
    exists nfa1, nfa. split; [done|]. split; [done|].
    by apply add_transitions_prefix in Hadd.
  - destruct (add_transitions _ _) as [σ' nfa] eqn:Hadd. intros [= <-].
    exists nfa1, nfa. split; [done|]. split; [done|].
    by apply add_transitions_prefix in Hadd.
  - destruct (add_transitions _ _) as [σ' nfa] eqn:Hadd. intros [= <-].
    exists nfa1, nfa. split; [done|]. split; [done|].
    by apply add_transitions_prefix in Hadd.
  - destruct (merge σ _ nfa2) as [σ1 nfa_m] eqn:Hmerge.
    destruct (add_transitions _ _) as [σ' nfa] eqn:Hadd. intros [= <-].
    exists nfa1, nfa. split; [done|]. split; [done|].
    apply merge_prefix in Hmerge. apply add_transitions_prefix in Hadd.
    by etrans.
  - destruct (merge σ _ nfa2) as [σ1 nfa_m] eqn:Hmerge.
    destruct (add_transitions _ _) as [σ' nfa] eqn:Hadd. intros [= <-].
    exists nfa1, nfa. split; [done|]. split; [done|].
    apply merge_prefix in Hmerge. apply add_transitions_prefix in Hadd.
    by etrans.
Qed.

Lemma operator_shares_operand_witness :
  ∃ st st' nfa1 nfa,
    eval (str "a") initial = Ok st ∧
    STAR ∈ operators ∧ step st STAR = Ok st' ∧
    stack st !! 0 = Some nfa1 ∧ head (stack st') = Some nfa ∧
    transitions nfa1 `prefix_of` transitions nfa.
Proof.
  assert (STAR ∈ operators) as Hop by (apply (bool_decide_unpack _); exact I).
  eexists _, _. 
  destruct (operator_shares_operand
              (State (Store [[(chr "a", 0)]] [[1]]) 2 [Build_NFA 0 1 [(0, 0)]]) STAR
              _ Hop eq_refl) as (nfa1 & nfa & H1 & H2 & H3).
  exists nfa1, nfa. split; [vm_compute; reflexivity|]. split; [exact Hop|].
  split; [reflexivity|]. split; [exact H1|]. split; [exact H2 | exact H3].
Defined.

(** ** The construction rules *)

Lemma fmap_eq_elem_of {A B} (f g : A → B) (l : list A) x :
  f <$> l = g <$> l → x ∈ l → f x = g x.
Proof.
  induction l as [|y l IH]; intros Heq Hx; [by apply elem_of_nil in Hx|].
  rewrite !fmap_cons in Heq. injection Heq as Hy Hl.
  apply elem_of_cons in Hx as [->|Hx]; auto.
Qed.

Lemma dests_app t1 t2 s l d :
  (∀ k, k ∈ t1.*1 → k ∉ t2.*1) →
  d ∈ dests (t1 ++ t2) s l ↔ d ∈ dests t1 s l ∨ d ∈ dests t2 s l.
Proof.
  intros Hdisj. unfold dests. rewrite dict_get_app.
  destruct (dict_get s t1) as [inner|] eqn:H1.
  - assert (dict_get s t2 = None) as ->.
    { apply dict_get_None, Hdisj. by eapply dict_get_Some_keys. }
    simpl. rewrite elem_of_nil. tauto.
  - simpl. rewrite elem_of_nil. tauto.
Qed.

Lemma unary_rule postfix σ n nfa1 stk l σ' nfa :
  eval postfix initial = Ok (State σ n (nfa1 :: stk)) →
  add_transitions (σ, Build_NFA n (n + 1) (transitions nfa1)) l = (σ', nfa) →
  start_state nfa = n ∧ accept_state nfa = n + 1 ∧
  (∀ s lbl d,
     d ∈ dests (table_of σ' nfa) s lbl ↔ d ∈ dests (table_of σ nfa1) s lbl ∨ (s, lbl, d) ∈ l) ∧
  (∀ nfa0, nfa0 ∈ stk → table_of σ' nfa0 = table_of σ nfa0).
Proof.
  intros Heval%eval_separated Hadd. unfold separated in Heval. cbn [heap stack] in Heval.
  apply unary_spec with (stk := stk) in Hadd as (_ & Hf & Hstk); [|done].
  injection Hf as Hs Ha Ht. split; [done|]. split; [done|]. split.
  - intros s lbl d. rewrite Ht. apply elem_of_dests_table_adds.
  - intros nfa0 Hin. apply (fmap_eq_elem_of _ _ _ nfa0) in Hstk; [|done].
    by injection Hstk.
Qed.

Lemma binary_rule postfix σ n start accept nfa1 nfa2 stk l σ1 nfa_m σ' nfa :
  eval postfix initial = Ok (State σ n (nfa2 :: nfa1 :: stk)) →
  merge σ (Build_NFA start accept (transitions nfa1)) nfa2 = (σ1, nfa_m) →
  add_transitions (σ1, nfa_m) l = (σ', nfa) →
  start_state nfa = start ∧ accept_state nfa = accept ∧
  (∀ s lbl d,
     d ∈ dests (table_of σ' nfa) s lbl ↔
     d ∈ dests (table_of σ nfa1) s lbl ∨ d ∈ dests (table_of σ nfa2) s lbl ∨ (s, lbl, d) ∈ l) ∧
  (∀ nfa0, nfa0 ∈ stk → table_of σ' nfa0 = table_of σ nfa0).
Proof.
  intros Heval Hmerge Hadd.
  destruct (eval_stack_ok _ _ Heval) as [Hok _]. cbn [heap stack next_state_id] in Hok.
  apply eval_separated in Heval. unfold separated in Heval. cbn [heap stack] in Heval.
  eapply binary_spec with (stk := stk) in Hadd as (_ & Hf & Hstk); [|done..].
  injection Hf as Hs Ha Ht. split; [done|]. split; [done|]. split.
  - intros s lbl d. rewrite Ht, elem_of_dests_table_adds.
    rewrite !fmap_cons in Hok.
    inversion Hok as [|mid ? ? ? Hf2 Hok1]; subst.
    inversion Hok1 as [|lo ? ? ? Hf1 Hok0]; subst.
    pose proof (fragment_ok_le _ _ _ Hf1). pose proof (fragment_ok_le _ _ _ Hf2).
    destruct Hf1 as (_ & _ & Ht1), Hf2 as (_ & _ & Ht2).
    cbn [fragment_of frag_table] in Ht1, Ht2.
    destruct (table_merge_ok lo mid n _ _ ltac:(lia) ltac:(lia) Ht1 Ht2) as [-> _].
    rewrite dests_app; [tauto|].
    destruct Ht1 as (_ & Hk1 & _), Ht2 as (_ & Hk2 & _).
    rewrite Forall_forall in Hk1. rewrite Forall_forall in Hk2.
    intros k Hin1 Hin2. apply Hk1 in Hin1. apply Hk2 in Hin2. range.
  - intros nfa0 Hin. apply (fmap_eq_elem_of _ _ _ nfa0) in Hstk; [|done].
    by injection Hstk.
Qed.

(** The rule for ['+'] (lines 199-217), at any point of a construction: it
    pops one fragment F, takes the next two numbers as start and accept
    states, and pushes a fragment with the transitions of F and exactly
    three more, all on ['ε']: start to F.start, F.accept to F.start and
    F.accept to accept. The tables of the fragments below are unchanged. *)
Theorem plus_rule postfix st nfa1 stk :
  eval postfix initial = Ok st → stack st = nfa1 :: stk →
  ∃ st' nfa,
    step st PLUS = Ok st' ∧ stack st' = nfa :: stk ∧
    next_state_id st' = next_state_id st + 2 ∧
    start_state nfa = next_state_id st ∧ accept_state nfa = next_state_id st + 1 ∧
    (∀ s l d,
       d ∈ dests (table_of (heap st') nfa) s l ↔
       d ∈ dests (table_of (heap st) nfa1) s l ∨
       (s, l, d) ∈ [(next_state_id st, EPSILON, start_state nfa1);
                    (accept_state nfa1, EPSILON, start_state nfa1);
                    (accept_state nfa1, EPSILON, next_state_id st + 1)]) ∧
    (∀ nfa0, nfa0 ∈ stk → table_of (heap st') nfa0 = table_of (heap st) nfa0).
Proof.
  destruct st as [σ n stk0]. cbn [stack heap next_state_id]. intros Heval ->.
  unfold step. rewrite decide_False by (intros Hn; apply Hn, elem_of_operators; tauto).
  rewrite decide_False, decide_True by done. cbn [pop mbind result_bind].
  destruct (add_transitions _ _) as [σ' nfa] eqn:Hadd.
  exists (State σ' (n + 2) (nfa :: stk)), nfa. cbn [stack heap next_state_id].
  split; [done|]. split; [done|]. split; [done|]. by eapply unary_rule.
Qed.

Lemma plus_rule_witness :
  ∃ st nfa1 stk st' nfa,
    eval (str "a") initial = Ok st ∧ stack st = nfa1 :: stk ∧
    step st PLUS = Ok st' ∧ stack st' = nfa :: stk ∧
    next_state_id st' = next_state_id st + 2 ∧
    start_state nfa = next_state_id st ∧ accept_state nfa = next_state_id st + 1 ∧
    (∀ s l d,
       d ∈ dests (table_of (heap st') nfa) s l ↔
       d ∈ dests (table_of (heap st) nfa1) s l ∨
       (s, l, d) ∈ [(next_state_id st, EPSILON, start_state nfa1);
                    (accept_state nfa1, EPSILON, start_state nfa1);
                    (accept_state nfa1, EPSILON, next_state_id st + 1)]) ∧
    (∀ nfa0, nfa0 ∈ stk → table_of (heap st') nfa0 = table_of (heap st) nfa0).
Proof.
  eexists _, _, _.
  destruct (plus_rule (str "a") (State (Store [[(chr "a", 0)]] [[1]]) 2 [Build_NFA 0 1 [(0, 0)]])
              (Build_NFA 0 1 [(0, 0)]) [] eq_refl eq_refl) as (st' & nfa & H).
  exists st', nfa. split; [reflexivity|]. split; [reflexivity|]. exact H.
Defined.

(** The rule for ['*'] (lines 178-197), at any point of a construction: it
    pops one fragment F, takes the next two numbers as start and accept
    states, and pushes a fragment with the transitions of F and exactly
    four more, all on ['ε']: start to F.start, F.accept to F.start, start
    to accept and F.accept to accept.
    The tables of the fragments below are unchanged. *)
Theorem star_rule postfix st nfa1 stk :
  eval postfix initial = Ok st → stack st = nfa1 :: stk →
  ∃ st' nfa,
    step st STAR = Ok st' ∧ stack st' = nfa :: stk ∧
    next_state_id st' = next_state_id st + 2 ∧
    start_state nfa = next_state_id st ∧ accept_state nfa = next_state_id st + 1 ∧
    (∀ s l d,
       d ∈ dests (table_of (heap st') nfa) s l ↔
       d ∈ dests (table_of (heap st) nfa1) s l ∨
       (s, l, d) ∈ [(next_state_id st, EPSILON, start_state nfa1);
                    (accept_state nfa1, EPSILON, start_state nfa1);
                    (next_state_id st, EPSILON, next_state_id st + 1);
                    (accept_state nfa1, EPSILON, next_state_id st + 1)]) ∧
    (∀ nfa0, nfa0 ∈ stk → table_of (heap st') nfa0 = table_of (heap st) nfa0).
Proof.
  destruct st as [σ n stk0]. cbn [stack heap next_state_id]. intros Heval ->.
  unfold step. rewrite decide_False by (intros Hn; apply Hn, elem_of_operators; tauto).
  rewrite decide_True by done. cbn [pop mbind result_bind].
  destruct (add_transitions _ _) as [σ' nfa] eqn:Hadd.
  exists (State σ' (n + 2) (nfa :: stk)), nfa. cbn [stack heap next_state_id].
  split; [done|]. split; [done|]. split; [done|]. by eapply unary_rule.
Qed.

Lemma star_rule_witness :
  ∃ st nfa1 stk st' nfa,
    eval (str "a") initial = Ok st ∧ stack st = nfa1 :: stk ∧
    step st STAR = Ok st' ∧ stack st' = nfa :: stk ∧
    next_state_id st' = next_state_id st + 2 ∧
    start_state nfa = next_state_id st ∧ accept_state nfa = next_state_id st + 1 ∧
    (∀ s l d,
       d ∈ dests (table_of (heap st') nfa) s l ↔
       d ∈ dests (table_of (heap st) nfa1) s l ∨
       (s, l, d) ∈ [(next_state_id st, EPSILON, start_state nfa1);
                    (accept_state nfa1, EPSILON, start_state nfa1);
                    (next_state_id st, EPSILON, next_state_id st + 1);
                    (accept_state nfa1, EPSILON, next_state_id st + 1)]) ∧
    (∀ nfa0, nfa0 ∈ stk → table_of (heap st') nfa0 = table_of (heap st) nfa0).
Proof.
  eexists _, _, _.
  destruct (star_rule (str "a") (State (Store [[(chr "a", 0)]] [[1]]) 2 [Build_NFA 0 1 [(0, 0)]])
              (Build_NFA 0 1 [(0, 0)]) [] eq_refl eq_refl) as (st' & nfa & H).
  exists st', nfa. split; [reflexivity|]. split; [reflexivity|]. exact H.
Defined.

(** The rule for ['?'] (lines 219-236), at any point of a construction: it
    pops one fragment F, takes the next two numbers as start and accept
    states, and pushes a fragment with the transitions of F and exactly
    three more, all on ['ε']: start to F.start, F.accept to accept and
    start to accept.
    The tables of the fragments below are unchanged. *)
Theorem option_rule postfix st nfa1 stk :
  eval postfix initial = Ok st → stack st = nfa1 :: stk →
  ∃ st' nfa,
    step st OPT = Ok st' ∧ stack st' = nfa :: stk ∧
    next_state_id st' = next_state_id st + 2 ∧
    start_state nfa = next_state_id st ∧ accept_state nfa = next_state_id st + 1 ∧
    (∀ s l d,
       d ∈ dests (table_of (heap st') nfa) s l ↔
       d ∈ dests (table_of (heap st) nfa1) s l ∨
       (s, l, d) ∈ [(next_state_id st, EPSILON, start_state nfa1);
                    (accept_state nfa1, EPSILON, next_state_id st + 1);
                    (next_state_id st, EPSILON, next_state_id st + 1)]) ∧
    (∀ nfa0, nfa0 ∈ stk → table_of (heap st') nfa0 = table_of (heap st) nfa0).
Proof.
  destruct st as [σ n stk0]. cbn [stack heap next_state_id]. intros Heval ->.
  unfold step. rewrite decide_False by (intros Hn; apply Hn, elem_of_operators; tauto).
  rewrite !decide_False, decide_True by done. cbn [pop mbind result_bind].
  destruct (add_transitions _ _) as [σ' nfa] eqn:Hadd.
  exists (State σ' (n + 2) (nfa :: stk)), nfa. cbn [stack heap next_state_id].
  split; [done|]. split; [done|]. split; [done|]. by eapply unary_rule.
Qed.

Lemma option_rule_witness :
  ∃ st nfa1 stk st' nfa,
    eval (str "a") initial = Ok st ∧ stack st = nfa1 :: stk ∧
    step st OPT = Ok st' ∧ stack st' = nfa :: stk ∧
    next_state_id st' = next_state_id st + 2 ∧
    start_state nfa = next_state_id st ∧ accept_state nfa = next_state_id st + 1 ∧
    (∀ s l d,
       d ∈ dests (table_of (heap st') nfa) s l ↔
       d ∈ dests (table_of (heap st) nfa1) s l ∨
       (s, l, d) ∈ [(next_state_id st, EPSILON, start_state nfa1);
                    (accept_state nfa1, EPSILON, next_state_id st + 1);
                    (next_state_id st, EPSILON, next_state_id st + 1)]) ∧
    (∀ nfa0, nfa0 ∈ stk → table_of (heap st') nfa0 = table_of (heap st) nfa0).
Proof.
  eexists _, _, _.
  destruct (option_rule (str "a") (State (Store [[(chr "a", 0)]] [[1]]) 2 [Build_NFA 0 1 [(0, 0)]])
              (Build_NFA 0 1 [(0, 0)]) [] eq_refl eq_refl) as (st' & nfa & H).
  exists st', nfa. split; [reflexivity|]. split; [reflexivity|]. exact H.
Defined.

(** The rule for ['.'] (lines 238-256), at any point of a construction: it
    pops the right operand F2 and then the left operand F1, allocates no
    state, and pushes a fragment from F1.start to F2.accept with the
    transitions of F1, those of F2 and exactly one more, from F1.accept to
    F2.start on ['ε'].
    The tables of the fragments below are unchanged. *)
Theorem concat_rule postfix st nfa2 nfa1 stk :
  eval postfix initial = Ok st → stack st = nfa2 :: nfa1 :: stk →
  ∃ st' nfa,
    step st DOT = Ok st' ∧ stack st' = nfa :: stk ∧
    next_state_id st' = next_state_id st ∧
    start_state nfa = start_state nfa1 ∧ accept_state nfa = accept_state nfa2 ∧
    (∀ s l d,
       d ∈ dests (table_of (heap st') nfa) s l ↔
       d ∈ dests (table_of (heap st) nfa1) s l ∨
       d ∈ dests (table_of (heap st) nfa2) s l ∨
       (s, l, d) ∈ [(accept_state nfa1, EPSILON, start_state nfa2)]) ∧
    (∀ nfa0, nfa0 ∈ stk → table_of (heap st') nfa0 = table_of (heap st) nfa0).
Proof.
  destruct st as [σ n stk0]. cbn [stack heap next_state_id]. intros Heval ->.
  unfold step. rewrite decide_False by (intros Hn; apply Hn, elem_of_operators; tauto).
  rewrite !decide_False, decide_True by done. cbn [pop mbind result_bind].
  destruct (merge σ _ nfa2) as [σ1 nfa_m] eqn:Hmerge.
  destruct (add_transitions _ _) as [σ' nfa] eqn:Hadd.
  exists (State σ' (n) (nfa :: stk)), nfa. cbn [stack heap next_state_id].
  split; [done|]. split; [done|]. split; [done|]. by eapply binary_rule.
Qed.

Lemma concat_rule_witness :
  ∃ st nfa2 nfa1 stk st' nfa,
    eval (str "ab") initial = Ok st ∧ stack st = nfa2 :: nfa1 :: stk ∧
    step st DOT = Ok st' ∧ stack st' = nfa :: stk ∧
    next_state_id st' = next_state_id st ∧
    start_state nfa = start_state nfa1 ∧ accept_state nfa = accept_state nfa2 ∧
    (∀ s l d,
       d ∈ dests (table_of (heap st') nfa) s l ↔
       d ∈ dests (table_of (heap st) nfa1) s l ∨
       d ∈ dests (table_of (heap st) nfa2) s l ∨
       (s, l, d) ∈ [(accept_state nfa1, EPSILON, start_state nfa2)]) ∧
    (∀ nfa0, nfa0 ∈ stk → table_of (heap st') nfa0 = table_of (heap st) nfa0).
Proof.
  eexists _, _, _, _.
  destruct (concat_rule (str "ab")
              (State (Store [[(chr "a", 0)]; [(chr "b", 1)]] [[1]; [3]]) 4
                 [Build_NFA 2 3 [(2, 1)]; Build_NFA 0 1 [(0, 0)]])
              (Build_NFA 2 3 [(2, 1)]) (Build_NFA 0 1 [(0, 0)]) [] eq_refl eq_refl)
    as (st' & nfa & H).
  exists st', nfa. split; [reflexivity|]. split; [reflexivity|]. exact H.
Defined.

(** The rule for ['|'] (lines 258-282), at any point of a construction: it
    pops the right operand F2 and then the left operand F1, takes the next
    two numbers as start and accept states, and pushes a fragment with the
    transitions of F1, those of F2 and exactly four more, all on ['ε']:
    start to F1.start, start to F2.start, F1.accept to accept and F2.accept
    to accept.
    The tables of the fragments below are unchanged. *)
Theorem union_rule postfix st nfa2 nfa1 stk :
  eval postfix initial = Ok st → stack st = nfa2 :: nfa1 :: stk →
  ∃ st' nfa,
    step st ALT = Ok st' ∧ stack st' = nfa :: stk ∧
    next_state_id st' = next_state_id st + 2 ∧
    start_state nfa = next_state_id st ∧ accept_state nfa = next_state_id st + 1 ∧
    (∀ s l d,
       d ∈ dests (table_of (heap st') nfa) s l ↔
       d ∈ dests (table_of (heap st) nfa1) s l ∨
       d ∈ dests (table_of (heap st) nfa2) s l ∨
       (s, l, d) ∈ [(next_state_id st, EPSILON, start_state nfa1);
                    (next_state_id st, EPSILON, start_state nfa2);
                    (accept_state nfa1, EPSILON, next_state_id st + 1);
                    (accept_state nfa2, EPSILON, next_state_id st + 1)]) ∧
    (∀ nfa0, nfa0 ∈ stk → table_of (heap st') nfa0 = table_of (heap st) nfa0).
Proof.
  destruct st as [σ n stk0]. cbn [stack heap next_state_id]. intros Heval ->.
  unfold step. rewrite decide_False by (intros Hn; apply Hn, elem_of_operators; tauto).
  rewrite !decide_False, decide_True by done. cbn [pop mbind result_bind].
  destruct (merge σ _ nfa2) as [σ1 nfa_m] eqn:Hmerge.
  destruct (add_transitions _ _) as [σ' nfa] eqn:Hadd.
  exists (State σ' (n + 2) (nfa :: stk)), nfa. cbn [stack heap next_state_id].
  split; [done|]. split; [done|]. split; [done|]. by eapply binary_rule.
Qed.

Lemma union_rule_witness :
  ∃ st nfa2 nfa1 stk st' nfa,
    eval (str "ab") initial = Ok st ∧ stack st = nfa2 :: nfa1 :: stk ∧
    step st ALT = Ok st' ∧ stack st' = nfa :: stk ∧
    next_state_id st' = next_state_id st + 2 ∧
    start_state nfa = next_state_id st ∧ accept_state nfa = next_state_id st + 1 ∧
    (∀ s l d,
       d ∈ dests (table_of (heap st') nfa) s l ↔
       d ∈ dests (table_of (heap st) nfa1) s l ∨
       d ∈ dests (table_of (heap st) nfa2) s l ∨
       (s, l, d) ∈ [(next_state_id st, EPSILON, start_state nfa1);
                    (next_state_id st, EPSILON, start_state nfa2);
                    (accept_state nfa1, EPSILON, next_state_id st + 1);
                    (accept_state nfa2, EPSILON, next_state_id st + 1)]) ∧
    (∀ nfa0, nfa0 ∈ stk → table_of (heap st') nfa0 = table_of (heap st) nfa0).
Proof.
  eexists _, _, _, _.
  destruct (union_rule (str "ab")
              (State (Store [[(chr "a", 0)]; [(chr "b", 1)]] [[1]; [3]]) 4
                 [Build_NFA 2 3 [(2, 1)]; Build_NFA 0 1 [(0, 0)]])
              (Build_NFA 2 3 [(2, 1)]) (Build_NFA 0 1 [(0, 0)]) [] eq_refl eq_refl)
    as (st' & nfa & H).
  exists st', nfa. split; [reflexivity|]. split; [reflexivity|]. exact H.
Defined.

(** ** [infix_to_postfix] on well-formed expressions *)

Lemma explicit_app init c n rest :
  explicit ((init ++ [c]) ++ n :: rest) =
    explicit (init ++ [c]) ++ glue c n ++ explicit (n :: rest).
Proof.
  induction init as [|x init IH].
  - by rewrite !app_nil_l, explicit_cons.
  - rewrite <- !app_comm_cons, (explicit_cons x), (explicit_cons x (init ++ [c])), IH.
    rewrite <- !app_comm_cons. f_equal. rewrite <- !app_assoc. f_equal.
    by destruct init.
Qed.

Lemma glue_dot c n : c ∉ [LPAREN; ALT] → n ∉ [RPAREN; ALT; STAR; PLUS; OPT] → glue c n = [DOT].
Proof. intros. unfold glue. by rewrite decide_True. Qed.

Lemma glue_left c n : c ∈ [LPAREN; ALT] → glue c n = [].
Proof. intros. unfold glue. rewrite decide_False; [done | tauto]. Qed.

Lemma glue_right c n : n ∈ [RPAREN; ALT; STAR; PLUS; OPT] → glue c n = [].
Proof. intros. unfold glue. rewrite decide_False; [done | tauto]. Qed.

Lemma explicit_snoc regex op :
  last_ok regex → op ∈ [RPAREN; ALT; STAR; PLUS; OPT] →
  explicit (regex ++ [op]) = explicit regex ++ [op].
Proof.
  intros (init & c & -> & _) Hop. by rewrite explicit_app, glue_right.
Qed.

Lemma explicit_concat regex1 regex2 :
  last_ok regex1 → first_ok regex2 →
  explicit (regex1 ++ regex2) = explicit regex1 ++ DOT :: explicit regex2.
Proof.
  intros (init & c & -> & Hc) (n & rest & -> & Hn). by rewrite explicit_app, glue_dot.
Qed.

Lemma explicit_alt regex1 regex2 :
  last_ok regex1 → first_ok regex2 →
  explicit (regex1 ++ ALT :: regex2) = explicit regex1 ++ ALT :: explicit regex2.
Proof.
  intros (init & c & -> & Hc) (n & rest & -> & Hn).
  rewrite explicit_app, glue_right by (rewrite !elem_of_cons; tauto).
  rewrite (explicit_cons ALT), glue_left by (rewrite !elem_of_cons; tauto). done.
Qed.

Lemma explicit_group regex :
  first_ok regex → last_ok regex →
  explicit (LPAREN :: regex ++ [RPAREN]) = LPAREN :: explicit regex ++ [RPAREN].
Proof.
  intros (n & rest & Hreg & Hn) (init & c & Hreg' & Hc).
  change (LPAREN :: regex ++ [RPAREN]) with ((LPAREN :: regex) ++ [RPAREN]).
  rewrite explicit_snoc; [| |rewrite !elem_of_cons; tauto].
  2:{ exists (LPAREN :: init), c. by rewrite Hreg'. }
  rewrite (explicit_cons LPAREN). rewrite Hreg at 1.
  by rewrite glue_left by (rewrite !elem_of_cons; tauto).
Qed.

Lemma not_symbol_not_in c (l : list char) :
  c ∉ symbols → (∀ x, x ∈ l → x ∈ symbols) → c ∉ l.
Proof. intros Hc Hl Hin. by apply Hc, Hl. Qed.

Lemma parses_shape k regex postfix : parses k regex postfix → first_ok regex ∧ last_ok regex.
Proof.
  assert (∀ x, x ∈ [RPAREN; ALT; STAR; PLUS; OPT] → x ∈ symbols) as Hsym1.
  { intros x. rewrite elem_of_symbols, elem_of_operators, !elem_of_cons, elem_of_nil. tauto. }
  assert (∀ x, x ∈ [LPAREN; ALT] → x ∈ symbols) as Hsym2.
  { intros x. rewrite elem_of_symbols, elem_of_operators, !elem_of_cons, elem_of_nil. tauto. }
  induction 1 as [c Hc|regex postfix _ _|regex postfix _ IH|op regex postfix Hop _ IH
                 |regex postfix _ IH|regex1 postfix1 regex2 postfix2 _ IH1 _ IH2
                 |regex postfix _ IH|regex1 postfix1 regex2 postfix2 _ IH1 _ IH2]; try done.
  - split; [exists c, []|exists [], c]; (split; [done|]); by apply not_symbol_not_in.
  - split.
    + exists LPAREN, (regex ++ [RPAREN]). split; [done|].
      rewrite !elem_of_cons, elem_of_nil. by intros [?|[?|[?|[?|[?|[]]]]]].
    + exists (LPAREN :: regex), RPAREN. split; [done|].
      rewrite !elem_of_cons, elem_of_nil. by intros [?|[?|[]]].
  - destruct IH as [(n & rest & -> & Hn) _]. split.
    + by exists n, (rest ++ [op]).
    + exists (n :: rest), op. split; [done|].
      revert Hop. rewrite !elem_of_cons, !elem_of_nil.
      by intros [->|[->|[->|[]]]] [?|[?|[]]].
  - destruct IH1 as [(n & rest & -> & Hn) _], IH2 as [_ (init & c & -> & Hc)]. split.
    + by exists n, (rest ++ init ++ [c]).
    + exists ((n :: rest) ++ init), c. by rewrite <- app_assoc.
  - destruct IH1 as [(n & rest & -> & Hn) _], IH2 as [_ (init & c & -> & Hc)]. split.
    + by exists n, (rest ++ ALT :: init ++ [c]).
    + exists ((n :: rest) ++ ALT :: init), c. split; [|done].
      by rewrite <- app_assoc.
Qed.

Lemma emit_nil_le j k stack : j ≤ k → emit j stack = [] → emit k stack = [].
Proof.
  intros Hjk. destruct stack as [|top stack]; simpl; [done|].
  case_decide; [done|]. intros _. by rewrite decide_False by lia.
Qed.

Lemma converts_le j k regex postfix : j ≤ k → converts k regex postfix → converts j regex postfix.
Proof.
  intros Hjk Hk output stack Hstack Hemit.
  destruct (Hk output stack Hstack) as (output' & stack' & Hrun & Hst & Hout & Hkeep).
  { by eapply emit_nil_le. }
  exists output', stack'. split; [done|]. split; [done|]. split.
  - rewrite (emit_le j k) by done. rewrite app_assoc, Hout, Hkeep, Hemit. by rewrite app_nil_r.
  - rewrite (keep_le j k) by done. rewrite Hkeep. by apply emit_nil_keep.
Qed.

Lemma prec_values :
  prec STAR = 3 ∧ prec PLUS = 3 ∧ prec OPT = 3 ∧ prec DOT = 2 ∧ prec ALT = 1 ∧ prec LPAREN = 0.
Proof. done. Qed.

Lemma shunt_operator op k output stack :
  op ∈ operators → prec op = k → Forall stack_symbol stack →
  shunt op output stack = Ok (output ++ emit k stack, op :: keep k stack).
Proof.
  intros Hop <- Hstack. rewrite shunt_cases by done.
  destruct (decide (op = LPAREN)) as [->|?];
    [by apply elem_of_operators in Hop as [?|[?|[?|[?|?]]]]|].
  destruct (decide (op = RPAREN)) as [->|?];
    [by apply elem_of_operators in Hop as [?|[?|[?|[?|?]]]]|].
  by rewrite decide_True.
Qed.

Lemma converts_binary op k regex1 postfix1 regex2 postfix2 :
  op ∈ operators → prec op = k →
  converts k regex1 postfix1 → converts (S k) regex2 postfix2 →
  ∀ output stack,
    Forall stack_symbol stack → emit k stack = [] →
    ∃ output' stack',
      shunting_yard (explicit regex1 ++ op :: explicit regex2) output stack =
        Ok (output', stack') ∧
      Forall stack_symbol stack' ∧
      output' ++ emit k stack' = output ++ postfix1 ++ postfix2 ++ [op] ∧
      keep k stack' = stack.
Proof.
  intros Hop Hprec H1 H2 output stack Hstack Hemit.
  destruct (H1 output stack Hstack Hemit) as (o1 & s1 & Hrun1 & Hst1 & Hout1 & Hkeep1).
  rewrite shunting_yard_app, Hrun1. cbn [mbind result_bind shunting_yard].
  rewrite (shunt_operator op k) by done. cbn [mbind result_bind].
  rewrite Hout1, Hkeep1.
  destruct (H2 (output ++ postfix1) (op :: stack)) as (o2 & s2 & Hrun2 & Hst2 & Hout2 & Hkeep2).
  { constructor; [by left | done]. }
  { simpl. rewrite decide_False; [done | lia]. }
  exists o2, s2. split; [done|]. split; [done|]. split.
  - rewrite (emit_le k (S k)) by lia. rewrite app_assoc, Hout2, Hkeep2.
    simpl. rewrite decide_True by lia. rewrite Hemit. by rewrite <- !app_assoc.
  - rewrite (keep_le k (S k)) by lia. rewrite Hkeep2. simpl.
    rewrite decide_True by lia. by apply emit_nil_keep.
Qed.

Lemma parses_converts k regex postfix : parses k regex postfix → converts k regex postfix.
Proof.
  induction 1 as [c Hc|regex postfix Hp IH|regex postfix _ IH|op regex postfix Hop Hp IH
                 |regex postfix _ IH|regex1 postfix1 regex2 postfix2 Hp1 IH1 Hp2 IH2
                 |regex postfix _ IH|regex1 postfix1 regex2 postfix2 Hp1 IH1 Hp2 IH2].
  - (* literal *)
    intros output stack Hstack _. exists (output ++ [c]), stack.
    rewrite elem_of_symbols in Hc. simpl. rewrite shunt_cases by done.
    rewrite !decide_False by tauto. simpl.
    split; [done|]. split; [done|]. rewrite emit_above, app_nil_r.
    split; [done|]. apply emit_nil_keep, emit_above.
  - (* group *)
    intros output stack Hstack _.
    destruct (parses_shape _ _ _ Hp) as [Hfirst Hlast].
    rewrite explicit_group by done. cbn [shunting_yard].
    rewrite shunt_cases, decide_True by done. cbn [mbind result_bind].
    destruct (IH output (LPAREN :: stack)) as (o1 & s1 & Hrun & Hst & Hout & Hkeep).
    { constructor; [by right | done]. }
    { done. }
    rewrite shunting_yard_app, Hrun. cbn [mbind result_bind shunting_yard].
    rewrite shunt_cases, decide_False, decide_True, Hkeep, Hout by done.
    cbn [mbind result_bind]. exists (output ++ postfix), stack.
    split; [done|]. split; [done|]. rewrite emit_above, app_nil_r.
    split; [done|]. apply emit_nil_keep, emit_above.
  - by apply (converts_le 3 4); [lia|].
  - (* repetition *)
    intros output stack Hstack Hemit.
    destruct (parses_shape _ _ _ Hp) as [_ Hlast].
    rewrite explicit_snoc; [|done|revert Hop; rewrite !elem_of_cons; tauto].
    destruct (IH output stack Hstack Hemit) as (o1 & s1 & Hrun & Hst & Hout & Hkeep).
    rewrite shunting_yard_app, Hrun. cbn [mbind result_bind shunting_yard].
    rewrite (shunt_operator op 3); [| |by revert Hop; rewrite !elem_of_cons, elem_of_nil;
      intros [->|[->|[->|[]]]]|done].
    2:{ apply elem_of_operators. revert Hop. rewrite !elem_of_cons, elem_of_nil. tauto. }
    cbn [mbind result_bind]. rewrite Hout, Hkeep.
    exists (output ++ postfix), (op :: stack). split; [done|].
    assert (prec op = 3) as Hprec.
    { revert Hop. rewrite !elem_of_cons, elem_of_nil. by intros [->|[->|[->|[]]]]. }
    split.
    { constructor; [|done]. left. apply elem_of_operators.
      revert Hop. rewrite !elem_of_cons, elem_of_nil. tauto. }
    simpl. rewrite Hprec, decide_True by lia. rewrite Hemit.
    split; [by rewrite <- app_assoc|]. by apply emit_nil_keep.
  - by apply (converts_le 2 3); [lia|].
  - (* concatenation *)
    intros output stack Hstack Hemit.
    destruct (parses_shape _ _ _ Hp1) as [_ Hlast], (parses_shape _ _ _ Hp2) as [Hfirst _].
    rewrite explicit_concat by done.
    apply (converts_binary DOT 2); try done. apply elem_of_operators. tauto.
  - by apply (converts_le 1 2); [lia|].
  - (* alternation *)
    intros output stack Hstack Hemit.
    destruct (parses_shape _ _ _ Hp1) as [_ Hlast], (parses_shape _ _ _ Hp2) as [Hfirst _].
    rewrite explicit_alt by done.
    apply (converts_binary ALT 1); try done. apply elem_of_operators. tauto.
Qed.

Lemma infix_to_postfix_parses_aux regex postfix :
  parses 1 regex postfix → infix_to_postfix regex = Ok postfix.
Proof.
  intros Hp%parses_converts.
  destruct (Hp [] [] (Forall_nil_2 _) eq_refl) as (output & stack & Hrun & _ & Hout & Hkeep).
  unfold infix_to_postfix. rewrite Hrun. cbn [mbind result_bind].
  rewrite <- (emit_keep 1 stack), Hkeep, app_nil_r. by rewrite Hout.
Qed.

(** [infix_to_postfix] is right on every well-formed expression: it returns
    the postfix form that the grammar gives it, with the operators applied
    in the order of their binding strength, repetition first, then
    concatenation, then alternation, each associating to the left. *)
Theorem infix_to_postfix_parses regex postfix :
  parses 1 regex postfix → infix_to_postfix regex = Ok postfix.
Proof. apply infix_to_postfix_parses_aux. Qed.

Lemma parses_example : parses 1 (str "ab|c*") (str "ab.c*|").
Proof.
  assert (∀ c, bool_decide (c ∉ symbols) = true → parses 3 [c] [c]) as Hlit.
  { intros c Hc%bool_decide_eq_true. by apply parses_atom, parses_literal. }
  apply (parses_alt (str "ab") (str "ab.") (str "c*") (str "c*")).
  - apply parses_term.
    apply (parses_concat (str "a") (str "a") (str "b") (str "b")).
    + apply parses_factor, Hlit. reflexivity.
    + apply Hlit. reflexivity.
  - apply parses_factor. apply (parses_repeat STAR (str "c") (str "c")).
    + apply (bool_decide_unpack _). exact I.
    + apply Hlit. reflexivity.
Qed.

Lemma infix_to_postfix_parses_witness :
  parses 1 (str "ab|c*") (str "ab.c*|") ∧
  infix_to_postfix (str "ab|c*") = Ok (str "ab.c*|").
Proof.
  split; [exact parses_example | exact (infix_to_postfix_parses _ _ parses_example)].
Defined.

(** ** [regex_to_nfa] on well-formed expressions *)

Lemma stack_height_app postfix rest : ∀ h,
  stack_height (postfix ++ rest) h =
    match stack_height postfix h with
    | Some h' => stack_height rest h'
    | None => None
    end.
Proof.
  induction postfix as [|c postfix IH]; intros h; [done|].
  rewrite <- app_comm_cons. cbn [stack_height]. repeat case_decide; by rewrite ?IH.
Qed.

Lemma stack_height_parses k regex postfix :
  parses k regex postfix → ∀ h, stack_height postfix h = Some (S h).
Proof.
  induction 1 as [c Hc|regex postfix _ IH|regex postfix _ IH|op regex postfix Hop _ IH
                 |regex postfix _ IH|regex1 postfix1 regex2 postfix2 _ IH1 _ IH2
                 |regex postfix _ IH|regex1 postfix1 regex2 postfix2 _ IH1 _ IH2];
    intros h; try done.
  - cbn [stack_height]. rewrite decide_True; [done|]. rewrite elem_of_symbols in Hc. tauto.
  - rewrite stack_height_app, IH. cbn [stack_height].
    destruct (decide (op ∉ operators)) as [Hn|_].
    { destruct Hn. apply elem_of_operators. revert Hop.
      rewrite !elem_of_cons, elem_of_nil. tauto. }
    rewrite decide_True by done. by rewrite decide_True by lia.
  - rewrite stack_height_app, IH1. cbv beta iota. rewrite stack_height_app, IH2.
    cbn [stack_height].
    destruct (decide (DOT ∉ operators)) as [Hn|_].
    { destruct Hn. apply elem_of_operators. tauto. }
    rewrite decide_False.
    2:{ rewrite !elem_of_cons, elem_of_nil. by intros [?|[?|[?|[]]]]. }
    by rewrite decide_True by lia.
  - rewrite stack_height_app, IH1. cbv beta iota. rewrite stack_height_app, IH2.
    cbn [stack_height].
    destruct (decide (ALT ∉ operators)) as [Hn|_].
    { destruct Hn. apply elem_of_operators. tauto. }
    rewrite decide_False.
    2:{ rewrite !elem_of_cons, elem_of_nil. by intros [?|[?|[?|[]]]]. }
    by rewrite decide_True by lia.
Qed.

Lemma postfix_to_nfa_height_1 postfix :
  stack_height postfix 0 = Some 1 → ∃ r, postfix_to_nfa postfix = Ok r.
Proof.
  intros Hh. pose proof (eval_stack_height postfix initial) as H.
  cbn [initial stack length] in H. rewrite Hh in H. destruct H as (st & Heval & Hlen).
  unfold postfix_to_nfa. rewrite Heval. cbn [mbind result_bind].
  rewrite decide_False by lia. destruct (stack st) as [|nfa stk]; [done|]. by eexists.
Qed.

Lemma count_labels_app p1 p2 : count_labels (p1 ++ p2) = count_labels p1 + count_labels p2.
Proof. unfold count_labels. by rewrite filter_app, length_app. Qed.

Lemma count_literals_app r1 r2 :
  count_literals (r1 ++ r2) = count_literals r1 + count_literals r2.
Proof. unfold count_literals. by rewrite filter_app, length_app. Qed.

Lemma count_labels_operator op : op ∈ operators → count_labels [op] = 0.
Proof. intros Hop. unfold count_labels. rewrite filter_cons_False; [done | tauto]. Qed.

Lemma count_literals_symbol c : c ∈ symbols → count_literals [c] = 0.
Proof. intros Hc. unfold count_literals. rewrite filter_cons_False; [done | tauto]. Qed.

Lemma parses_count k regex postfix :
  parses k regex postfix → EPSILON ∉ regex → count_labels postfix = count_literals regex.
Proof.
  assert (∀ op, op ∈ [STAR; PLUS; OPT] → op ∈ operators) as Hops.
  { intros op. rewrite elem_of_operators, !elem_of_cons, elem_of_nil. tauto. }
  induction 1 as [c Hc|regex postfix _ IH|regex postfix _ IH|op regex postfix Hop _ IH
                 |regex postfix _ IH|regex1 postfix1 regex2 postfix2 _ IH1 _ IH2
                 |regex postfix _ IH|regex1 postfix1 regex2 postfix2 _ IH1 _ IH2];
    intros Heps; auto.
  - unfold count_labels, count_literals. rewrite !filter_cons_True; [done | done |].
    split; [rewrite elem_of_symbols in Hc; tauto|].
    intros ->. apply Heps. by left.
  - change (LPAREN :: regex ++ [RPAREN]) with ([LPAREN] ++ regex ++ [RPAREN]).
    rewrite !count_literals_app, !count_literals_symbol, IH;
      [lia | | |]; rewrite ?elem_of_symbols; auto.
    intros Hin. apply Heps. right. apply elem_of_app. by left.
  - rewrite count_labels_app, count_literals_app, count_labels_operator by auto.
    rewrite count_literals_symbol, IH; [done | |].
    + intros Hin. apply Heps, elem_of_app. by left.
    + apply elem_of_symbols. auto.
  - rewrite !count_labels_app, count_literals_app, count_labels_operator.
    + rewrite IH1, IH2; [lia | |]; intros Hin; apply Heps, elem_of_app; auto.
    + apply elem_of_operators. tauto.
  - change (regex1 ++ ALT :: regex2) with (regex1 ++ [ALT] ++ regex2).
    rewrite !count_labels_app, !count_literals_app, count_labels_operator.
    + rewrite count_literals_symbol, IH1, IH2;
        first [ lia
              | apply elem_of_symbols; left; apply elem_of_operators; tauto
              | intros Hin; apply Heps; rewrite ?elem_of_app, ?elem_of_cons; tauto ].
    + apply elem_of_operators. tauto.
Qed.

Lemma regex_to_nfa_parses regex postfix :
  parses 1 regex postfix →
  ∃ r, regex_to_nfa regex = Ok r ∧
       (EPSILON ∉ regex → count_non_epsilon (table_of r.1 r.2) = count_literals regex).
Proof.
  intros Hp. unfold regex_to_nfa.
  rewrite (infix_to_postfix_parses_aux regex postfix Hp). cbn [mbind result_bind].
  destruct (postfix_to_nfa_height_1 postfix) as [r Hr].
  { by eapply stack_height_parses. }
  exists r. split; [done|]. intros Heps.
  destruct (postfix_to_nfa_Ok _ _ Hr) as (st & Heval & Hstk & Hheap).
  destruct (eval_stack_ok _ _ Heval) as [_ Htot].
  rewrite Hstk, Hheap, fmap_cons, total_non_epsilon_cons in Htot.
  cbn [fragment_of frag_table] in Htot.
  rewrite <- (parses_count _ _ _ Hp Heps), <- Htot. unfold total_non_epsilon. simpl. lia.
Qed.

(** [regex_to_nfa] returns an automaton for every well-formed expression:
    neither the pops of [infix_to_postfix] nor those of [postfix_to_nfa]
    find an empty stack, and the final stack holds one fragment. *)
Theorem regex_to_nfa_returns regex :
  well_formed regex → ∃ r, regex_to_nfa regex = Ok r.
Proof.
  intros [postfix Hp]. destruct (regex_to_nfa_parses _ _ Hp) as (r & Hr & _). by exists r.
Qed.

Lemma regex_to_nfa_returns_witness :
  well_formed (str "ab|c*") ∧ ∃ r, regex_to_nfa (str "ab|c*") = Ok r.
Proof.
  assert (well_formed (str "ab|c*")) as Hwf by (eexists; exact parses_example).
  split; [exact Hwf | exact (regex_to_nfa_returns _ Hwf)].
Defined.

(** For a well-formed expression without an ['ε'] character, the
    transitions of the automaton of [regex_to_nfa] that are not on ['ε']
    are as many as the literal characters of the expression. *)
Theorem regex_to_nfa_count regex r :
  well_formed regex → EPSILON ∉ regex → regex_to_nfa regex = Ok r →
  count_non_epsilon (table_of r.1 r.2) = count_literals regex.
Proof.
  intros [postfix Hp] Heps Hr. destruct (regex_to_nfa_parses _ _ Hp) as (r' & Hr' & Hcount).
  rewrite Hr in Hr'. injection Hr' as <-. by apply Hcount.
Qed.

Lemma regex_to_nfa_count_witness :
  well_formed (str "ab|c*") ∧ (EPSILON ∉ str "ab|c*") ∧
  ∃ r, regex_to_nfa (str "ab|c*") = Ok r ∧
       count_non_epsilon (table_of r.1 r.2) = count_literals (str "ab|c*").
Proof.
  assert (well_formed (str "ab|c*")) as Hwf by (eexists; exact parses_example).
  assert (EPSILON ∉ str "ab|c*") as Heps by (apply (bool_decide_unpack _); exact I).
  split; [exact Hwf|]. split; [exact Heps|].
  eexists. split; [vm_compute; reflexivity|].
  apply (regex_to_nfa_count _ _ Hwf Heps). vm_compute. reflexivity.
Defined.

(** ** Runs *)

Section run_facts.
Context (t : table).

Lemma run_app s1 w1 s2 w2 s3 : run t s1 w1 s2 → run t s2 w2 s3 → run t s1 (w1 ++ w2) s3.
Proof.
  induction 1 as [s|s s' w s'' Hd _ IH|s c s' w s'' Hc Hd _ IH]; intros Hr; simpl.
  - done.
  - eapply run_eps; eauto.
  - eapply run_sym; eauto.
Qed.

Lemma run_eps_last s w s' s'' : run t s w s' → s'' ∈ dests t s' EPSILON → run t s w s''.
Proof.
  intros Hr Hd. rewrite <- (app_nil_r w). eapply run_app; [done|].
  eapply run_eps; [done | constructor].
Qed.

Lemma run_stuck s w s' : (∀ l, dests t s l = []) → run t s w s' → w = [] ∧ s' = s.
Proof.
  intros Hs Hr. destruct Hr as [s|s s1 w s2 Hd _|s c s1 w s2 _ Hd _]; [done| |];
    rewrite Hs in Hd; by apply elem_of_nil in Hd.
Qed.

Lemma eps_reach_run s s' w s'' : eps_reach t s s' → run t s' w s'' → run t s w s''.
Proof. induction 1; intros Hr; [done|]. eapply run_eps; eauto. Qed.

Lemma accepts_from_run accept s w : accepts_from t accept s w ↔ run t s w accept.
Proof.
  split.
  - induction 1 as [s Hr|s s1 s2 c w Hr Hc Hd _ IH].
    + eapply eps_reach_run; [done | constructor].
    + eapply eps_reach_run; [done|]. by eapply run_sym.
  - induction 1 as [s|s s' w s'' Hd _ IH|s c s' w s'' Hc Hd _ IH].
    + constructor. constructor.
    + inversion IH; subst.
      * constructor. by eapply eps_step.
      * eapply accepts_cons; [by eapply eps_step | done..].
    + eapply accepts_cons; [constructor | done..].
Qed.
End run_facts.

Lemma run_mono t t' s w s' :
  (∀ s l d, d ∈ dests t s l → d ∈ dests t' s l) → run t s w s' → run t' s w s'.
Proof.
  intros Hsub. induction 1 as [s|s s1 w s2 Hd _ IH|s c s1 w s2 Hc Hd _ IH].
  - constructor.
  - eapply run_eps; eauto.
  - eapply run_sym; eauto.
Qed.

Lemma table_ok_dests lo hi t s l d :
  table_ok lo hi t → d ∈ dests t s l → in_range lo hi s ∧ in_range lo hi d.
Proof.
  intros (_ & Hkeys & Hinner) Hd. unfold dests in Hd.
  destruct (dict_get s t) as [inner|] eqn:Hs; simpl in Hd; [|by apply elem_of_nil in Hd].
  destruct (dict_get l inner) as [ds|] eqn:Hl; simpl in Hd; [|by apply elem_of_nil in Hd].
  rewrite Forall_forall in Hkeys. rewrite Forall_forall in Hinner. split.
  - apply Hkeys. by eapply dict_get_Some_keys.
  - destruct (Hinner inner) as (_ & _ & Hsets); [by eapply dict_get_Some_values|].
    rewrite Forall_forall in Hsets.
    destruct (Hsets ds) as [_ Hds]; [by eapply dict_get_Some_values|].
    rewrite Forall_forall in Hds. by apply Hds.
Qed.

(** ** The language of a literal fragment *)

Lemma literal_denotes (n : nat) c :
  c ≠ EPSILON → denotes (Fragment n (n + 1) (table_add [] (n, c, n + 1))) (Lit c).
Proof.
  intros Hc w. rewrite table_add_nil. cbn [frag_table frag_start frag_accept fst snd].
  set (t := [(n, [(c, [n + 1])])]).
  assert (∀ s l d, d ∈ dests t s l ↔ s = n ∧ l = c ∧ d = n + 1) as Hedge.
  { intros s l d. unfold dests, t. simpl.
    destruct (decide (s = n)) as [->|?]; simpl; [|rewrite elem_of_nil; tauto].
    destruct (decide (l = c)) as [->|?]; simpl; [|rewrite elem_of_nil; tauto].
    rewrite list_elem_of_singleton. tauto. }
  split.
  - intros Hr. inversion Hr as [s Heq|s s' w' s'' Hd Hr'|s c' s' w' s'' Hc' Hd Hr']; subst.
    + lia.
    + apply Hedge in Hd as (_ & <- & _). done.
    + apply Hedge in Hd as (_ & -> & ->).
      apply run_stuck in Hr' as [-> _]; [constructor|].
      intros l. destruct (dests t (n + 1) l) as [|d ds] eqn:Hds; [done|].
      assert (d ∈ dests t (n + 1) l) as Hd by (rewrite Hds; by left).
      apply Hedge in Hd. lia.
  - intros Hm. inversion Hm; subst.
    eapply run_sym; [done | by apply Hedge | constructor].
Qed.

(** ** The languages of the fragments that the operators make *)

(** An edge of a table extended by [table_add]s is an edge of the table or
    one of the added transitions. *)
Ltac edge_cases H :=
  apply elem_of_dests_table_adds in H as [H|H];
  [|repeat (apply elem_of_cons in H as [H|H]; [injection H; clear H; intros; subst|]);
    try (by apply elem_of_nil in H)].

Lemma matches_star_loop t a1 s1 acc e :
  s1 ∈ dests t a1 EPSILON → acc ∈ dests t a1 EPSILON →
  (∀ w, matches e w → run t s1 w a1) →
  ∀ w, matches (Star e) w → run t a1 w acc.
Proof.
  intros Hback Hout Hin w Hm. remember (Star e) as e' eqn:He'.
  induction Hm as [| |e0 w1 w2 Hm1 _ Hm2 IH| | | | | |]; try discriminate.
  - eapply run_eps; [exact Hout | constructor].
  - injection He' as ->. eapply run_eps; [exact Hback|].
    eapply run_app; [by apply Hin | by apply IH].
Qed.

Lemma star_denotes lo n f1 e :
  fragment_ok lo n f1 → denotes f1 e →
  denotes
    (Fragment n (n + 1)
       (foldl table_add (frag_table f1)
          [(n, EPSILON, frag_start f1); (frag_accept f1, EPSILON, frag_start f1);
           (n, EPSILON, n + 1); (frag_accept f1, EPSILON, n + 1)])) (Star e).
Proof.
  intros (Hs1 & Ha1 & Ht1) H1 w. cbn [frag_table frag_start frag_accept].
  set (t1 := frag_table f1) in *. set (s1 := frag_start f1) in *.
  set (a1 := frag_accept f1) in *.
  set (t' := foldl table_add t1 _).
  assert (∀ s w s', run t1 s w s' → run t' s w s') as Hlift.
  { intros s w0 s'. apply run_mono. intros ? ? ? Hd.
    apply elem_of_dests_table_adds. by left. }
  assert (∀ s l d, (s, l, d) ∈ [(n, EPSILON, s1); (a1, EPSILON, s1); (n, EPSILON, n + 1);
                                (a1, EPSILON, n + 1)] → d ∈ dests t' s l) as Hnew.
  { intros s l d Hin. apply elem_of_dests_table_adds. by right. }
  split.
  - (* a run from start to accept reads a word of the language *)
    assert (∀ s w s', run t' s w s' → s' = n + 1 →
              (s = n + 1 → w = []) ∧
              (s = n → matches (Star e) w) ∧
              (in_range lo n s →
                 ∃ w1 w2, w = w1 ++ w2 ∧ run t1 s w1 a1 ∧ matches (Star e) w2)) as Hinv.
    { induction 1 as [s|s s2 w0 s3 Hd _ IH|s c s2 w0 s3 Hc Hd _ IH]; intros ->.
      - split; [done|]. split; [lia|]. intros Hr. range.
      - destruct (IH eq_refl) as (IH1 & IH2 & IH3). edge_cases Hd; subst.
        + destruct (table_ok_dests _ _ _ _ _ _ Ht1 Hd) as [Hs Hs2].
          split; [intros ->; range|]. split; [intros ->; range|]. intros _.
          destruct (IH3 Hs2) as (w1 & w2 & -> & Hr1 & Hm2).
          exists w1, w2. split; [done|]. split; [by eapply run_eps | done].
        + split; [range|]. split; [|range]. intros _.
          destruct (IH3 Hs1) as (w1 & w2 & -> & Hr1 & Hm2).
          apply matches_star_cons; [by apply H1 | done].
        + split; [range|]. split; [range|]. intros _.
          destruct (IH3 Hs1) as (w1 & w2 & -> & Hr1 & Hm2).
          exists [], (w1 ++ w2). split; [done|]. split; [constructor|].
          apply matches_star_cons; [by apply H1 | done].
        + split; [lia|]. split; [|range]. intros _.
          rewrite (IH1 eq_refl). constructor.
        + split; [range|]. split; [range|]. intros _.
          rewrite (IH1 eq_refl). exists [], []. split; [done|]. split; constructor.
      - destruct (IH eq_refl) as (IH1 & IH2 & IH3). edge_cases Hd; subst; try done.
        destruct (table_ok_dests _ _ _ _ _ _ Ht1 Hd) as [Hs Hs2].
        split; [intros ->; range|]. split; [intros ->; range|]. intros _.
        destruct (IH3 Hs2) as (w1 & w2 & -> & Hr1 & Hm2).
        exists (c :: w1), w2. split; [done|]. split; [by eapply run_sym | done]. }
    intros Hr. by apply (Hinv _ _ _ Hr eq_refl).
  - (* a word of the language has a run *)
    intros Hm.
    assert (∀ w, matches (Star e) w → run t' a1 w (n + 1)) as Hloop.
    { apply (matches_star_loop t' a1 s1 (n + 1) e).
      - apply Hnew. rewrite !elem_of_cons. tauto.
      - apply Hnew. rewrite !elem_of_cons. tauto.
      - intros w0 Hw0. by apply Hlift, H1. }
    inversion Hm as [|e0 Heq|e0 w1 w2 Hm1 Hm2| | | | | |]; subst.
    + eapply run_eps; [|constructor]. apply Hnew. rewrite !elem_of_cons. tauto.
    + eapply run_eps; [apply Hnew; rewrite !elem_of_cons; tauto|].
      eapply run_app; [by apply Hlift, H1 | by apply Hloop].
Qed.

Lemma plus_denotes lo n f1 e :
  fragment_ok lo n f1 → denotes f1 e →
  denotes
    (Fragment n (n + 1)
       (foldl table_add (frag_table f1)
          [(n, EPSILON, frag_start f1); (frag_accept f1, EPSILON, frag_start f1);
           (frag_accept f1, EPSILON, n + 1)])) (Plus e).
Proof.
  intros (Hs1 & Ha1 & Ht1) H1 w. cbn [frag_table frag_start frag_accept].
  set (t1 := frag_table f1) in *. set (s1 := frag_start f1) in *.
  set (a1 := frag_accept f1) in *.
  set (t' := foldl table_add t1 _).
  assert (∀ s w s', run t1 s w s' → run t' s w s') as Hlift.
  { intros s w0 s'. apply run_mono. intros ? ? ? Hd.
    apply elem_of_dests_table_adds. by left. }
  assert (∀ s l d, (s, l, d) ∈ [(n, EPSILON, s1); (a1, EPSILON, s1);
                                (a1, EPSILON, n + 1)] → d ∈ dests t' s l) as Hnew.
  { intros s l d Hin. apply elem_of_dests_table_adds. by right. }
  split.
  - assert (∀ s w s', run t' s w s' → s' = n + 1 →
              (s = n + 1 → w = []) ∧
              (s = n → matches (Plus e) w) ∧
              (in_range lo n s →
                 ∃ w1 w2, w = w1 ++ w2 ∧ run t1 s w1 a1 ∧ matches (Star e) w2)) as Hinv.
    { induction 1 as [s|s s2 w0 s3 Hd _ IH|s c s2 w0 s3 Hc Hd _ IH]; intros ->.
      - split; [done|]. split; [lia|]. intros Hr. range.
      - destruct (IH eq_refl) as (IH1 & IH2 & IH3). edge_cases Hd; subst.
        + destruct (table_ok_dests _ _ _ _ _ _ Ht1 Hd) as [Hs Hs2].
          split; [intros ->; range|]. split; [intros ->; range|]. intros _.
          destruct (IH3 Hs2) as (w1 & w2 & -> & Hr1 & Hm2).
          exists w1, w2. split; [done|]. split; [by eapply run_eps | done].
        + split; [range|]. split; [|range]. intros _.
          destruct (IH3 Hs1) as (w1 & w2 & -> & Hr1 & Hm2).
          apply matches_plus; [by apply H1 | done].
        + split; [range|]. split; [range|]. intros _.
          destruct (IH3 Hs1) as (w1 & w2 & -> & Hr1 & Hm2).
          exists [], (w1 ++ w2). split; [done|]. split; [constructor|].
          apply matches_star_cons; [by apply H1 | done].
        + split; [range|]. split; [range|]. intros _.
          rewrite (IH1 eq_refl). exists [], []. split; [done|]. split; constructor.
      - destruct (IH eq_refl) as (IH1 & IH2 & IH3). edge_cases Hd; subst; try done.
        destruct (table_ok_dests _ _ _ _ _ _ Ht1 Hd) as [Hs Hs2].
        split; [intros ->; range|]. split; [intros ->; range|]. intros _.
        destruct (IH3 Hs2) as (w1 & w2 & -> & Hr1 & Hm2).
        exists (c :: w1), w2. split; [done|]. split; [by eapply run_sym | done]. }
    intros Hr. by apply (Hinv _ _ _ Hr eq_refl).
  - intros Hm.
    assert (∀ w, matches (Star e) w → run t' a1 w (n + 1)) as Hloop.
    { apply (matches_star_loop t' a1 s1 (n + 1) e).
      - apply Hnew. rewrite !elem_of_cons. tauto.
      - apply Hnew. rewrite !elem_of_cons. tauto.
      - intros w0 Hw0. by apply Hlift, H1. }
    inversion Hm as [| |  |e0 w1 w2 Hm1 Hm2| | | | |]; subst.
    eapply run_eps; [apply Hnew; rewrite !elem_of_cons; tauto|].
    eapply run_app; [by apply Hlift, H1 | by apply Hloop].
Qed.

Lemma opt_denotes lo n f1 e :
  fragment_ok lo n f1 → denotes f1 e →
  denotes
    (Fragment n (n + 1)
       (foldl table_add (frag_table f1)
          [(n, EPSILON, frag_start f1); (frag_accept f1, EPSILON, n + 1);
           (n, EPSILON, n + 1)])) (Opt e).
Proof.
  intros (Hs1 & Ha1 & Ht1) H1 w. cbn [frag_table frag_start frag_accept].
  set (t1 := frag_table f1) in *. set (s1 := frag_start f1) in *.
  set (a1 := frag_accept f1) in *.
  set (t' := foldl table_add t1 _).
  assert (∀ s w s', run t1 s w s' → run t' s w s') as Hlift.
  { intros s w0 s'. apply run_mono. intros ? ? ? Hd.
    apply elem_of_dests_table_adds. by left. }
  assert (∀ s l d, (s, l, d) ∈ [(n, EPSILON, s1); (a1, EPSILON, n + 1);
                                (n, EPSILON, n + 1)] → d ∈ dests t' s l) as Hnew.
  { intros s l d Hin. apply elem_of_dests_table_adds. by right. }
  split.
  - assert (∀ s w s', run t' s w s' → s' = n + 1 →
              (s = n + 1 → w = []) ∧
              (s = n → matches (Opt e) w) ∧
              (in_range lo n s → run t1 s w a1)) as Hinv.
    { induction 1 as [s|s s2 w0 s3 Hd _ IH|s c s2 w0 s3 Hc Hd _ IH]; intros ->.
      - split; [done|]. split; [lia|]. intros Hr. range.
      - destruct (IH eq_refl) as (IH1 & IH2 & IH3). edge_cases Hd; subst.
        + destruct (table_ok_dests _ _ _ _ _ _ Ht1 Hd) as [Hs Hs2].
          split; [intros ->; range|]. split; [intros ->; range|]. intros _.
          eapply run_eps; [done | by apply IH3].
        + split; [range|]. split; [|range]. intros _.
          apply matches_opt, H1. by apply IH3.
        + split; [range|]. split; [range|]. intros _.
          rewrite (IH1 eq_refl). constructor.
        + split; [lia|]. split; [|range]. intros _.
          rewrite (IH1 eq_refl). constructor.
      - destruct (IH eq_refl) as (IH1 & IH2 & IH3). edge_cases Hd; subst; try done.
        destruct (table_ok_dests _ _ _ _ _ _ Ht1 Hd) as [Hs Hs2].
        split; [intros ->; range|]. split; [intros ->; range|]. intros _.
        eapply run_sym; [done | done | by apply IH3]. }
    intros Hr. by apply (Hinv _ _ _ Hr eq_refl).
  - intros Hm. inversion Hm as [| | | |e0|e0 w0 Hm0| | |]; subst.
    + eapply run_eps; [|constructor]. apply Hnew. rewrite !elem_of_cons. tauto.
    + eapply run_eps; [apply Hnew; rewrite !elem_of_cons; tauto|].
      eapply run_eps_last; [by apply Hlift, H1|].
      apply Hnew. rewrite !elem_of_cons. tauto.
Qed.

Lemma merged_dests lo mid n f1 f2 :
  fragment_ok lo mid f1 → fragment_ok mid n f2 →
  table_merge (frag_table f1) (frag_table f2) = frag_table f1 ++ frag_table f2 ∧
  ∀ s l d, d ∈ dests (frag_table f1 ++ frag_table f2) s l ↔
           d ∈ dests (frag_table f1) s l ∨ d ∈ dests (frag_table f2) s l.
Proof.
  intros Hf1 Hf2. pose proof (fragment_ok_le _ _ _ Hf1). pose proof (fragment_ok_le _ _ _ Hf2).
  destruct Hf1 as (_ & _ & Ht1), Hf2 as (_ & _ & Ht2).
  destruct (table_merge_ok lo mid n _ _ ltac:(lia) ltac:(lia) Ht1 Ht2) as [Heq _].
  split; [done|]. intros s l d. apply dests_app.
  destruct Ht1 as (_ & Hk1 & _), Ht2 as (_ & Hk2 & _).
  rewrite Forall_forall in Hk1. rewrite Forall_forall in Hk2.
  intros k Hin1 Hin2. apply Hk1 in Hin1. apply Hk2 in Hin2. range.
Qed.

Lemma cat_denotes lo mid n f1 f2 e1 e2 :
  fragment_ok lo mid f1 → fragment_ok mid n f2 →
  denotes f1 e1 → denotes f2 e2 →
  denotes
    (Fragment (frag_start f1) (frag_accept f2)
       (foldl table_add (table_merge (frag_table f1) (frag_table f2))
          [(frag_accept f1, EPSILON, frag_start f2)])) (Cat e1 e2).
Proof.
  intros Hf1 Hf2 H1 H2 w. destruct (merged_dests _ _ _ _ _ Hf1 Hf2) as [-> Happ].
  destruct Hf1 as (Hs1 & Ha1 & Ht1), Hf2 as (Hs2 & Ha2 & Ht2).
  cbn [frag_table frag_start frag_accept].
  set (t1 := frag_table f1) in *. set (s1 := frag_start f1) in *.
  set (a1 := frag_accept f1) in *.
  set (t2 := frag_table f2) in *. set (s2 := frag_start f2) in *.
  set (a2 := frag_accept f2) in *.
  set (t' := foldl table_add (t1 ++ t2) _).
  assert (∀ s w s', run t1 s w s' → run t' s w s') as Hlift1.
  { intros s w0 s'. apply run_mono. intros ? ? ? Hd.
    apply elem_of_dests_table_adds. left. apply Happ. by left. }
  assert (∀ s w s', run t2 s w s' → run t' s w s') as Hlift2.
  { intros s w0 s'. apply run_mono. intros ? ? ? Hd.
    apply elem_of_dests_table_adds. left. apply Happ. by right. }
  split.
  - assert (∀ s w s', run t' s w s' → s' = a2 →
              (in_range mid n s → run t2 s w a2) ∧
              (in_range lo mid s →
                 ∃ w1 w2, w = w1 ++ w2 ∧ run t1 s w1 a1 ∧ run t2 s2 w2 a2)) as Hinv.
    { induction 1 as [s|s s3 w0 s4 Hd _ IH|s c s3 w0 s4 Hc Hd _ IH]; intros ->.
      - split; [constructor|]. intros Hr. range.
      - destruct (IH eq_refl) as (IH1 & IH2). edge_cases Hd; subst.
        + apply Happ in Hd as [Hd|Hd].
          * destruct (table_ok_dests _ _ _ _ _ _ Ht1 Hd) as [Hs Hs3].
            split; [intros ?; range|]. intros _.
            destruct (IH2 Hs3) as (w1 & w2 & -> & Hr1 & Hr2).
            exists w1, w2. split; [done|]. split; [by eapply run_eps | done].
          * destruct (table_ok_dests _ _ _ _ _ _ Ht2 Hd) as [Hs Hs3].
            split; [|intros ?; range]. intros _.
            eapply run_eps; [done | by apply IH1].
        + split; [intros ?; range|]. intros _.
          exists [], w0. split; [done|]. split; [constructor | by apply IH1].
      - destruct (IH eq_refl) as (IH1 & IH2). edge_cases Hd; subst; try done.
        apply Happ in Hd as [Hd|Hd].
        + destruct (table_ok_dests _ _ _ _ _ _ Ht1 Hd) as [Hs Hs3].
          split; [intros ?; range|]. intros _.
          destruct (IH2 Hs3) as (w1 & w2 & -> & Hr1 & Hr2).
          exists (c :: w1), w2. split; [done|]. split; [by eapply run_sym | done].
        + destruct (table_ok_dests _ _ _ _ _ _ Ht2 Hd) as [Hs Hs3].
          split; [|intros ?; range]. intros _.
          eapply run_sym; [done | done | by apply IH1]. }
    intros Hr. destruct (Hinv _ _ _ Hr eq_refl) as [_ Hl].
    destruct (Hl Hs1) as (w1 & w2 & -> & Hr1 & Hr2).
    apply matches_cat; [by apply H1 | by apply H2].
  - intros Hm. inversion Hm as [| | | | | |e0 e3 w1 w2 Hm1 Hm2| |]; subst.
    eapply run_app; [by apply Hlift1, H1|].
    eapply run_eps; [|by apply Hlift2, H2].
    apply elem_of_dests_table_adds. right. rewrite !elem_of_cons. tauto.
Qed.

Lemma alt_denotes lo mid n f1 f2 e1 e2 :
  fragment_ok lo mid f1 → fragment_ok mid n f2 →
  denotes f1 e1 → denotes f2 e2 →
  denotes
    (Fragment n (n + 1)
       (foldl table_add (table_merge (frag_table f1) (frag_table f2))
          [(n, EPSILON, frag_start f1); (n, EPSILON, frag_start f2);
           (frag_accept f1, EPSILON, n + 1); (frag_accept f2, EPSILON, n + 1)]))
    (Alt e1 e2).
Proof.
  intros Hf1 Hf2 H1 H2 w. destruct (merged_dests _ _ _ _ _ Hf1 Hf2) as [-> Happ].
  pose proof (fragment_ok_le _ _ _ Hf1) as Hlo. pose proof (fragment_ok_le _ _ _ Hf2) as Hmid.
  destruct Hf1 as (Hs1 & Ha1 & Ht1), Hf2 as (Hs2 & Ha2 & Ht2).
  cbn [frag_table frag_start frag_accept].
  set (t1 := frag_table f1) in *. set (s1 := frag_start f1) in *.
  set (a1 := frag_accept f1) in *.
  set (t2 := frag_table f2) in *. set (s2 := frag_start f2) in *.
  set (a2 := frag_accept f2) in *.
  set (t' := foldl table_add (t1 ++ t2) _).
  assert (∀ s w s', run t1 s w s' → run t' s w s') as Hlift1.
  { intros s w0 s'. apply run_mono. intros ? ? ? Hd.
    apply elem_of_dests_table_adds. left. apply Happ. by left. }
  assert (∀ s w s', run t2 s w s' → run t' s w s') as Hlift2.
  { intros s w0 s'. apply run_mono. intros ? ? ? Hd.
    apply elem_of_dests_table_adds. left. apply Happ. by right. }
  assert (∀ s l d, (s, l, d) ∈ [(n, EPSILON, s1); (n, EPSILON, s2); (a1, EPSILON, n + 1);
                                (a2, EPSILON, n + 1)] → d ∈ dests t' s l) as Hnew.
  { intros s l d Hin. apply elem_of_dests_table_adds. by right. }
  split.
  - assert (∀ s w s', run t' s w s' → s' = n + 1 →
              (s = n + 1 → w = []) ∧
              (s = n → matches (Alt e1 e2) w) ∧
              (in_range lo mid s → run t1 s w a1) ∧
              (in_range mid n s → run t2 s w a2)) as Hinv.
    { induction 1 as [s|s s3 w0 s4 Hd _ IH|s c s3 w0 s4 Hc Hd _ IH]; intros ->.
      - split; [done|]. split; [lia|]. split; intros ?; range.
      - destruct (IH eq_refl) as (IH1 & IH2 & IH3 & IH4). edge_cases Hd; subst.
        + apply Happ in Hd as [Hd|Hd].
          * destruct (table_ok_dests _ _ _ _ _ _ Ht1 Hd) as [Hs Hs3].
            split; [intros ->; range|]. split; [intros ->; range|].
            split; [|intros ?; range]. intros _.
            eapply run_eps; [done | by apply IH3].
          * destruct (table_ok_dests _ _ _ _ _ _ Ht2 Hd) as [Hs Hs3].
            split; [intros ->; range|]. split; [intros ->; range|].
            split; [intros ?; range|]. intros _.
            eapply run_eps; [done | by apply IH4].
        + split; [range|]. split; [|split; intros ?; range]. intros _.
          apply matches_alt_l, H1. by apply IH3.
        + split; [range|]. split; [|split; intros ?; range]. intros _.
          apply matches_alt_r, H2. by apply IH4.
        + split; [range|]. split; [range|]. split; [|intros ?; range]. intros _.
          rewrite (IH1 eq_refl). constructor.
        + split; [range|]. split; [range|]. split; [intros ?; range|]. intros _.
          rewrite (IH1 eq_refl). constructor.
      - destruct (IH eq_refl) as (IH1 & IH2 & IH3 & IH4). edge_cases Hd; subst; try done.
        apply Happ in Hd as [Hd|Hd].
        + destruct (table_ok_dests _ _ _ _ _ _ Ht1 Hd) as [Hs Hs3].
          split; [intros ->; range|]. split; [intros ->; range|].
          split; [|intros ?; range]. intros _.
          eapply run_sym; [done | done | by apply IH3].
        + destruct (table_ok_dests _ _ _ _ _ _ Ht2 Hd) as [Hs Hs3].
          split; [intros ->; range|]. split; [intros ->; range|].
          split; [intros ?; range|]. intros _.
          eapply run_sym; [done | done | by apply IH4]. }
    intros Hr. by apply (Hinv _ _ _ Hr eq_refl).
  - intros Hm. inversion Hm as [| | | | | | |e0 e3 w0 Hm0|e0 e3 w0 Hm0]; subst.
    + eapply (run_eps _ _ s1); [apply Hnew; rewrite !elem_of_cons; tauto|].
      eapply run_eps_last; [by apply Hlift1, H1|].
      apply Hnew. rewrite !elem_of_cons. tauto.
    + eapply (run_eps _ _ s2); [apply Hnew; rewrite !elem_of_cons; tauto|].
      eapply run_eps_last; [by apply Hlift2, H2|].
      apply Hnew. rewrite !elem_of_cons. tauto.
Qed.

(** ** The language of the automaton *)

Lemma value_eval_app p1 p2 : ∀ vs,
  value_eval (p1 ++ p2) vs = value_eval p1 vs ≫= value_eval p2.
Proof.
  induction p1 as [|c p1 IH]; intros vs; cbn [app value_eval]; [done|].
  destruct (value_step vs c) as [vs1|e]; cbn [mbind result_bind]; [apply IH | done].
Qed.

Lemma stack_ok_top n f stk : stack_ok n (f :: stk) → ∃ lo, fragment_ok lo n f ∧ stack_ok lo stk.
Proof. inversion 1; subst. eauto. Qed.

Lemma thompson e :
  Forall (fun c => (c ∉ operators) ∧ c ≠ EPSILON) (literals e) →
  ∀ n stk, stack_ok n stk →
    ∃ n' f, value_eval (post e) (n, stk) = Ok (n', f :: stk) ∧
            stack_ok n' (f :: stk) ∧ denotes f e.
Proof.
  assert (∀ p n stk n' f (P : Prop),
            stack_ok n stk → value_eval p (n, stk) = Ok (n', f :: stk) → P →
            value_eval p (n, stk) = Ok (n', f :: stk) ∧ stack_ok n' (f :: stk) ∧ P) as Hpack.
  { intros p n stk n' f P Hstk Heval HP. split; [done|]. split; [|done].
    by destruct (value_eval_ok _ _ _ _ _ Hstk Heval). }
  induction e as [c|e IH|e IH|e IH|e1 IH1 e2 IH2|e1 IH1 e2 IH2];
    cbn [literals post]; intros Hlit n stk Hstk.
  - apply Forall_singleton in Hlit as [Hop Heps].
    eexists _, _. apply Hpack; [done| |by apply (literal_denotes n)].
    cbn [value_eval]. unfold value_step. by rewrite decide_True.
  - destruct (IH Hlit n stk Hstk) as (n1 & f1 & Heval & Hstk1 & Hden).
    destruct (stack_ok_top _ _ _ Hstk1) as (lo & Hf1 & _).
    eexists _, _. apply Hpack; [done| |by apply (star_denotes lo n1 f1)].
    rewrite value_eval_app, Heval. reflexivity.
  - destruct (IH Hlit n stk Hstk) as (n1 & f1 & Heval & Hstk1 & Hden).
    destruct (stack_ok_top _ _ _ Hstk1) as (lo & Hf1 & _).
    eexists _, _. apply Hpack; [done| |by apply (plus_denotes lo n1 f1)].
    rewrite value_eval_app, Heval. reflexivity.
  - destruct (IH Hlit n stk Hstk) as (n1 & f1 & Heval & Hstk1 & Hden).
    destruct (stack_ok_top _ _ _ Hstk1) as (lo & Hf1 & _).
    eexists _, _. apply Hpack; [done| |by apply (opt_denotes lo n1 f1)].
    rewrite value_eval_app, Heval. reflexivity.
  - apply Forall_app in Hlit as [Hlit1 Hlit2].
    destruct (IH1 Hlit1 n stk Hstk) as (n1 & f1 & Heval1 & Hstk1 & Hden1).
    destruct (IH2 Hlit2 n1 (f1 :: stk) Hstk1) as (n2 & f2 & Heval2 & Hstk2 & Hden2).
    destruct (stack_ok_top _ _ _ Hstk2) as (mid & Hf2 & Hstk1').
    destruct (stack_ok_top _ _ _ Hstk1') as (lo & Hf1 & _).
    eexists _, _. apply Hpack; [done| |by apply (cat_denotes lo mid n2 f1 f2)].
    rewrite value_eval_app, Heval1. cbn [mbind result_bind].
    rewrite value_eval_app, Heval2. reflexivity.
  - apply Forall_app in Hlit as [Hlit1 Hlit2].
    destruct (IH1 Hlit1 n stk Hstk) as (n1 & f1 & Heval1 & Hstk1 & Hden1).
    destruct (IH2 Hlit2 n1 (f1 :: stk) Hstk1) as (n2 & f2 & Heval2 & Hstk2 & Hden2).
    destruct (stack_ok_top _ _ _ Hstk2) as (mid & Hf2 & Hstk1').
    destruct (stack_ok_top _ _ _ Hstk1') as (lo & Hf1 & _).
    eexists _, _. apply Hpack; [done| |by apply (alt_denotes lo mid n2 f1 f2)].
    rewrite value_eval_app, Heval1. cbn [mbind result_bind].
    rewrite value_eval_app, Heval2. reflexivity.
Qed.

Lemma post_repeat_of op e : op ∈ [STAR; PLUS; OPT] → post (repeat_of op e) = post e ++ [op].
Proof.
  rewrite !elem_of_cons, elem_of_nil. unfold repeat_of.
  intros [->|[->|[->|[]]]]; reflexivity.
Qed.

Lemma literals_repeat_of op e : literals (repeat_of op e) = literals e.
Proof. unfold repeat_of. by repeat case_decide. Qed.

Lemma reads_parses k regex e : reads k regex e → parses k regex (post e).
Proof.
  induction 1 as [c Hc|regex e _ IH|regex e _ IH|op regex e Hop _ IH
                 |regex e _ IH|regex1 e1 regex2 e2 _ IH1 _ IH2
                 |regex e _ IH|regex1 e1 regex2 e2 _ IH1 _ IH2]; cbn [post];
    try by constructor.
  rewrite post_repeat_of by done. by constructor.
Qed.

Lemma reads_literals k regex e :
  reads k regex e → Forall (fun c => (c ∉ symbols) ∧ c ∈ regex) (literals e).
Proof.
  induction 1 as [c Hc|regex e _ IH|regex e _ IH|op regex e Hop _ IH
                 |regex e _ IH|regex1 e1 regex2 e2 _ IH1 _ IH2
                 |regex e _ IH|regex1 e1 regex2 e2 _ IH1 _ IH2]; cbn [literals];
    rewrite ?literals_repeat_of; try done.
  - apply Forall_singleton. split; [done|]. apply elem_of_cons. by left.
  - eapply Forall_impl; [done|]. intros c [? ?]. split; [done|].
    rewrite elem_of_cons, elem_of_app. tauto.
  - eapply Forall_impl; [done|]. intros c [? ?]. split; [done|].
    rewrite elem_of_app. tauto.
  - apply Forall_app. split; (eapply Forall_impl; [done|]); intros c [? ?];
      (split; [done|]); rewrite elem_of_app; tauto.
  - apply Forall_app. split; (eapply Forall_impl; [done|]); intros c [? ?];
      (split; [done|]); rewrite elem_of_app, elem_of_cons; tauto.
Qed.

(** [regex_to_nfa] is right on every well-formed expression without an ['ε']
    character: it returns an automaton that accepts exactly the words of
    the language of the expression, where the expression is read with ['|']
    below concatenation below the postfix ['*'], ['+'] and ['?']. *)
Theorem regex_to_nfa_language regex e :
  reads 1 regex e → EPSILON ∉ regex →
  ∃ r, regex_to_nfa regex = Ok r ∧ ∀ w, accepts r w ↔ matches e w.
Proof.
  intros Hreads Heps. pose proof (reads_parses _ _ _ Hreads) as Hp.
  unfold regex_to_nfa.
  rewrite (infix_to_postfix_parses_aux regex (post e) Hp). cbn [mbind result_bind].
  destruct (postfix_to_nfa_height_1 (post e)) as [r Hr].
  { by eapply stack_height_parses. }
  exists r. split; [done|]. intros w.
  destruct (postfix_to_nfa_Ok _ _ Hr) as (st & Heval & Hstk & Hheap).
  apply eval_values in Heval. unfold values_of in Heval. rewrite Hstk, Hheap in Heval.
  destruct (thompson e) with (n := 0) (stk := @nil fragment)
    as (n' & f & Heval' & _ & Hden); [|constructor|].
  { eapply Forall_impl; [by eapply reads_literals|]. intros c [Hsym Hin]. split.
    - intros Hop. apply Hsym, elem_of_symbols. by left.
    - by intros ->. }
  rewrite Heval' in Heval. injection Heval as _ ->.
  unfold accepts. rewrite accepts_from_run. apply Hden.
Qed.

Lemma reads_example :
  reads 1 (str "ab|c*") (Alt (Cat (Lit (chr "a")) (Lit (chr "b"))) (Star (Lit (chr "c")))).
Proof.
  assert (∀ c, bool_decide (c ∉ symbols) = true → reads 3 [c] (Lit c)) as Hlit.
  { intros c Hc%bool_decide_eq_true. by apply reads_atom, reads_literal. }
  apply (reads_alt (str "ab") _ (str "c*")).
  - apply reads_term.
    apply (reads_concat (str "a") _ (str "b")).
    + apply reads_factor, Hlit. reflexivity.
    + apply Hlit. reflexivity.
  - apply reads_factor. apply (reads_repeat STAR (str "c") (Lit (chr "c"))).
    + apply (bool_decide_unpack _). exact I.
    + apply Hlit. reflexivity.
Qed.

Lemma regex_to_nfa_language_witness :
  reads 1 (str "ab|c*") (Alt (Cat (Lit (chr "a")) (Lit (chr "b"))) (Star (Lit (chr "c")))) ∧
  (EPSILON ∉ str "ab|c*") ∧
  ∃ r, regex_to_nfa (str "ab|c*") = Ok r ∧
       ∀ w, accepts r w ↔
            matches (Alt (Cat (Lit (chr "a")) (Lit (chr "b"))) (Star (Lit (chr "c")))) w.
Proof.
  assert (EPSILON ∉ str "ab|c*") as Heps by (apply (bool_decide_unpack _); exact I).
  split; [exact reads_example|]. split; [exact Heps|].
  exact (regex_to_nfa_language _ _ reads_example Heps).
Defined.

(** ** Opening markers that are never closed *)

Lemma emit_no_open k stack : 1 ≤ k → filter (fun c => c = LPAREN) (emit k stack) = [].
Proof.
  intros Hk. induction stack as [|top stack IH]; simpl; [done|].
  case_decide as Hp; [|done]. rewrite filter_cons_False; [done|].
  intros ->. vm_compute in Hp. lia.
Qed.

Lemma shunting_yard_opens regex : ∀ output stack output' stack',
  Forall stack_symbol stack →
  shunting_yard regex output stack = Ok (output', stack') →
  opens stack' = open_depth (opens stack) regex ∧
  filter (fun c => c = LPAREN) output' = filter (fun c => c = LPAREN) output.
Proof.
  induction regex as [|c regex IH]; intros output stack output' stack' Hstack.
  { simpl. by intros [= <- <-]. }
  cbn [shunting_yard open_depth]. rewrite shunt_cases by done.
  destruct (decide (c = LPAREN)) as [->|Hl].
  { cbn [mbind result_bind]. intros Hrun.
    apply IH in Hrun; [|constructor; [by right|done]].
    unfold opens in Hrun at 2. rewrite filter_cons_True in Hrun by done. done. }
  destruct (decide (c = RPAREN)) as [->|Hr].
  { pose proof (opens_keep 1 stack (le_n 1)) as Hopens.
    pose proof (keep_stack_symbol 1 _ Hstack) as Hks.
    destruct (keep 1 stack) as [|top rest] eqn:Hk; [done|].
    assert (top = LPAREN) as ->.
    { apply Forall_cons in Hks as [Htop _]. apply stack_symbol_prec_0; [done|].
      by eapply keep_head. }
    unfold opens in Hopens at 1. rewrite filter_cons_True in Hopens by done.
    cbn [length] in Hopens. fold (opens rest) in Hopens.
    cbn [mbind result_bind]. apply Forall_cons in Hks as [_ Hrest]. intros Hrun.
    apply IH in Hrun as [Hdepth Hout]; [|done]. rewrite <- Hopens. cbn [pred].
    split; [done|]. by rewrite Hout, filter_app, emit_no_open, app_nil_r. }
  destruct (decide (c ∈ operators)) as [Hop|Hop].
  { cbn [mbind result_bind]. intros Hrun.
    assert (1 ≤ prec c) as Hprec.
    { destruct (precedence_operator c) as (k & Hk & ?); [done|].
      unfold prec. by rewrite Hk. }
    apply IH in Hrun as [Hdepth Hout].
    2:{ constructor; [by left | by apply keep_stack_symbol]. }
    unfold opens in Hdepth at 2. rewrite filter_cons_False in Hdepth by done.
    fold (opens (keep (prec c) stack)) in Hdepth. rewrite opens_keep in Hdepth by done.
    split; [done|]. by rewrite Hout, filter_app, emit_no_open, app_nil_r. }
  cbn [mbind result_bind]. intros Hrun. apply IH in Hrun as [Hdepth Hout]; [|done].
  split; [done|]. by rewrite Hout, filter_app, filter_cons_False, app_nil_r.
Qed.

Lemma open_depth_explicit regex : ∀ depth,
  open_depth depth (explicit regex) = open_depth depth regex.
Proof.
  induction regex as [|c rest IH]; intros depth; [done|].
  rewrite explicit_cons.
  assert (∀ d, open_depth d
            (match rest with [] => [] | nxt :: _ => glue c nxt end ++ explicit rest) =
          open_depth d rest) as Hrest.
  { intros d. rewrite <- IH. destruct rest as [|nxt rest']; [done|].
    unfold glue. by case_decide. }
  cbn [open_depth]. by repeat case_decide.
Qed.

(** [infix_to_postfix] does not report an opening marker that is never
    closed: whenever it returns, the postfix string holds one ['('] token
    for each ['('] of the expression that no [')'] closes, and no other;
    the postfix string of an expression whose markers are matched has
    none. *)
Theorem infix_to_postfix_open_markers regex postfix :
  infix_to_postfix regex = Ok postfix →
  length (filter (fun c => c = LPAREN) postfix) = open_depth 0 regex.
Proof.
  unfold infix_to_postfix.
  destruct (shunting_yard (explicit regex) [] []) as [[output stack]|e] eqn:Hrun; [|done].
  cbn [mbind result_bind]. intros [= <-].
  apply shunting_yard_opens in Hrun as [Hdepth Hout]; [|constructor].
  rewrite filter_app, Hout, filter_nil, app_nil_l.
  rewrite open_depth_explicit in Hdepth. exact Hdepth.
Qed.

Lemma infix_to_postfix_open_markers_witness :
  infix_to_postfix (str "(a|(b") = Ok (str "ab(|(") ∧
  length (filter (fun c => c = LPAREN) (str "ab(|(")) = open_depth 0 (str "(a|(b").
Proof.
  split; [reflexivity|].
  apply (infix_to_postfix_open_markers (str "(a|(b") (str "ab(|(")). reflexivity.
Defined.

(** ** The size of the automaton *)

Lemma dict_elem_of_get {K V} `{EqDecision K} (k : K) (v : V) (d : list (K * V)) :
  NoDup d.*1 → (k, v) ∈ d → dict_get k d = Some v.
Proof.
  induction d as [|[k' v'] d IH]; intros Hnd Hin; [by apply elem_of_nil in Hin|].
  rewrite fmap_cons in Hnd. apply NoDup_cons in Hnd as [Hk' Hnd]. cbn [dict_get].
  apply elem_of_cons in Hin as [[= -> ->]|Hin].
  - by rewrite decide_True.
  - rewrite decide_False; [by apply IH|]. intros ->. apply Hk'.
    apply list_elem_of_fmap. by exists (k', v).
Qed.

Lemma table_ok_inner lo hi t s inner :
  table_ok lo hi t → (s, inner) ∈ t → inner_ok lo hi inner.
Proof.
  intros (_ & _ & Hinner) Hin. rewrite Forall_forall in Hinner. apply Hinner.
  apply list_elem_of_fmap. by exists (s, inner).
Qed.

Lemma elem_of_triples_dests lo hi t s l d :
  table_ok lo hi t → (s, l, d) ∈ triples t ↔ d ∈ dests t s l.
Proof.
  intros Ht. rewrite elem_of_triples. unfold dests. split.
  - intros (inner & ds & Hs & Hl & Hd).
    destruct (table_ok_inner _ _ _ _ _ Ht Hs) as (_ & Hnd & _).
    destruct Ht as (Hkeys & _).
    rewrite (dict_elem_of_get s inner t Hkeys Hs). simpl.
    by rewrite (dict_elem_of_get l ds inner Hnd Hl).
  - destruct (dict_get s t) as [inner|] eqn:Hs; simpl; [|by intros ?%elem_of_nil].
    destruct (dict_get l inner) as [ds|] eqn:Hl; simpl; [|by intros ?%elem_of_nil].
    intros Hd. exists inner, ds. split; [by apply dict_get_elem_of|].
    split; [by apply dict_get_elem_of | done].
Qed.

Lemma NoDup_triples lo hi t : table_ok lo hi t → NoDup (triples t).
Proof.
  intros Ht. unfold triples. apply NoDup_bind.
  - intros [s1 inner1] [s2 inner2] [[s l] d] H1 H2 Hy1 Hy2.
    apply list_elem_of_bind in Hy1 as ([l1 ds1] & Hy1 & _).
    apply list_elem_of_bind in Hy1 as (d1 & Hy1 & _).
    apply list_elem_of_singleton in Hy1 as [= -> -> ->].
    apply list_elem_of_bind in Hy2 as ([l2 ds2] & Hy2 & _).
    apply list_elem_of_bind in Hy2 as (d2 & Hy2 & _).
    apply list_elem_of_singleton in Hy2 as [= -> -> ->].
    destruct Ht as (Hkeys & _).
    apply (dict_elem_of_get _ _ _ Hkeys) in H1. apply (dict_elem_of_get _ _ _ Hkeys) in H2.
    congruence.
  - intros [s inner] Hs. destruct (table_ok_inner _ _ _ _ _ Ht Hs) as (_ & Hnd & Hsets).
    apply NoDup_bind.
    + intros [l1 ds1] [l2 ds2] [[s' l] d] H1 H2 Hy1 Hy2.
      apply list_elem_of_bind in Hy1 as (d1 & Hy1 & _).
      apply list_elem_of_singleton in Hy1 as [= -> -> ->].
      apply list_elem_of_bind in Hy2 as (d2 & Hy2 & _).
      apply list_elem_of_singleton in Hy2 as [= -> ->].
      apply (dict_elem_of_get _ _ _ Hnd) in H1. apply (dict_elem_of_get _ _ _ Hnd) in H2.
      congruence.
    + intros [l ds] Hl. rewrite Forall_forall in Hsets.
      destruct (Hsets ds) as [Hds _]; [apply list_elem_of_fmap; by exists (l, ds)|].
      apply NoDup_bind; [|intros; apply NoDup_singleton|done].
      intros d1 d2 y _ _ Hy1 Hy2.
      apply list_elem_of_singleton in Hy1 as ->.
      by apply list_elem_of_singleton in Hy2 as [= ->].
    + by apply NoDup_fmap_1 in Hnd.
  - destruct Ht as (Hkeys & _). by apply NoDup_fmap_1 in Hkeys.
Qed.

Lemma length_triples_adds lo hi lo' hi' t l :
  table_ok lo hi t → table_ok lo' hi' (foldl table_add t l) →
  length (triples (foldl table_add t l)) ≤ length (triples t) + length l.
Proof.
  intros Ht Ht'. rewrite <- length_app. apply submseteq_length, NoDup_submseteq.
  { by eapply NoDup_triples. }
  intros [[s lbl] d] Hin. apply (elem_of_triples_dests _ _ _ _ _ _ Ht') in Hin.
  apply elem_of_dests_table_adds in Hin as [Hin|Hin]; apply elem_of_app; [left|by right].
  by apply (elem_of_triples_dests _ _ _ _ _ _ Ht).
Qed.

Lemma total_transitions_cons f stk :
  total_transitions (f :: stk) = length (triples (frag_table f)) + total_transitions stk.
Proof. done. Qed.

Lemma unary_size n n' f1 start accept stk l :
  stack_ok n (f1 :: stk) →
  stack_ok n' (Fragment start accept (foldl table_add (frag_table f1) l) :: stk) →
  total_transitions (Fragment start accept (foldl table_add (frag_table f1) l) :: stk) ≤
    total_transitions (f1 :: stk) + length l.
Proof.
  intros (lo & (_ & _ & Ht1) & _)%stack_ok_top (lo' & (_ & _ & Ht') & _)%stack_ok_top.
  rewrite !total_transitions_cons. cbn [frag_table] in *.
  pose proof (length_triples_adds _ _ _ _ _ _ Ht1 Ht'). lia.
Qed.

Lemma binary_size n n' f1 f2 start accept stk l :
  stack_ok n (f2 :: f1 :: stk) →
  stack_ok n'
    (Fragment start accept
       (foldl table_add (table_merge (frag_table f1) (frag_table f2)) l) :: stk) →
  total_transitions
    (Fragment start accept
       (foldl table_add (table_merge (frag_table f1) (frag_table f2)) l) :: stk) ≤
    total_transitions (f2 :: f1 :: stk) + length l.
Proof.
  intros (mid & Hf2 & (lo & Hf1 & _)%stack_ok_top)%stack_ok_top.
  intros (lo' & (_ & _ & Ht') & _)%stack_ok_top.
  pose proof (fragment_ok_le _ _ _ Hf1). pose proof (fragment_ok_le _ _ _ Hf2).
  destruct Hf1 as (_ & _ & Ht1), Hf2 as (_ & _ & Ht2).
  destruct (table_merge_ok lo mid n _ _ ltac:(lia) ltac:(lia) Ht1 Ht2) as [Heq Ht].
  rewrite !total_transitions_cons. cbn [frag_table] in *. rewrite Heq in *.
  pose proof (length_triples_adds _ _ _ _ _ _ Ht Ht') as Hlen.
  rewrite triples_app, length_app in Hlen. lia.
Qed.

Lemma value_step_size n stk c n' stk' :
  stack_ok n stk →
  value_step (n, stk) c = Ok (n', stk') →
  total_transitions stk' ≤ total_transitions stk + 4.
Proof.
  intros Hstk Hstep. destruct (value_step_ok _ _ _ _ _ Hstk Hstep) as [Hstk' _].
  revert Hstep Hstk'. unfold value_step.
  destruct (decide (c ∉ operators)) as [Hc|Hc].
  { intros [= <- <-] _. rewrite total_transitions_cons, table_add_nil. simpl. lia. }
  destruct (decide (c = STAR)).
  { destruct stk as [|f1 stk]; [done|]. cbn [pop_fragment mbind result_bind].
    inject_step. intros Hstk'. pose proof (unary_size _ _ _ _ _ _ _ Hstk Hstk') as Hle.
    cbn [length] in Hle. lia. }
  destruct (decide (c = PLUS)).
  { destruct stk as [|f1 stk]; [done|]. cbn [pop_fragment mbind result_bind].
    inject_step. intros Hstk'. pose proof (unary_size _ _ _ _ _ _ _ Hstk Hstk') as Hle.
    cbn [length] in Hle. lia. }
  destruct (decide (c = OPT)).
  { destruct stk as [|f1 stk]; [done|]. cbn [pop_fragment mbind result_bind].
    inject_step. intros Hstk'. pose proof (unary_size _ _ _ _ _ _ _ Hstk Hstk') as Hle.
    cbn [length] in Hle. lia. }
  destruct (decide (c = DOT)).
  { destruct stk as [|f2 [|f1 stk]]; [done..|]. cbn [pop_fragment mbind result_bind].
    inject_step. intros Hstk'. pose proof (binary_size _ _ _ _ _ _ _ _ Hstk Hstk') as Hle.
    cbn [length] in Hle. lia. }
  destruct (decide (c = ALT)).
  { destruct stk as [|f2 [|f1 stk]]; [done..|]. cbn [pop_fragment mbind result_bind].
    inject_step. intros Hstk'. pose proof (binary_size _ _ _ _ _ _ _ _ Hstk Hstk') as Hle.
    cbn [length] in Hle. lia. }
  done.
Qed.

Lemma value_eval_size postfix : ∀ n stk n' stk',
  stack_ok n stk →
  value_eval postfix (n, stk) = Ok (n', stk') →
  total_transitions stk' ≤ total_transitions stk + 4 * length postfix.
Proof.
  induction postfix as [|c postfix IH]; intros n stk n' stk' Hstk; cbn [value_eval].
  { intros [= <- <-]. simpl. lia. }
  destruct (value_step (n, stk) c) as [[n1 stk1]|e] eqn:Hstep; [|done].
  cbn [mbind result_bind]. intros Heval.
  destruct (value_step_ok _ _ _ _ _ Hstk Hstep) as [Hstk1 _].
  pose proof (value_step_size _ _ _ _ _ Hstk Hstep).
  pose proof (IH _ _ _ _ Hstk1 Heval). cbn [length]. lia.
Qed.

(** The automaton that [postfix_to_nfa] returns has at most four
    transitions for each token of the postfix string: a literal adds one
    transition and an operator at most four, to those of its operands. *)
Theorem postfix_to_nfa_size postfix r :
  postfix_to_nfa postfix = Ok r →
  length (triples (table_of r.1 r.2)) ≤ 4 * length postfix.
Proof.
  intros (st & Heval & Hstk & Hheap)%postfix_to_nfa_Ok.
  apply eval_values in Heval. apply value_eval_size in Heval; [|constructor].
  cbn [values_of snd] in Heval. rewrite Hstk, Hheap in Heval.
  rewrite fmap_cons, total_transitions_cons in Heval.
  cbn [fragment_of frag_table] in Heval. unfold total_transitions in Heval.
  simpl in Heval. lia.
Qed.

Lemma postfix_to_nfa_size_witness :
  ∃ r, postfix_to_nfa (str "ab|*") = Ok r ∧
       length (triples (table_of r.1 r.2)) ≤ 4 * length (str "ab|*").
Proof.
  eexists. split; [vm_compute; reflexivity|].
  apply (postfix_to_nfa_size (str "ab|*")). vm_compute. reflexivity.
Defined.
